(** * Heading blank lines (obsidian-linter, [src/rules/heading-blank-lines.ts])

    A shallow embedding of the rule [HeadingBlankLines]: its [apply] method,
    the regular-expression rewrites it performs, its published examples, and
    the properties the specification states about them.

    A document is a JavaScript string, that is a sequence of UTF-16 code
    units; a code unit is an [N].  The callback that [apply] hands to
    [ignoreListOfTypes] sees a masked document: a sequence of symbols, each
    either a code unit or an opaque placeholder standing for a protected
    region. *)

From Stdlib Require Import String Ascii.

From Stdlib Require Import NArith Bool Arith Lia List.

Import ListNotations.

Set Implicit Arguments.

(** ** Symbols and character classes *)

(** The region types passed to [ignoreListOfTypes] in [apply]. *)
Inductive IgnoreTypes : Type :=
| code | yaml | link | wikiLink | tag.

(** A symbol of a (masked) document: a UTF-16 code unit, or the placeholder
    of a protected region together with the bytes it stands for. *)
Inductive sym : Type :=
| Ch (c : N)
| Tok (ty : IgnoreTypes) (orig : list N).

Definition LF : N := 10.

Definition CR : N := 13.

Definition HASH : N := 35.

Definition DASH : N := 45.

(** ECMAScript LineTerminator: LF, CR, LS (U+2028), PS (U+2029). *)
Definition line_terminator_code (c : N) : bool :=
  ((c =? 10) || (c =? 13) || (c =? 8232) || (c =? 8233))%N.

(** ECMAScript [\s]: WhiteSpace and LineTerminator code points. *)
Definition white_space_code (c : N) : bool :=
  ((c =? 9) || (c =? 10) || (c =? 11) || (c =? 12) || (c =? 13) || (c =? 32)
   || (c =? 160) || (c =? 5760) || ((8192 <=? c) && (c <=? 8202))
   || (c =? 8232) || (c =? 8233) || (c =? 8239) || (c =? 8287)
   || (c =? 12288) || (c =? 65279))%N.

Definition is_code (n : N) (s : sym) : bool :=
  match s with Ch c => (c =? n)%N | Tok _ _ => false end.

Definition is_lf : sym -> bool := is_code LF.

Definition is_hash : sym -> bool := is_code HASH.

Definition is_dash : sym -> bool := is_code DASH.

Definition is_line_terminator (s : sym) : bool :=
  match s with Ch c => line_terminator_code c | Tok _ _ => false end.

(** [\s] *)
Definition is_space (s : sym) : bool :=
  match s with Ch c => white_space_code c | Tok _ _ => false end.

(** [.] (no [s] flag): anything but a line terminator. *)
Definition is_dot (s : sym) : bool := negb (is_line_terminator s).

(** ** A backtracking matcher for the regular expressions of the rule *)

Inductive regex : Type :=
| Class (p : sym -> bool)            (* one symbol of a class *)
| Bol (multiline : bool)             (* ^ *)
| Eol (multiline : bool)             (* $ *)
| Empty
| Seq (r1 r2 : regex)
| Alt (r1 r2 : regex)                (* r1|r2 *)
| Star (greedy : bool) (r : regex)   (* r* and r*? *)
| Group (i : nat) (r : regex)        (* the i-th capturing group *)
| Look (positive : bool) (r : regex) (* (?=r) and (?!r) *).

(** [r+] *)
Definition Plus (r : regex) : regex := Seq r (Star true r).

(** [r?] *)
Definition Opt (r : regex) : regex := Alt r Empty.

(** The state of a match: the symbol before the current position, the
    symbols from the current position on, and the captures so far. *)
Record mstate : Type := MState {
  prev : option sym;
  rest : list sym;
  caps : list (nat * list sym)
}.

Definition at_bol (multiline : bool) (p : option sym) : bool :=
  match p with
  | None => true
  | Some c => multiline && is_line_terminator c
  end.

Definition at_eol (multiline : bool) (t : list sym) : bool :=
  match t with
  | [] => true
  | c :: _ => multiline && is_line_terminator c
  end.

Definition set_cap (i : nat) (v : list sym) (s : mstate) : mstate :=
  MState (prev s) (rest s) ((i, v) :: caps s).

Fixpoint get_cap (i : nat) (cs : list (nat * list sym)) : list sym :=
  match cs with
  | [] => []
  | (j, v) :: cs' => if Nat.eqb i j then v else get_cap i cs'
  end.

Definition orelse (A : Type) (x : option A) (y : unit -> option A) : option A :=
  match x with Some v => Some v | None => y tt end.

(** [exec r k s]: match [r] at state [s], then continue with [k]; the first
    success in backtracking order is the result. *)
Fixpoint exec (r : regex) (k : mstate -> option mstate) (s : mstate)
  : option mstate :=
  match r with
  | Class p =>
      match rest s with
      | c :: tl => if p c then k (MState (Some c) tl (caps s)) else None
      | [] => None
      end
  | Bol ml => if at_bol ml (prev s) then k s else None
  | Eol ml => if at_eol ml (rest s) then k s else None
  | Empty => k s
  | Seq r1 r2 => exec r1 (exec r2 k) s
  | Alt r1 r2 => orelse (exec r1 k s) (fun _ => exec r2 k s)
  | Star g r1 =>
      (fix loop (n : nat) (s : mstate) {struct n} : option mstate :=
         match n with
         | O => k s
         | S n' =>
             let again (_ : unit) :=
               exec r1 (fun s' =>
                          if length (rest s') <? length (rest s)
                          then loop n' s' else None) s in
             if g then orelse (again tt) (fun _ => k s)
             else orelse (k s) again
         end) (length (rest s)) s
  | Group i r1 =>
      exec r1 (fun s' =>
                 k (set_cap i (firstn (length (rest s) - length (rest s'))
                                 (rest s)) s')) s
  | Look pos r1 =>
      match exec r1 Some s with
      | Some _ => if pos then k s else None
      | None => if pos then None else k s
      end
  end.

(** One match attempt at a position. *)
Definition match_at (r : regex) (p : option sym) (t : list sym)
  : option mstate :=
  exec r Some (MState p t []).

(** ** Replacement strings and [String.prototype.replace] *)

Inductive titem : Type :=
| Lit (l : list sym)     (* literal text *)
| Ref (i : nat)          (* $i *).

Fixpoint subst (tpl : list titem) (cs : list (nat * list sym)) : list sym :=
  match tpl with
  | [] => []
  | Lit l :: tpl' => l ++ subst tpl' cs
  | Ref i :: tpl' => get_cap i cs ++ subst tpl' cs
  end.

(** [text.replace(r, tpl)] for [r] without the [g] flag: the leftmost match. *)
Fixpoint replace_from (r : regex) (tpl : list titem) (p : option sym)
  (t : list sym) : list sym :=
  match match_at r p t with
  | Some s => subst tpl (caps s) ++ rest s
  | None =>
      match t with
      | [] => []
      | c :: tl => c :: replace_from r tpl (Some c) tl
      end
  end.

Definition replace (r : regex) (tpl : list titem) (t : list sym) : list sym :=
  replace_from r tpl None t.

(** Every match of [r], left to right, replaced by [out seg caps], where
    [seg] is the matched text.  [skip] counts the symbols of the last match
    still to pass. *)
Fixpoint replace_all_from (r : regex)
  (out : list sym -> list (nat * list sym) -> list sym) (skip : nat)
  (p : option sym) (t : list sym) : list sym :=
  match skip with
  | S n =>
      match t with
      | [] => []
      | c :: tl => replace_all_from r out n (Some c) tl
      end
  | O =>
      match match_at r p t with
      | Some s =>
          out (firstn (length t - length (rest s)) t) (caps s) ++
          match t with
          | [] => []
          | c :: tl =>
              match length t - length (rest s) with
              | O => c :: replace_all_from r out 0 (Some c) tl
              | S n => replace_all_from r out n (Some c) tl
              end
          end
      | None =>
          match t with
          | [] => []
          | c :: tl => c :: replace_all_from r out 0 (Some c) tl
          end
      end
  end.

(** [text.replace(r, tpl)] for [r] with the [g] flag. *)
Definition replace_all (r : regex) (tpl : list titem) (t : list sym)
  : list sym :=
  replace_all_from r (fun _ cs => subst tpl cs) 0 None t.

(** [text.match(r)] used as a condition: is there a match anywhere? *)
Fixpoint has_match_from (r : regex) (p : option sym) (t : list sym) : bool :=
  match match_at r p t with
  | Some _ => true
  | None =>
      match t with
      | [] => false
      | c :: tl => has_match_from r (Some c) tl
      end
  end.

Definition has_match (r : regex) (t : list sym) : bool :=
  has_match_from r None t.

(** ** Documents written as Rocq strings *)

Definition of_string (s : string) : list N :=
  map N_of_ascii (list_ascii_of_string s).

(** The lines of a document joined by LF (no LF after the last one). *)
Fixpoint of_lines (ls : list string) : list N :=
  match ls with
  | [] => []
  | [l] => of_string l
  | l :: ls' => of_string l ++ LF :: of_lines ls'
  end.

Definition chars (t : list N) : list sym := map Ch t.

Definition str (s : string) : list sym := chars (of_string s).

Definition nl : list sym := [Ch LF].

(** ** The rule's options *)

Record HeadingBlankLinesOptions : Type := Options {
  bottom : bool;
  emptyLineAfterYaml : bool;
  emptyLineInBlankSections : bool
}.

Definition defaultOptions : HeadingBlankLinesOptions :=
  Options true true true.

(** ** [yamlRegex] *)

Definition any_sym : sym -> bool := fun _ => true.

Definition lit3 (p : sym -> bool) : regex :=
  Seq (Class p) (Seq (Class p) (Class p)).

(** Modelled from the spec: the constant [yamlRegex] of [utils/regex.ts],
    which is not among the sources.  The spec has it recognise "a block
    delimited by a --- line at document start and the next bare --- line",
    and [apply] refers to the heading after it as [$5] once it is wrapped in
    a group, so it has three capturing groups:
    [^ --- \n ( (?: ( ( (?!---) (?: . | \n )*? ) \n ) )? ) --- (?= \n | $ )]. *)
Definition yamlRegex : regex :=
  Seq (Bol false)
    (Seq (lit3 is_dash)
      (Seq (Class is_lf)
        (Seq (Group 1
                (Opt (Group 2
                        (Seq (Group 3
                                (Seq (Look false (lit3 is_dash))
                                   (Star false
                                      (Alt (Class is_dot) (Class is_lf)))))
                           (Class is_lf)))))
           (Seq (lit3 is_dash)
              (Look true (Alt (Class is_lf) (Eol false))))))).

(** Splicing [r.source] into a larger pattern after [n] opening groups
    renumbers its groups. *)
Fixpoint shift_groups (n : nat) (r : regex) : regex :=
  match r with
  | Seq r1 r2 => Seq (shift_groups n r1) (shift_groups n r2)
  | Alt r1 r2 => Alt (shift_groups n r1) (shift_groups n r2)
  | Star g r1 => Star g (shift_groups n r1)
  | Group i r1 => Group (n + i) (shift_groups n r1)
  | Look b r1 => Look b (shift_groups n r1)
  | _ => r
  end.

(** ** The regular expressions of [apply] *)

(** The heading pattern [#+ \s .*], shared by all the expressions below
    (patterns are written with their tokens spaced out). *)
Definition heading : regex :=
  Seq (Plus (Class is_hash)) (Seq (Class is_space) (Star true (Class is_dot))).

(** Line 30 and 35: [( ^ #+ \s .* ) \n+], flags [gm]. *)
Definition re_after : regex :=
  Seq (Group 1 (Seq (Bol true) heading)) (Plus (Class is_lf)).

(** Line 31 and 34: [\n+ ( #+ \s .* )], flag [g]. *)
Definition re_before : regex :=
  Seq (Plus (Class is_lf)) (Group 1 heading).

(** Line 33: [^ ( #+ \s .* )], flags [gm]. *)
Definition re_around : regex :=
  Seq (Bol true) (Group 1 heading).

(** Line 38 and 39: [( #+ \s .* ) \n \n+ ( #+ \s .* )], flags [gm]. *)
Definition re_blank_section : regex :=
  Seq (Group 1 heading)
    (Seq (Class is_lf) (Seq (Plus (Class is_lf)) (Group 2 heading))).

(** Line 42: [^ \n+ ( #+ \s .* )], no flag. *)
Definition re_first : regex :=
  Seq (Bol false) (Seq (Plus (Class is_lf)) (Group 1 heading)).

(** Line 43: [( #+ \s .* ) \n+ $], no flag. *)
Definition re_last : regex :=
  Seq (Group 1 heading) (Seq (Plus (Class is_lf)) (Eol false)).

(** Line 46: [( yamlRegex.source ) \n+ ( #+ \s .* )], built with
    [new RegExp], no flag. *)
Definition re_yaml_heading : regex :=
  Seq (Group 1 (shift_groups 1 yamlRegex))
    (Seq (Plus (Class is_lf)) (Group 5 heading)).

(** ** The callback of [apply] *)

(** The [while (text.match(re)) text = text.replace(re, '$1\n$2')] loop;
    [None] when the fuel runs out before the loop exits. *)
Fixpoint collapse_blank_sections (fuel : nat) (text : list sym)
  : option (list sym) :=
  match fuel with
  | O => None
  | S fuel' =>
      if has_match re_blank_section text
      then collapse_blank_sections fuel'
             (replace_all re_blank_section [Ref 1; Lit nl; Ref 2] text)
      else Some text
  end.

Definition spacing_pass (options : HeadingBlankLinesOptions)
  (text : list sym) : list sym :=
  if negb (bottom options) then
    let text := replace_all re_after [Ref 1; Lit nl] text in
    replace_all re_before [Lit (nl ++ nl); Ref 1] text
  else
    let text := replace_all re_around [Lit (nl ++ nl); Ref 1; Lit (nl ++ nl)] text in
    let text := replace_all re_before [Lit (nl ++ nl); Ref 1] text in
    replace_all re_after [Ref 1; Lit (nl ++ nl)] text.

Definition blank_section_pass (options : HeadingBlankLinesOptions)
  (text : list sym) : option (list sym) :=
  if negb (emptyLineInBlankSections options)
  then collapse_blank_sections (S (length text)) text
  else Some text.

Definition edge_pass (text : list sym) : list sym :=
  let text := replace re_first [Ref 1] text in
  replace re_last [Ref 1] text.

Definition yaml_pass (options : HeadingBlankLinesOptions)
  (text : list sym) : list sym :=
  if negb (emptyLineAfterYaml options)
  then replace re_yaml_heading [Ref 1; Lit nl; Ref 5] text
  else text.

(** The function [(text) => {...}] passed to [ignoreListOfTypes]. *)
Definition rewrite (options : HeadingBlankLinesOptions) (text : list sym)
  : option (list sym) :=
  match blank_section_pass options (spacing_pass options text) with
  | Some text => Some (yaml_pass options (edge_pass text))
  | None => None
  end.

(** ** Masking of protected regions ([ignoreListOfTypes]) *)

(** Modelled from the spec: what a symbol of the masked text stands for. *)
Definition unmask_sym (s : sym) : list N :=
  match s with
  | Ch c => [c]
  | Tok _ orig => orig
  end.

(** Modelled from the spec: restoration, where every placeholder gives way
    to the bytes it stands for. *)
Definition unmask (t : list sym) : list N := flat_map unmask_sym t.

Definition lit (s : string) : regex :=
  fold_right (fun c r => Seq (Class (is_code c)) r) Empty (of_string s).

Definition none_of (cs : string) : sym -> bool :=
  fun s => negb (existsb (fun c => is_code c s) (of_string cs)).

Definition in_line_but (cs : string) : sym -> bool :=
  fun s => is_dot s && none_of cs s.

(** Modelled from the spec: the recognition patterns of the region types
    ([utils/ignore-types.ts] is not among the sources).  The spec gives them
    at design level: code is a fenced block (three backticks or tildes at a
    line start, up to the closing fence or the end of the document) or an
    inline span between single backticks; a Markdown link is
    [[text](target)]; a wiki-link is [[[target]]]; a tag is a [#] followed at
    once by a word-like token; YAML frontmatter is [yamlRegex]. *)
Definition region_pattern (ty : IgnoreTypes) : regex :=
  match ty with
  | code =>
      let fence (f : string) :=
        Seq (Bol true)
          (Seq (lit f)
             (Seq (Star false (Class any_sym))
                (Alt (Seq (Class is_lf) (lit f)) (Eol false)))) in
      Alt (fence "```"%string)
        (Alt (fence "~~~"%string)
           (Seq (lit "`") (Seq (Plus (Class (in_line_but "`"))) (lit "`"))))
  | yaml => yamlRegex
  | link =>
      Seq (lit "[")
        (Seq (Star true (Class (in_line_but "]")))
           (Seq (lit "](")
              (Seq (Star true (Class (in_line_but ")"))) (lit ")"))))
  | wikiLink =>
      Seq (lit "[[")
        (Seq (Star true (Class (in_line_but "]"))) (lit "]]"))
  | tag =>
      Seq (lit "#")
        (Plus (Class (fun s => negb (is_space s) && negb (is_hash s))))
  end.

(** Modelled from the spec: the placeholder written over a protected span.
    It is one opaque symbol, which no heading or blank-line pattern matches,
    and which remembers the bytes it replaces.  Frontmatter has a placeholder
    strategy of its own: its two delimiter lines stay, so that the callback
    still sees where the frontmatter ends, and its body becomes the
    placeholder. *)
Definition placeholder (ty : IgnoreTypes) (seg : list sym)
  (cs : list (nat * list sym)) : list sym :=
  match ty with
  | yaml =>
      match get_cap 1 cs with
      | [] => seg
      | body =>
          str "---" ++ nl ++ [Tok yaml (unmask (removelast body))] ++ nl
            ++ str "---"
      end
  | _ => [Tok ty (unmask seg)]
  end.

(** Modelled from the spec: every region of one type, from left to right,
    gives way to its placeholder. *)
Definition mask (ty : IgnoreTypes) (t : list sym) : list sym :=
  replace_all_from (region_pattern ty) (placeholder ty) 0 None t.

(** Modelled from the spec: the types are masked one after the other. *)
Definition mask_all (types : list IgnoreTypes) (t : list sym) : list sym :=
  fold_left (fun t ty => mask ty t) types t.

(** Modelled from the spec: [ignoreListOfTypes(types, text, func)] masks the
    regions of each type in the order given, runs [func] on the masked
    text, and restores the regions in what [func] returns. *)
Definition ignoreListOfTypes (types : list IgnoreTypes) (text : list N)
  (func : list sym -> option (list sym)) : option (list N) :=
  option_map unmask (func (mask_all types (chars text))).

(** ** [apply] *)

Definition ignored : list IgnoreTypes := [code; yaml; link; wikiLink; tag].

Definition apply (text : list N) (options : HeadingBlankLinesOptions)
  : option (list N) :=
  ignoreListOfTypes ignored text (rewrite options).

(** ** The examples published by the rule ([exampleBuilders]) *)

Section Examples.
Local Open Scope string_scope.

Record Example : Type := MkExample {
  description : string;
  before : list N;
  after : list N;
  options : HeadingBlankLinesOptions
}.

(** The texts are the values of the [dedent] templates: the indentation and
    the line break that closes the template are gone, and an interpolated
    empty string leaves an empty line. *)
Definition exampleBuilders : list Example :=
  [ MkExample "Headings should be surrounded by blank lines"
      (of_lines ["# H1"; "## H2"; ""; ""; "# H1"; "line"; "## H2"; ""])
      (of_lines ["# H1"; ""; "## H2"; ""; "# H1"; ""; "line"; ""; "## H2"])
      defaultOptions;
    MkExample "With `Bottom=false`"
      (of_lines ["# H1"; "line"; "## H2"; "# H1"; "line"])
      (of_lines ["# H1"; "line"; ""; "## H2"; ""; "# H1"; "line"])
      (Options false true true);
    MkExample "With `Bottom=true`, `emptyLineInBlankSections=false`"
      (of_lines ["# H1"; "line"; "## H2"; "# H1"; "line"])
      (of_lines ["# H1"; ""; "line"; ""; "## H2"; "# H1"; ""; "line"])
      (Options true true false);
    MkExample "With `Bottom=false`, `emptyLineInBlankSections=false`"
      (of_lines ["# H1"; "line"; "## H2"; "# H1"; "line"])
      (of_lines ["# H1"; "line"; ""; "## H2"; "# H1"; "line"])
      (Options false true false);
    MkExample
      "With `Bottom=false`, `emptyLineInBlankSections=false`, multiple empty sections"
      (of_lines ["# H1"; "line"; "## H2"; "## H2"; "# H1"; "line"])
      (of_lines ["# H1"; "line"; ""; "## H2"; "## H2"; "# H1"; "line"])
      (Options false true false);
    MkExample
      "Empty line before header and after Yaml is removed with `Empty Line Between Yaml and Header=true`"
      (of_lines ["---"; "key: value"; "---"; "# Header"; "Paragraph here..."])
      (of_lines ["---"; "key: value"; "---"; "# Header"; ""; "Paragraph here..."])
      (Options true false true) ].

End Examples.

Definition example_holds (e : Example) : Prop :=
  apply (before e) (options e) = Some (after e).

(** * Notions used in the statements and in the proofs *)

(** The iteration of [r*], as a function of its own. *)
Definition star_loop (body : (mstate -> option mstate) -> mstate -> option mstate)
  (g : bool) (k : mstate -> option mstate) : nat -> mstate -> option mstate :=
  fix loop (n : nat) (s : mstate) {struct n} : option mstate :=
    match n with
    | O => k s
    | S n' =>
        let again (_ : unit) :=
          body (fun s' =>
                  if length (rest s') <? length (rest s)
                  then loop n' s' else None) s in
        if g then orelse (again tt) (fun _ => k s)
        else orelse (k s) again
    end.

(** The symbol before the position reached after reading [seg]. *)
Definition prev_after (p : option sym) (seg : list sym) : option sym :=
  match rev seg with
  | [] => p
  | c :: _ => Some c
  end.

(** [s'] is reached from [s] by reading [seg]. *)
Definition reads (s : mstate) (seg : list sym) (s' : mstate) : Prop :=
  rest s = seg ++ rest s' /\ prev s' = prev_after (prev s) seg.

(** ** Greedy iteration of a character class *)

(** The longest prefix of [t] in the class [p], and what follows it. *)
Fixpoint span (p : sym -> bool) (t : list sym) : list sym * list sym :=
  match t with
  | c :: tl =>
      if p c then let (a, b) := span p tl in (c :: a, b) else ([], t)
  | [] => ([], [])
  end.

(** [t] does not start with a symbol of the class [p]. *)
Definition stops (p : sym -> bool) (t : list sym) : Prop :=
  match t with
  | [] => True
  | c :: _ => p c = false
  end.

Definition all (p : sym -> bool) (t : list sym) : Prop :=
  Forall (fun c => p c = true) t.

(** [k] tried after every prefix of [xs], the longest first. *)
Fixpoint backtrack (k : mstate -> option mstate) (pv : option sym)
  (xs ys : list sym) (cs : list (nat * list sym)) : option mstate :=
  match xs with
  | [] => k (MState pv ys cs)
  | c :: xs' =>
      orelse (backtrack k (Some c) xs' ys cs)
        (fun _ => k (MState pv (c :: xs' ++ ys) cs))
  end.

(** A continuation for which, after a run of [p], only the longest prefix
    matters. *)
Definition longest_only (k : mstate -> option mstate) (p : sym -> bool)
  (cs : list (nat * list sym)) : Prop :=
  forall pv xs ys, all p xs ->
    backtrack k pv xs ys cs = k (MState (prev_after pv xs) ys cs).

(** ** What the heading pattern matches *)

(** A heading at the start of [t] and what follows it: the longest run of
    hashes, one white-space symbol, then the longest run of [.]. *)
Definition heading_split (t : list sym) : option (list sym * list sym) :=
  match span is_hash t with
  | ((_ :: _) as hs, w :: r) =>
      if is_space w
      then let (ds, ys) := span is_dot r in Some (hs ++ w :: ds, ys)
      else None
  | _ => None
  end.

(** A non-empty run of LF at the start of [t] and what follows it. *)
Definition lf_run (t : list sym) : option (list sym * list sym) :=
  match span is_lf t with
  | ((_ :: _) as l, r) => Some (l, r)
  | _ => None
  end.

(** ** The scans performed by [replace] *)

(** Every match of [r] reads at least one symbol. *)
Definition nonempty_matches (r : regex) : Prop :=
  forall p t s, match_at r p t = Some s -> length (rest s) < length t.

(** A global replacement, step by step: a symbol where nothing matches is
    copied; a match gives way to its replacement. *)
Inductive Scan (r : regex) (out : list sym -> list (nat * list sym) -> list sym)
  : option sym -> list sym -> list sym -> Prop :=
| scan_end p : Scan r out p [] []
| scan_copy p c tl res :
    match_at r p (c :: tl) = None ->
    Scan r out (Some c) tl res ->
    Scan r out p (c :: tl) (c :: res)
| scan_match p seg s res :
    match_at r p (seg ++ rest s) = Some s ->
    seg <> [] ->
    prev s = prev_after p seg ->
    Scan r out (prev s) (rest s) res ->
    Scan r out p (seg ++ rest s) (out seg (caps s) ++ res).

(** ** Lines *)

Section Lines.

Variable A : Type.
(** The line terminators. *)
Variable term : A -> bool.

(** The lines of a text: the runs between line terminators. *)
Fixpoint lines_from (cur : list A) (t : list A) : list (list A) :=
  match t with
  | [] => [cur]
  | c :: tl =>
      if term c then cur :: lines_from [] tl else lines_from (cur ++ [c]) tl
  end.

Definition lines (t : list A) : list (list A) := lines_from [] t.

Definition nonempty (l : list A) : bool :=
  match l with [] => false | _ :: _ => true end.

(** The lines that are not empty, in order. *)
Definition nonempty_lines (t : list A) : list (list A) :=
  filter nonempty (lines t).

(** The text ends a line: it is empty or ends with a line terminator. *)
Definition ends_line (t : list A) : bool :=
  match rev t with [] => true | c :: _ => term c end.

(** The text starts a line: it is empty or starts with a line terminator. *)
Definition starts_line (t : list A) : bool :=
  match t with [] => true | c :: _ => term c end.

End Lines.

(** The non-empty lines of a masked text. *)
Definition text_lines (t : list sym) : list (list sym) :=
  nonempty_lines is_line_terminator t.

(** ** Headings and runs of LF, as the patterns read them *)

(** A heading as the pattern reads it: hashes, one white-space symbol, and
    symbols other than line terminators. *)
Definition is_heading (h : list sym) : Prop :=
  exists hs w ds,
    h = hs ++ w :: ds /\ hs <> [] /\ all is_hash hs /\ is_space w = true
    /\ all is_dot ds.

Definition is_lf_run (l : list sym) : Prop := l <> [] /\ all is_lf l.

(** The last symbol of a text, if any. *)
Definition last_sym (t : list sym) : option sym := prev_after None t.

(** ** The rewrites only add and remove empty lines *)

(** If the scan believes it is at the start of a line, the text written so
    far ends a line. *)
Definition bol_ok (p : option sym) (pre : list sym) : Prop :=
  at_bol true p = true -> ends_line is_line_terminator pre = true.

(** ** The frontmatter pass *)

Definition dashes : list sym := [Ch DASH; Ch DASH; Ch DASH].

(** A frontmatter block as [yamlRegex] reads it: a line of three dashes,
    a body, and three dashes again. *)
Definition is_frontmatter (y : list sym) : Prop :=
  exists body, y = dashes ++ Ch LF :: body ++ dashes.

(** ** Expressions that cannot match the empty text *)

(** A syntactic check: every way through [r] reads a symbol. *)
Fixpoint consumes (r : regex) : bool :=
  match r with
  | Class _ => true
  | Seq r1 r2 => consumes r1 || consumes r2
  | Alt r1 r2 => consumes r1 && consumes r2
  | Group _ r1 => consumes r1
  | _ => false
  end.

(** ** Lines of the restored text *)

(** The non-empty lines of a document. *)
Definition doc_lines (t : list N) : list (list N) :=
  nonempty_lines line_terminator_code t.

(** ** Heading lines of a document *)

Fixpoint skip_hashes (l : list N) : nat * list N :=
  match l with
  | c :: tl =>
      if (c =? HASH)%N then let (n, r) := skip_hashes tl in (S n, r)
      else (O, l)
  | [] => (O, [])
  end.

(** A heading line: one or more [#], then white space, then text. *)
Definition heading_line (l : list N) : bool :=
  match skip_hashes l with
  | (S _, w :: r) =>
      white_space_code w && existsb (fun c => negb (white_space_code c)) r
  | _ => false
  end.

(** The number of heading lines of a document. *)
Definition heading_count (t : list N) : nat :=
  length (filter heading_line (lines line_terminator_code t)).

(** ** Symbols and lines *)


(** ** Text that no expression of [apply] matches *)

(** No heading starts [t], nor follows the run of LF that starts [t]. *)
Definition quiet (t : list sym) : Prop :=
  heading_split t = None
  /\ match lf_run t with
     | Some (_, r) => heading_split r = None
     | None => True
     end.



Unset Implicit Arguments.

(** ** Blank lines at the two ends of the text *)

(** The text starts with empty lines followed by a heading. *)
Definition starts_blank_heading (t : list sym) : Prop :=
  exists l h rest, t = l ++ h ++ rest /\ is_lf_run l /\ is_heading h.

(** The text ends with a heading followed by empty lines only. *)
Definition ends_heading_blank (t : list sym) : Prop :=
  exists pre h l, t = pre ++ h ++ l /\ is_heading h /\ is_lf_run l.

(** ** Blank sections *)

(** Somewhere in the text two headings are separated by empty lines only. *)
Definition blank_between_headings (t : list sym) : Prop :=
  exists pre h1 l h2 rest,
    t = pre ++ h1 ++ l ++ h2 ++ rest
    /\ is_heading h1 /\ is_lf_run l /\ 2 <= length l /\ is_heading h2.

(** ** Lines and separators *)

(** A line: symbols other than line terminators, at least one. *)
Definition is_line (l : list sym) : Prop := l <> [] /\ all is_dot l.

(** A separator: line terminators only. *)
Definition is_sep (s : list sym) : Prop := all is_line_terminator s.

(** Lines, each followed by its separator. *)
Fixpoint render (b : list (list sym * list sym)) : list sym :=
  match b with
  | [] => []
  | (l, s) :: b' => l ++ s ++ render b'
  end.

(** Only the last separator may be empty. *)
Inductive wf_body : list (list sym * list sym) -> Prop :=
| wf_nil : wf_body []
| wf_cons l s b :
    is_line l -> is_sep s -> (s = [] -> b = []) -> wf_body b ->
    wf_body ((l, s) :: b).

(** ** Heading lines *)

(** The line starts with a heading (and then is one). *)
Definition hline (l : list sym) : bool :=
  match heading_split l with Some _ => true | None => false end.

(** The line is made of hashes only. *)
Definition hash_only (l : list sym) : bool := forallb is_hash l.

(** ** The passes, separator by separator *)

(** Whether the text after a separator starts with a heading line. *)
Definition next_heading (b : list (list sym * list sym)) : bool :=
  match b with
  | [] => false
  | (l, _) :: _ => hline l
  end.

(** A change of the separators: [f hp s hn] replaces the separator [s],
    where [hp] and [hn] tell whether the line before and the line after are
    heading lines. *)
Fixpoint resep (f : bool -> list sym -> bool -> list sym)
  (b : list (list sym * list sym)) : list (list sym * list sym) :=
  match b with
  | [] => []
  | (l, s) :: b' => (l, f (hline l) s (next_heading b')) :: resep f b'
  end.

Definition no_hash_line (b : list (list sym * list sym)) : Prop :=
  Forall (fun e => hash_only (fst e) = false) b.

(** The scan is at the start of a line when the separator is empty. *)
Definition at_line_start (p : option sym) (s : list sym)
  (b : list (list sym * list sym)) : Prop :=
  s = [] -> b = [] \/ at_bol true p = true.

(** *** Blank lines around every heading *)

Definition around_sep (hp : bool) (s : list sym) (hn : bool) : list sym :=
  (if hp then nl ++ nl else []) ++ s ++ (if hn then nl ++ nl else []).

(** *** Two newlines before every heading *)

(** A trailing run of LF becomes two LF. *)
Fixpoint trim_before (s : list sym) : list sym :=
  match s with
  | [] => []
  | c :: s' => if forallb is_lf (c :: s') then nl ++ nl else c :: trim_before s'
  end.

Definition before_sep (hp : bool) (s : list sym) (hn : bool) : list sym :=
  if hn then trim_before s else s.

(** *** Two newlines after every heading *)

(** A leading run of LF becomes two LF. *)
Definition trim_after (s : list sym) : list sym :=
  match span is_lf s with
  | ([], _) => s
  | (_ :: _, r) => (nl ++ nl) ++ r
  end.

Definition after_sep (hp : bool) (s : list sym) (hn : bool) : list sym :=
  if hp then trim_after s else s.

(** *** The three passes together *)

(** A change of separators that keeps them separators, and non-empty where
    they were. *)
Definition keeps_sep (f : bool -> list sym -> bool -> list sym) : Prop :=
  forall hp s hn, is_sep s -> is_sep (f hp s hn) /\ (f hp s hn = [] -> s = []).

(** What the three passes make of a separator. *)
Definition spaced (hp : bool) (s : list sym) (hn : bool) : list sym :=
  after_sep hp (before_sep hp (around_sep hp s hn) hn) hn.

(** *** The separators after the passes *)

(** The text ends with exactly two LF. *)
Definition ends_two (s : list sym) : Prop :=
  exists z, s = z ++ nl ++ nl /\ stops is_lf (rev z).

(** The text starts with exactly two LF. *)
Definition starts_two (s : list sym) : Prop :=
  exists y, s = Ch LF :: Ch LF :: y /\ stops is_lf y.

(** ** Heading lines of a text *)

(** [h] is a whole line of the text [pre ++ h ++ post]. *)
Definition whole_line (pre h post : list sym) : Prop :=
  is_line h
  /\ ends_line is_line_terminator pre = true
  /\ starts_line is_line_terminator post = true.


(** ** The ends of the document *)

(** The heading line is first, or exactly two LF come before it. *)
Definition blank_before (pre : list sym) : Prop :=
  pre = []
  \/ exists z c, pre = z ++ [c; Ch LF; Ch LF] /\ is_lf c = false.


(** No line of the text is made of hashes only. *)
Definition no_bare_hashes (t : list sym) : bool :=
  forallb (fun l => negb (hash_only l)) (text_lines t).

(** ** Blank lines of a document, as the glossary has them *)

(** A blank line: no character, or white space only. *)
Definition blank_line (l : list N) : bool := forallb white_space_code l.

Fixpoint drop_blank (ls : list (list N)) : list (list N) :=
  match ls with
  | l :: ls' => if blank_line l then drop_blank ls' else ls
  | [] => []
  end.

Definition heading_next (ls : list (list N)) : bool :=
  match ls with
  | l :: _ => heading_line l
  | [] => false
  end.

(** The lines start with one or more blank lines and then a heading line. *)
Definition leading_blank_heading (ls : list (list N)) : bool :=
  match ls with
  | l :: ls' => blank_line l && heading_next (drop_blank ls')
  | [] => false
  end.

(** The lines end with a heading line and then one or more blank lines. *)
Definition trailing_heading_blank (ls : list (list N)) : bool :=
  leading_blank_heading (rev ls).

(** Two heading lines with blank lines, and nothing else, between them. *)
Fixpoint blank_section (ls : list (list N)) : bool :=
  match ls with
  | l :: ls' => (heading_line l && leading_blank_heading ls') || blank_section ls'
  | [] => false
  end.



Definition doc_all_lines (t : list N) : list (list N) :=
  lines line_terminator_code t.

(** ** What the passes leave in place *)

(** The text without its LF symbols. *)
Definition strip_lf (t : list sym) : list sym :=
  filter (fun c => negb (is_lf c)) t.

(** The document without its LF characters. *)
Definition doc_strip_lf (t : list N) : list N :=
  filter (fun c => negb (c =? LF)%N) t.

(** The heading pattern matches somewhere in the text. *)
Fixpoint has_heading (t : list sym) : bool :=
  match t with
  | [] => false
  | c :: tl =>
      match heading_split (c :: tl) with
      | Some _ => true
      | None => has_heading tl
      end
  end.

(** ** The passes with [bottom] off, separator by separator *)

(** A leading run of LF becomes one LF. *)
Definition trim_after_one (s : list sym) : list sym :=
  match span is_lf s with
  | ([], _) => s
  | (_ :: _, r) => nl ++ r
  end.

Definition after_one_sep (hp : bool) (s : list sym) (hn : bool) : list sym :=
  if hp then trim_after_one s else s.

(** What the two passes make of a separator. *)
Definition trimmed (hp : bool) (s : list sym) (hn : bool) : list sym :=
  before_sep hp (after_one_sep hp s hn) hn.

(** ** The lines of a text and the separators next to them *)

(** [(h, s)] is a line of the body [b], which follows the separator [s0];
    [sp] is the separator before it, [hp] tells whether the line before it
    is a heading line ([hp0] for the first line), and [b2] is what follows
    it. *)
Fixpoint entry_at (hp0 : bool) (s0 : list sym)
  (b : list (list sym * list sym)) (hp : bool) (sp h s : list sym)
  (b2 : list (list sym * list sym)) : Prop :=
  match b with
  | [] => False
  | (l, s1) :: b' =>
      (hp = hp0 /\ sp = s0 /\ h = l /\ s = s1 /\ b2 = b')
      \/ entry_at (hline l) s1 b' hp sp h s b2
  end.

(** Before a heading line with [bottom] off: it is the first line, or the
    symbol before it is not LF, or exactly two LF come before it. *)
Definition before_trimmed (pre : list sym) : Prop :=
  blank_before pre \/ stops is_lf (rev pre).

(** After a heading line with [bottom] off: no LF, or one LF and then a
    symbol that is not LF, or two LF and then a heading line. *)
Definition after_trimmed (post : list sym) : Prop :=
  stops is_lf post
  \/ (exists d y, post = Ch LF :: d :: y /\ is_lf d = false)
  \/ (exists h y,
        post = Ch LF :: Ch LF :: h ++ y /\ is_line h /\ hline h = true
        /\ starts_line is_line_terminator y = true).

(** ** Separators that the passes leave as they are *)

(** Every separator but the last is left as it is by [f]. *)
Fixpoint inner_fixed (f : bool -> list sym -> bool -> list sym) (hp : bool)
  (s : list sym) (b : list (list sym * list sym)) : Prop :=
  match b with
  | [] => True
  | (l, s1) :: b1 => f hp s (hline l) = s /\ inner_fixed f (hline l) s1 b1
  end.

(** The last separator, and whether the line before it is a heading line. *)
Fixpoint last_sep (hp : bool) (s : list sym)
  (b : list (list sym * list sym)) : bool * list sym :=
  match b with
  | [] => (hp, s)
  | (l, s1) :: b1 => last_sep (hline l) s1 b1
  end.

(** [s' ++ render b'] is [s ++ render b] without the symbols [l0] at its
    end, which are symbols of the last separator. *)
Fixpoint chopped (l0 s : list sym) (b : list (list sym * list sym))
  (s' : list sym) (b' : list (list sym * list sym)) : Prop :=
  match b, b' with
  | [], [] => s = s' ++ l0
  | (l, s1) :: b1, (l', s1') :: b1' =>
      s' = s /\ l' = l /\ chopped l0 s1 b1 s1' b1'
  | _, _ => False
  end.

Set Implicit Arguments.

(** * Properties of the matcher and of the passes *)

Lemma exec_star (g : bool) (r : regex) k s :
  exec (Star g r) k s = star_loop (exec r) g k (length (rest s)) s.
Proof. reflexivity. Qed.

Lemma prev_after_nil p : prev_after p [] = p.
Proof. reflexivity. Qed.

Lemma prev_after_snoc p seg c : prev_after p (seg ++ [c]) = Some c.
Proof. unfold prev_after. rewrite rev_app_distr. reflexivity. Qed.

Lemma prev_after_cons p c seg : prev_after p (c :: seg) = prev_after (Some c) seg.
Proof.
  destruct seg as [|d seg'] using rev_ind; [reflexivity|].
  rewrite app_comm_cons, !prev_after_snoc. reflexivity.
Qed.

Lemma prev_after_app p a b :
  prev_after p (a ++ b) = prev_after (prev_after p a) b.
Proof.
  revert p. induction a as [|c a IH]; intros p; [reflexivity|].
  simpl. rewrite !prev_after_cons. apply IH.
Qed.

Lemma reads_nil s : reads s [] s.
Proof. split; reflexivity. Qed.

Lemma reads_trans s1 s2 s3 a b :
  reads s1 a s2 -> reads s2 b s3 -> reads s1 (a ++ b) s3.
Proof.
  intros [H1 H2] [H3 H4]. split.
  - rewrite H1, H3, app_assoc. reflexivity.
  - rewrite H4, H2, prev_after_app. reflexivity.
Qed.

Lemma reads_length s seg s' :
  reads s seg s' -> length (rest s) = length seg + length (rest s').
Proof. intros [H _]. rewrite H, length_app. reflexivity. Qed.

(** Whatever [r] does, a successful run hands to its continuation a state
    reached by reading some text. *)
Lemma exec_reads (r : regex) :
  forall k s sf, exec r k s = Some sf ->
  exists seg s', reads s seg s' /\ k s' = Some sf.
Proof.
  induction r as [p|ml|ml| |r1 IH1 r2 IH2|r1 IH1 r2 IH2|g r1 IH1|i r1 IH1|b r1 IH1];
    intros k s sf H; try rewrite exec_star in H; simpl in H.
  - destruct s as [pv t cs]; simpl in *.
    destruct t as [|c tl]; [discriminate|].
    destruct (p c); [|discriminate].
    exists [c], (MState (Some c) tl cs). split; [split; reflexivity|exact H].
  - destruct (at_bol ml (prev s)); [|discriminate].
    exists [], s. split; [apply reads_nil|exact H].
  - destruct (at_eol ml (rest s)); [|discriminate].
    exists [], s. split; [apply reads_nil|exact H].
  - exists [], s. split; [apply reads_nil|exact H].
  - apply IH1 in H. destruct H as (a & s1 & R1 & H).
    apply IH2 in H. destruct H as (b & s2 & R2 & H).
    exists (a ++ b), s2. split; [eapply reads_trans; eassumption|exact H].
  - unfold orelse in H. destruct (exec r1 k s) eqn:E.
    + inversion H; subst. apply IH1 in E. exact E.
    + apply IH2 in H. exact H.
  - remember (length (rest s)) as n eqn:En. clear En.
    revert s sf H. induction n as [|n IHn]; intros s sf H; simpl in H.
    + exists [], s. split; [apply reads_nil|exact H].
    + assert (Hagain : forall sf',
                 exec r1 (fun s' => if length (rest s') <? length (rest s)
                                    then star_loop (exec r1) g k n s' else None) s
                 = Some sf' ->
                 exists seg s', reads s seg s' /\ k s' = Some sf').
      { intros sf' E. apply IH1 in E. destruct E as (a & s1 & R1 & E).
        destruct (length (rest s1) <? length (rest s)); [|discriminate].
        apply IHn in E. destruct E as (b & s2 & R2 & E).
        exists (a ++ b), s2. split; [eapply reads_trans; eassumption|exact E]. }
      destruct g; unfold orelse in H.
      * destruct (exec r1 _ s) eqn:E.
        -- inversion H; subst. apply Hagain. reflexivity.
        -- exists [], s. split; [apply reads_nil|exact H].
      * destruct (k s) eqn:E.
        -- inversion H; subst. exists [], s. split; [apply reads_nil|exact E].
        -- apply Hagain. exact H.
  - apply IH1 in H. destruct H as (a & s1 & R1 & H).
    exists a, (set_cap i (firstn (length (rest s) - length (rest s1)) (rest s)) s1).
    split; [exact R1|exact H].
  - destruct (exec r1 Some s); destruct b; try discriminate;
      exists [], s; (split; [apply reads_nil|exact H]).
Qed.

Lemma orelse_inv (A : Type) (x : option A) y v :
  orelse x y = Some v -> x = Some v \/ (x = None /\ y tt = Some v).
Proof. destruct x; simpl; auto. Qed.

(** The equations of [exec], used as rewriting rules. *)
Lemma exec_Seq r1 r2 k s : exec (Seq r1 r2) k s = exec r1 (exec r2 k) s.
Proof. reflexivity. Qed.

Lemma exec_Class_cons p k pv c tl cs :
  exec (Class p) k (MState pv (c :: tl) cs)
  = if p c then k (MState (Some c) tl cs) else None.
Proof. reflexivity. Qed.

Lemma exec_Class_nil p k pv cs : exec (Class p) k (MState pv [] cs) = None.
Proof. reflexivity. Qed.

Lemma exec_Bol ml k s : exec (Bol ml) k s = if at_bol ml (prev s) then k s else None.
Proof. reflexivity. Qed.

Lemma exec_Eol ml k s : exec (Eol ml) k s = if at_eol ml (rest s) then k s else None.
Proof. reflexivity. Qed.

Lemma exec_Group i r k s :
  exec (Group i r) k s
  = exec r (fun s' => k (set_cap i (firstn (length (rest s) - length (rest s'))
                                      (rest s)) s')) s.
Proof. reflexivity. Qed.

Lemma exec_Plus r k s : exec (Plus r) k s = exec r (exec (Star true r) k) s.
Proof. reflexivity. Qed.

Lemma exec_Alt r1 r2 k s :
  exec (Alt r1 r2) k s = orelse (exec r1 k s) (fun _ => exec r2 k s).
Proof. reflexivity. Qed.

Lemma exec_Empty k s : exec Empty k s = k s.
Proof. reflexivity. Qed.

Lemma exec_Look b r k s :
  exec (Look b r) k s
  = match exec r Some s with
    | Some _ => if b then k s else None
    | None => if b then None else k s
    end.
Proof. reflexivity. Qed.

Arguments exec : simpl never.

Opaque exec.

(** ** Greedy iteration of a character class *)

Lemma span_spec p t :
  t = fst (span p t) ++ snd (span p t)
  /\ all p (fst (span p t)) /\ stops p (snd (span p t)).
Proof.
  induction t as [|c tl IH]; simpl.
  - repeat split. constructor.
  - destruct (p c) eqn:E.
    + destruct (span p tl) as [a b]; simpl in *.
      destruct IH as (H1 & H2 & H3). repeat split.
      * rewrite <- H1. reflexivity.
      * constructor; assumption.
      * assumption.
    + simpl. repeat split; [constructor|exact E].
Qed.

Lemma span_unique p xs ys :
  all p xs -> stops p ys -> span p (xs ++ ys) = (xs, ys).
Proof.
  intros Hx Hy. induction Hx as [|c xs Hc Hx IH]; simpl.
  - destruct ys as [|c tl]; [reflexivity|]. simpl in Hy |- *. rewrite Hy. reflexivity.
  - rewrite Hc, IH. reflexivity.
Qed.

Lemma star_loop_class p k xs : forall n pv ys cs,
  all p xs -> stops p ys -> length (xs ++ ys) <= n ->
  star_loop (exec (Class p)) true k n (MState pv (xs ++ ys) cs)
  = backtrack k pv xs ys cs.
Proof.
  induction xs as [|c xs IH]; intros n pv ys cs Hx Hy Hn.
  - simpl. destruct n as [|n]; [reflexivity|]. simpl.
    destruct ys as [|d tl].
    + rewrite exec_Class_nil. reflexivity.
    + rewrite exec_Class_cons. simpl in Hy. rewrite Hy. reflexivity.
  - inversion Hx as [|? ? Hc Hx']; subst.
    destruct n as [|n]; [simpl in Hn; lia|].
    simpl. rewrite exec_Class_cons, Hc. cbn [rest].
    assert (L : (length (xs ++ ys) <? S (length (xs ++ ys))) = true)
      by (apply Nat.ltb_lt; lia).
    rewrite L.
    rewrite IH; [reflexivity|assumption|assumption|simpl in Hn; lia].
Qed.

Lemma exec_star_class p k pv xs ys cs :
  all p xs -> stops p ys ->
  exec (Star true (Class p)) k (MState pv (xs ++ ys) cs)
  = backtrack k pv xs ys cs.
Proof.
  intros Hx Hy. rewrite exec_star. apply star_loop_class; auto.
Qed.

Lemma longest_only_reject k p cs :
  (forall pv c t, p c = true -> k (MState pv (c :: t) cs) = None) ->
  longest_only k p cs.
Proof.
  intros Hk pv xs. revert pv.
  induction xs as [|c xs IH]; intros pv ys Hx; [reflexivity|].
  inversion Hx as [|? ? Hc Hx']; subst. simpl.
  rewrite IH by assumption. rewrite prev_after_cons.
  rewrite (Hk pv c (xs ++ ys) Hc).
  destruct (k _); reflexivity.
Qed.

Lemma longest_only_total k p cs :
  (forall s, k s <> None) -> longest_only k p cs.
Proof.
  intros Hk pv xs. revert pv.
  induction xs as [|c xs IH]; intros pv ys Hx; [reflexivity|].
  inversion Hx as [|? ? Hc Hx']; subst. simpl.
  rewrite IH by assumption. rewrite prev_after_cons.
  destruct (k (MState (prev_after (Some c) xs) ys cs)) eqn:E; [reflexivity|].
  exfalso. exact (Hk _ E).
Qed.

Lemma exec_star_longest p k pv xs ys cs :
  all p xs -> stops p ys -> longest_only k p cs ->
  exec (Star true (Class p)) k (MState pv (xs ++ ys) cs)
  = k (MState (prev_after pv xs) ys cs).
Proof.
  intros Hx Hy Hk. rewrite exec_star_class by assumption. apply Hk. exact Hx.
Qed.

(** [p+] followed by a continuation for which only the longest run matters:
    the run must not be empty. *)
Lemma exec_plus_longest p k pv t cs :
  longest_only k p cs ->
  exec (Plus (Class p)) k (MState pv t cs)
  = match fst (span p t) with
    | [] => None
    | _ :: _ => k (MState (prev_after pv (fst (span p t))) (snd (span p t)) cs)
    end.
Proof.
  intros Hk. destruct (span_spec p t) as (Ht & Hx & Hy).
  rewrite exec_Plus.
  destruct t as [|c tl]; [reflexivity|].
  rewrite exec_Class_cons. simpl in Ht, Hx, Hy |- *.
  destruct (p c) eqn:Hc; [|reflexivity].
  destruct (span p tl) as [a b] eqn:E. simpl in *.
  inversion Hx as [|? ? _ Ha]; subst.
  injection Ht as Ht. rewrite Ht.
  rewrite exec_star_longest by assumption.
  rewrite prev_after_cons. reflexivity.
Qed.

(** ** What the heading pattern matches *)

Lemma hash_not_space c : is_hash c = true -> is_space c = false.
Proof.
  destruct c as [c|]; simpl; [|discriminate].
  intros H. apply N.eqb_eq in H. subst. reflexivity.
Qed.

Lemma lf_not_hash c : is_lf c = true -> is_hash c = false.
Proof.
  destruct c as [c|]; simpl; [|discriminate].
  intros H. apply N.eqb_eq in H. subst. reflexivity.
Qed.

Lemma lf_not_dot c : is_lf c = true -> is_dot c = false.
Proof.
  destruct c as [c|]; simpl; [|discriminate].
  intros H. apply N.eqb_eq in H. subst. reflexivity.
Qed.

Lemma dot_not_lf c : is_dot c = true -> is_lf c = false.
Proof.
  intros H. destruct (is_lf c) eqn:E; [|reflexivity].
  apply lf_not_dot in E. congruence.
Qed.

Lemma hash_not_lf c : is_hash c = true -> is_lf c = false.
Proof.
  intros H. destruct (is_lf c) eqn:E; [|reflexivity].
  apply lf_not_hash in E. congruence.
Qed.

Lemma hash_is_dot c : is_hash c = true -> is_dot c = true.
Proof.
  destruct c as [c|]; simpl; [|discriminate].
  intros H. apply N.eqb_eq in H. subst. reflexivity.
Qed.

Lemma is_lf_eq c : is_lf c = true -> c = Ch LF.
Proof.
  destruct c as [c|]; simpl; [|discriminate].
  intros H. apply N.eqb_eq in H. subst. reflexivity.
Qed.

Lemma exec_heading k pv t cs :
  longest_only k is_dot cs ->
  exec heading k (MState pv t cs)
  = match heading_split t with
    | Some (h, ys) => k (MState (prev_after pv h) ys cs)
    | None => None
    end.
Proof.
  intros Hk. unfold heading, heading_split. rewrite exec_Seq.
  rewrite exec_plus_longest.
  2:{ apply longest_only_reject. intros pv' c t' Hc.
      rewrite exec_Seq, exec_Class_cons, (hash_not_space _ Hc). reflexivity. }
  destruct (span is_hash t) as [[|h0 hs] r]; simpl fst; simpl snd; [reflexivity|].
  destruct r as [|w r].
  - rewrite exec_Seq, exec_Class_nil. reflexivity.
  - rewrite exec_Seq, exec_Class_cons. destruct (is_space w); [|reflexivity].
    destruct (span_spec is_dot r) as (Hr & Hx & Hy).
    destruct (span is_dot r) as [ds ys]. simpl in Hr, Hx, Hy.
    rewrite Hr at 1. rewrite exec_star_longest by assumption.
    rewrite prev_after_app. rewrite (prev_after_cons _ w ds). reflexivity.
Qed.

Lemma heading_split_app t h ys : heading_split t = Some (h, ys) -> t = h ++ ys.
Proof.
  unfold heading_split. intros H.
  destruct (span_spec is_hash t) as (Ht & _).
  destruct (span is_hash t) as [[|h0 hs] [|w r]]; try discriminate.
  destruct (is_space w); [|discriminate].
  destruct (span_spec is_dot r) as (Hr & _).
  destruct (span is_dot r) as [ds zs]. injection H as <- <-. simpl in *.
  rewrite Ht, Hr. simpl. rewrite <- app_assoc. reflexivity.
Qed.

Lemma exec_group_heading i k pv t cs :
  (forall h ys, heading_split t = Some (h, ys) ->
     longest_only (fun s' => k (set_cap i
        (firstn (length t - length (rest s')) t) s')) is_dot cs) ->
  exec (Group i heading) k (MState pv t cs)
  = match heading_split t with
    | Some (h, ys) => k (MState (prev_after pv h) ys ((i, h) :: cs))
    | None => None
    end.
Proof.
  intros Hk. rewrite exec_Group. cbn [rest].
  destruct (heading_split t) as [[h ys]|] eqn:E.
  - rewrite exec_heading by (eapply Hk; reflexivity). rewrite E.
    unfold set_cap. cbn [rest prev caps].
    apply heading_split_app in E. subst t.
    rewrite length_app.
    replace (length h + length ys - length ys) with (length h) by lia.
    rewrite firstn_app, firstn_all, Nat.sub_diag. simpl firstn.
    rewrite app_nil_r. reflexivity.
  - unfold heading. rewrite exec_Seq, exec_plus_longest.
    2:{ apply longest_only_reject. intros pv' c t' Hc.
        rewrite exec_Seq, exec_Class_cons, (hash_not_space _ Hc). reflexivity. }
    unfold heading_split in E.
    destruct (span is_hash t) as [[|h0 hs] r]; simpl fst; simpl snd; [reflexivity|].
    destruct r as [|w r].
    + rewrite exec_Seq, exec_Class_nil. reflexivity.
    + rewrite exec_Seq, exec_Class_cons. destruct (is_space w); [|reflexivity].
      destruct (span is_dot r). discriminate.
Qed.

(** ** What each expression of [apply] matches at a position *)

Lemma firstn_prefix (A : Type) (h ys : list A) :
  firstn (length (h ++ ys) - length ys) (h ++ ys) = h.
Proof.
  rewrite length_app.
  replace (length h + length ys - length ys) with (length h) by lia.
  rewrite firstn_app, firstn_all, Nat.sub_diag. simpl. apply app_nil_r.
Qed.

Lemma exec_lf_plus k pv t cs :
  longest_only k is_lf cs ->
  exec (Plus (Class is_lf)) k (MState pv t cs)
  = match lf_run t with
    | Some (l, r) => k (MState (prev_after pv l) r cs)
    | None => None
    end.
Proof.
  intros Hk. rewrite exec_plus_longest by assumption. unfold lf_run.
  destruct (span is_lf t) as [[|c l] r]; reflexivity.
Qed.

Lemma lf_run_app t l r : lf_run t = Some (l, r) -> t = l ++ r.
Proof.
  unfold lf_run. intros H. destruct (span_spec is_lf t) as (Ht & _).
  destruct (span is_lf t) as [[|c l'] r']; [discriminate|].
  injection H as <- <-. exact Ht.
Qed.

Lemma lf_plus_rejects_dot k pv c tl cs :
  is_dot c = true -> exec (Plus (Class is_lf)) k (MState pv (c :: tl) cs) = None.
Proof.
  intros H. rewrite exec_Plus, exec_Class_cons, (dot_not_lf _ H). reflexivity.
Qed.

Lemma heading_rejects_lf k pv c tl cs :
  is_lf c = true -> exec heading k (MState pv (c :: tl) cs) = None.
Proof.
  intros H. unfold heading.
  rewrite exec_Seq, exec_Plus, exec_Class_cons, (lf_not_hash _ H). reflexivity.
Qed.

Lemma match_re_around p t :
  match_at re_around p t
  = if at_bol true p
    then match heading_split t with
         | Some (h, ys) => Some (MState (prev_after p h) ys [(1, h)])
         | None => None
         end
    else None.
Proof.
  unfold match_at, re_around. rewrite exec_Seq, exec_Bol. cbn [prev].
  destruct (at_bol true p); [|reflexivity].
  apply exec_group_heading. intros h ys _.
  apply longest_only_total. discriminate.
Qed.

Lemma match_re_before p t :
  match_at re_before p t
  = match lf_run t with
    | Some (l, r) =>
        match heading_split r with
        | Some (h, ys) => Some (MState (prev_after (prev_after p l) h) ys [(1, h)])
        | None => None
        end
    | None => None
    end.
Proof.
  unfold match_at, re_before. rewrite exec_Seq, exec_lf_plus.
  - destruct (lf_run t) as [[l r]|]; [|reflexivity].
    apply exec_group_heading. intros h ys _.
    apply longest_only_total. discriminate.
  - apply longest_only_reject. intros pv c tl Hc.
    rewrite exec_Group. apply heading_rejects_lf. exact Hc.
Qed.

Lemma match_re_first p t :
  match_at re_first p t = if at_bol false p then match_at re_before p t else None.
Proof.
  unfold match_at, re_first, re_before. rewrite exec_Seq, exec_Bol. reflexivity.
Qed.

Lemma match_re_after p t :
  match_at re_after p t
  = if at_bol true p
    then match heading_split t with
         | Some (h, ys) =>
             match lf_run ys with
             | Some (l, r) =>
                 Some (MState (prev_after (prev_after p h) l) r [(1, h)])
             | None => None
             end
         | None => None
         end
    else None.
Proof.
  unfold match_at, re_after.
  rewrite exec_Seq, exec_Group, exec_Seq, exec_Bol. cbn [prev rest].
  destruct (at_bol true p); [|reflexivity].
  rewrite exec_heading.
  - destruct (heading_split t) as [[h ys]|] eqn:E; [|reflexivity].
    apply heading_split_app in E. subst t.
    unfold set_cap. cbn [prev rest caps]. rewrite firstn_prefix.
    rewrite exec_lf_plus by (apply longest_only_total; discriminate).
    destruct (lf_run ys) as [[l r]|]; reflexivity.
  - apply longest_only_reject. intros pv c tl Hc.
    unfold set_cap. cbn [prev rest caps].
    apply lf_plus_rejects_dot. exact Hc.
Qed.

Lemma match_re_last p t :
  match_at re_last p t
  = match heading_split t with
    | Some (h, ys) =>
        match lf_run ys with
        | Some (l, []) => Some (MState (prev_after (prev_after p h) l) [] [(1, h)])
        | _ => None
        end
    | None => None
    end.
Proof.
  unfold match_at, re_last. rewrite exec_Seq, exec_group_heading.
  - destruct (heading_split t) as [[h ys]|]; [|reflexivity].
    rewrite exec_Seq, exec_lf_plus.
    + destruct (lf_run ys) as [[l r]|]; [|reflexivity].
      rewrite exec_Eol. cbn [rest]. destruct r; reflexivity.
    + apply longest_only_reject. intros pv c tl _. rewrite exec_Eol. reflexivity.
  - intros h ys _. apply longest_only_reject. intros pv c tl Hc.
    unfold set_cap. cbn [prev rest caps].
    rewrite exec_Seq. apply lf_plus_rejects_dot. exact Hc.
Qed.

Lemma match_re_blank_section p t :
  match_at re_blank_section p t
  = match heading_split t with
    | Some (h1, c :: ys) =>
        if is_lf c then
          match lf_run ys with
          | Some (l, r) =>
              match heading_split r with
              | Some (h2, zs) =>
                  Some (MState
                          (prev_after (prev_after (Some c) l) h2) zs
                          [(2, h2); (1, h1)])
              | None => None
              end
          | None => None
          end
        else None
    | _ => None
    end.
Proof.
  unfold match_at, re_blank_section. rewrite exec_Seq, exec_group_heading.
  - destruct (heading_split t) as [[h ys]|]; [|reflexivity].
    rewrite exec_Seq. destruct ys as [|c ys]; [reflexivity|].
    rewrite exec_Class_cons. destruct (is_lf c); [|reflexivity].
    rewrite exec_Seq, exec_lf_plus.
    + destruct (lf_run ys) as [[l r]|]; [|reflexivity].
      apply exec_group_heading. intros h2 zs _.
      apply longest_only_total. discriminate.
    + apply longest_only_reject. intros pv d tl Hd.
      rewrite exec_Group. apply heading_rejects_lf. exact Hd.
  - intros h ys _. apply longest_only_reject. intros pv c tl Hc.
    unfold set_cap. cbn [prev rest caps].
    rewrite exec_Seq, exec_Class_cons, (dot_not_lf _ Hc). reflexivity.
Qed.

(** ** The scans performed by [replace] *)

Lemma match_at_reads r p t s :
  match_at r p t = Some s ->
  exists seg, t = seg ++ rest s /\ prev s = prev_after p seg.
Proof.
  intros H. apply exec_reads in H. destruct H as (seg & s' & [R1 R2] & E).
  inversion E; subst. exists seg. split; assumption.
Qed.

Lemma replace_all_from_skip r out seg : forall p t,
  replace_all_from r out (length seg) p (seg ++ t)
  = replace_all_from r out 0 (prev_after p seg) t.
Proof.
  induction seg as [|c seg IH]; intros p t.
  - reflexivity.
  - simpl length. simpl app. cbn [replace_all_from].
    rewrite IH, prev_after_cons. reflexivity.
Qed.

Lemma replace_all_from_scan r out :
  nonempty_matches r ->
  forall t p, Scan r out p t (replace_all_from r out 0 p t).
Proof.
  intros Hne t.
  assert (G : forall n t, length t < n ->
                forall p, Scan r out p t (replace_all_from r out 0 p t)).
  2:{ apply (G (S (length t))). lia. }
  clear t. induction n as [|n IHn]; intros t Hn; [lia|].
  assert (IH : forall t', length t' < length t ->
                 forall p, Scan r out p t' (replace_all_from r out 0 p t')).
  { intros t' H'. apply IHn. lia. }
  clear IHn Hn n.
  intros p. destruct (match_at r p t) as [s|] eqn:E.
  - pose proof (Hne _ _ _ E) as Hlen.
    destruct (match_at_reads _ _ _ E) as (seg & Ht & Hp).
    assert (Hseg : seg <> []).
    { intros ->. simpl in Ht. rewrite Ht in Hlen. lia. }
    destruct seg as [|c seg]; [congruence|].
    clear Hlen. subst t. simpl app in *.
    cbn [replace_all_from]. rewrite E.
    assert (L : length (c :: seg ++ rest s) - length (rest s) = S (length seg)).
    { cbn [length]. rewrite length_app. lia. }
    rewrite L.
    assert (F : firstn (S (length seg)) (c :: seg ++ rest s) = c :: seg).
    { change (c :: seg ++ rest s) with ((c :: seg) ++ rest s).
      change (S (length seg)) with (length (c :: seg)).
      rewrite firstn_app, firstn_all, Nat.sub_diag. simpl. rewrite app_nil_r.
      reflexivity. }
    rewrite F. rewrite replace_all_from_skip.
    change (c :: seg ++ rest s) with ((c :: seg) ++ rest s).
    pose proof Hp as Hp'. rewrite prev_after_cons in Hp'. rewrite <- Hp'.
    apply scan_match; try assumption.
    apply IH. cbn [length app]. rewrite length_app. lia.
  - destruct t as [|c tl].
    + cbn [replace_all_from]. rewrite E. constructor.
    + cbn [replace_all_from]. rewrite E. apply scan_copy; [exact E|].
      apply IH. simpl. lia.
Qed.

(** ** Lines *)

Section LineFacts.

Variable A : Type.
Variable term : A -> bool.

Lemma lines_from_split cur a c b :
  term c = true ->
  lines_from term cur (a ++ c :: b) = lines_from term cur a ++ lines term b.
Proof.
  intros Hc. revert cur. induction a as [|d a IH]; intros cur; simpl.
  - rewrite Hc. reflexivity.
  - destruct (term d); [rewrite IH; reflexivity|apply IH].
Qed.

Lemma nonempty_lines_split a c b :
  term c = true ->
  nonempty_lines term (a ++ c :: b) = nonempty_lines term a ++ nonempty_lines term b.
Proof.
  intros Hc. unfold nonempty_lines, lines.
  rewrite lines_from_split by assumption. apply filter_app.
Qed.

Lemma nonempty_lines_nil : nonempty_lines term [] = [].
Proof. reflexivity. Qed.

Lemma nonempty_lines_cons c b :
  term c = true -> nonempty_lines term (c :: b) = nonempty_lines term b.
Proof.
  intros Hc. apply (nonempty_lines_split [] b) in Hc. exact Hc.
Qed.

Lemma nonempty_lines_snoc a c :
  term c = true -> nonempty_lines term (a ++ [c]) = nonempty_lines term a.
Proof.
  intros Hc. rewrite nonempty_lines_split by assumption.
  rewrite nonempty_lines_nil. apply app_nil_r.
Qed.

(** A run of line terminators separates what is before from what is after,
    whatever its length. *)
Lemma nonempty_lines_break a l b :
  l <> [] -> Forall (fun c => term c = true) l ->
  nonempty_lines term (a ++ l ++ b) = nonempty_lines term a ++ nonempty_lines term b.
Proof.
  intros Hl Hall. destruct l as [|c l]; [congruence|].
  inversion Hall as [|? ? Hc Hl']; subst. simpl.
  rewrite nonempty_lines_split by assumption. f_equal.
  clear Hl Hall Hc. induction Hl' as [|d l Hd _ IH]; [reflexivity|].
  simpl. rewrite nonempty_lines_cons by assumption. exact IH.
Qed.

Lemma nonempty_lines_after a b :
  ends_line term a = true ->
  nonempty_lines term (a ++ b) = nonempty_lines term a ++ nonempty_lines term b.
Proof.
  unfold ends_line. intros H.
  destruct a as [|c a] using rev_ind; [reflexivity|].
  rewrite rev_app_distr in H. simpl in H.
  rewrite <- app_assoc. simpl.
  rewrite nonempty_lines_split, nonempty_lines_snoc by assumption. reflexivity.
Qed.

Lemma nonempty_lines_before a b :
  starts_line term b = true ->
  nonempty_lines term (a ++ b) = nonempty_lines term a ++ nonempty_lines term b.
Proof.
  unfold starts_line. intros H. destruct b as [|c b].
  - rewrite app_nil_r, nonempty_lines_nil, app_nil_r. reflexivity.
  - rewrite nonempty_lines_split, nonempty_lines_cons by assumption. reflexivity.
Qed.

End LineFacts.

Lemma lf_terminates c : is_lf c = true -> is_line_terminator c = true.
Proof. intros H. apply is_lf_eq in H. subst. reflexivity. Qed.

Lemma all_lf_terminate l :
  all is_lf l -> Forall (fun c => is_line_terminator c = true) l.
Proof. intros H. eapply Forall_impl; [|exact H]. exact lf_terminates. Qed.

Lemma text_lines_break a l b :
  l <> [] -> all is_lf l -> text_lines (a ++ l ++ b) = text_lines a ++ text_lines b.
Proof.
  intros Hl Hall. apply nonempty_lines_break; [exact Hl|].
  apply all_lf_terminate. exact Hall.
Qed.

(** ** Headings and runs of LF, as the patterns read them *)

Lemma heading_split_spec t h ys :
  heading_split t = Some (h, ys) ->
  t = h ++ ys /\ is_heading h /\ stops is_dot ys.
Proof.
  intros H. split; [apply heading_split_app; exact H|].
  unfold heading_split in H.
  destruct (span_spec is_hash t) as (_ & Hh & _).
  destruct (span is_hash t) as [[|h0 hs] [|w r]]; try discriminate.
  destruct (is_space w) eqn:Hw; [|discriminate].
  destruct (span_spec is_dot r) as (_ & Hd & Hs).
  destruct (span is_dot r) as [ds zs]. injection H as <- <-. simpl in *.
  split; [|exact Hs].
  exists (h0 :: hs), w, ds. repeat split; try assumption. discriminate.
Qed.

Lemma heading_split_complete h ys :
  is_heading h -> stops is_dot ys -> heading_split (h ++ ys) = Some (h, ys).
Proof.
  intros (hs & w & ds & -> & Hne & Hh & Hw & Hd) Hs.
  unfold heading_split. rewrite <- app_assoc.
  rewrite span_unique; [|exact Hh|].
  2:{ simpl. destruct (is_hash w) eqn:E; [|reflexivity].
      apply hash_not_space in E. congruence. }
  destruct hs as [|h0 hs]; [congruence|]. simpl. rewrite Hw.
  rewrite span_unique by assumption. reflexivity.
Qed.

Lemma lf_run_spec t l r :
  lf_run t = Some (l, r) -> t = l ++ r /\ is_lf_run l /\ stops is_lf r.
Proof.
  intros H. split; [apply lf_run_app; exact H|].
  unfold lf_run in H. destruct (span_spec is_lf t) as (_ & Hl & Hs).
  destruct (span is_lf t) as [[|c l'] r']; [discriminate|].
  injection H as <- <-. simpl in *. repeat split; try assumption. discriminate.
Qed.

Lemma lf_run_complete l r :
  is_lf_run l -> stops is_lf r -> lf_run (l ++ r) = Some (l, r).
Proof.
  intros [Hne Hl] Hs. unfold lf_run. rewrite span_unique by assumption.
  destruct l; [congruence|reflexivity].
Qed.

Lemma heading_nonempty h : is_heading h -> h <> [].
Proof.
  intros (hs & w & ds & -> & _). destruct hs; discriminate.
Qed.

Lemma stops_dot_starts_line ys :
  stops is_dot ys -> starts_line is_line_terminator ys = true.
Proof.
  destruct ys as [|c ys]; [reflexivity|]. simpl. unfold is_dot.
  intros H. apply negb_false_iff in H. exact H.
Qed.

Lemma ends_line_last t :
  ends_line is_line_terminator t = at_bol true (last_sym t).
Proof.
  unfold ends_line, last_sym, prev_after. destruct (rev t); reflexivity.
Qed.

Lemma prev_after_nonempty p q t : t <> [] -> prev_after p t = prev_after q t.
Proof.
  destruct t as [|c t] using rev_ind; [congruence|].
  intros _. rewrite !prev_after_snoc. reflexivity.
Qed.

Lemma last_sym_app a b : b <> [] -> last_sym (a ++ b) = last_sym b.
Proof.
  intros H. unfold last_sym. rewrite prev_after_app.
  apply prev_after_nonempty. exact H.
Qed.

Lemma prev_after_last p t : t <> [] -> prev_after p t = last_sym t.
Proof. intros H. apply prev_after_nonempty. exact H. Qed.

(** ** The shape of the matches *)

Ltac shape_done :=
  repeat split;
  first [ assumption | reflexivity
        | match goal with H : is_lf_run _ |- _ => apply H end ].

Lemma shape_re_around p t s :
  match_at re_around p t = Some s ->
  exists h,
    t = h ++ rest s /\ at_bol true p = true /\ is_heading h
    /\ stops is_dot (rest s) /\ caps s = [(1, h)].
Proof.
  rewrite match_re_around. destruct (at_bol true p); [|discriminate].
  destruct (heading_split t) as [[h ys]|] eqn:E; [|discriminate].
  intros H. injection H as <-. cbn [rest caps].
  apply heading_split_spec in E. destruct E as (Ht & Hh & Hs).
  exists h. shape_done.
Qed.

Lemma shape_re_before p t s :
  match_at re_before p t = Some s ->
  exists l h,
    t = l ++ h ++ rest s /\ is_lf_run l /\ is_heading h
    /\ stops is_dot (rest s) /\ caps s = [(1, h)].
Proof.
  rewrite match_re_before.
  destruct (lf_run t) as [[l r]|] eqn:El; [|discriminate].
  destruct (heading_split r) as [[h ys]|] eqn:E; [|discriminate].
  intros H. injection H as <-. cbn [rest caps].
  apply lf_run_spec in El. destruct El as (Ht & Hl & _).
  apply heading_split_spec in E. destruct E as (Hr & Hh & Hs).
  exists l, h. subst. shape_done.
Qed.

Lemma shape_re_first p t s :
  match_at re_first p t = Some s ->
  p = None /\ match_at re_before p t = Some s.
Proof.
  rewrite match_re_first. destruct p; simpl; [discriminate|]. auto.
Qed.

Lemma shape_re_after p t s :
  match_at re_after p t = Some s ->
  exists h l,
    t = h ++ l ++ rest s /\ at_bol true p = true /\ is_heading h
    /\ is_lf_run l /\ stops is_lf (rest s) /\ caps s = [(1, h)].
Proof.
  rewrite match_re_after. destruct (at_bol true p); [|discriminate].
  destruct (heading_split t) as [[h ys]|] eqn:E; [|discriminate].
  destruct (lf_run ys) as [[l r]|] eqn:El; [|discriminate].
  intros H. injection H as <-. cbn [rest caps].
  apply heading_split_spec in E. destruct E as (Ht & Hh & _).
  apply lf_run_spec in El. destruct El as (Hr & Hl & Hs).
  exists h, l. subst. shape_done.
Qed.

Lemma shape_re_last p t s :
  match_at re_last p t = Some s ->
  exists h l,
    t = h ++ l /\ rest s = [] /\ is_heading h /\ is_lf_run l
    /\ caps s = [(1, h)].
Proof.
  rewrite match_re_last.
  destruct (heading_split t) as [[h ys]|] eqn:E; [|discriminate].
  destruct (lf_run ys) as [[l [|c r]]|] eqn:El; try discriminate.
  intros H. injection H as <-. cbn [rest caps].
  apply heading_split_spec in E. destruct E as (Ht & Hh & _).
  apply lf_run_spec in El. destruct El as (Hr & Hl & _).
  exists h, l. subst. rewrite app_nil_r. shape_done.
Qed.

Lemma shape_re_blank_section p t s :
  match_at re_blank_section p t = Some s ->
  exists h1 l h2,
    t = h1 ++ Ch LF :: l ++ h2 ++ rest s /\ is_heading h1 /\ is_lf_run l
    /\ is_heading h2 /\ stops is_dot (rest s)
    /\ caps s = [(2, h2); (1, h1)].
Proof.
  rewrite match_re_blank_section.
  destruct (heading_split t) as [[h1 [|c ys]]|] eqn:E; try discriminate.
  destruct (is_lf c) eqn:Hc; [|discriminate].
  destruct (lf_run ys) as [[l r]|] eqn:El; [|discriminate].
  destruct (heading_split r) as [[h2 zs]|] eqn:E2; [|discriminate].
  intros H. injection H as <-. cbn [rest caps].
  apply heading_split_spec in E. destruct E as (Ht & Hh & _).
  apply lf_run_spec in El. destruct El as (Hys & Hl & _).
  apply heading_split_spec in E2. destruct E2 as (Hr & Hh2 & Hs).
  apply is_lf_eq in Hc.
  exists h1, l, h2. subst. shape_done.
Qed.

Lemma nonempty_re_around : nonempty_matches re_around.
Proof.
  intros p t s H. apply shape_re_around in H.
  destruct H as (h & -> & _ & Hh & _). apply heading_nonempty in Hh.
  rewrite !length_app. destruct h; [congruence|simpl; rewrite ?length_app; simpl; lia].
Qed.

Lemma nonempty_re_before : nonempty_matches re_before.
Proof.
  intros p t s H. apply shape_re_before in H.
  destruct H as (l & h & -> & [Hl _] & _).
  rewrite !length_app. destruct l; [congruence|simpl; lia].
Qed.

Lemma nonempty_re_after : nonempty_matches re_after.
Proof.
  intros p t s H. apply shape_re_after in H.
  destruct H as (h & l & -> & _ & Hh & _). apply heading_nonempty in Hh.
  rewrite !length_app. destruct h; [congruence|simpl; rewrite ?length_app; simpl; lia].
Qed.

Lemma nonempty_re_blank_section : nonempty_matches re_blank_section.
Proof.
  intros p t s H. apply shape_re_blank_section in H.
  destruct H as (h & l & h2 & -> & Hh & _). apply heading_nonempty in Hh.
  rewrite !length_app. destruct h; [congruence|simpl; rewrite ?length_app; simpl; lia].
Qed.

(** ** The rewrites only add and remove empty lines *)

Lemma bol_ok_snoc pre c : bol_ok (Some c) (pre ++ [c]).
Proof.
  unfold bol_ok. rewrite ends_line_last, last_sym_app by discriminate.
  auto.
Qed.

Lemma bol_ok_after p pre seg out :
  seg <> [] -> out <> [] -> last_sym out = last_sym seg ->
  bol_ok (prev_after p seg) (pre ++ out).
Proof.
  intros Hs Ho Hl. unfold bol_ok.
  rewrite ends_line_last, last_sym_app by assumption.
  rewrite (prev_after_last p Hs), Hl. auto.
Qed.

Lemma bol_ok_lf p pre : bol_ok p (pre ++ [Ch LF]).
Proof.
  unfold bol_ok. intros _.
  rewrite ends_line_last, last_sym_app by discriminate. reflexivity.
Qed.

Lemma scan_lines r out :
  (forall p seg s pre,
      match_at r p (seg ++ rest s) = Some s -> seg <> [] -> bol_ok p pre ->
      text_lines (pre ++ out seg (caps s) ++ rest s)
      = text_lines (pre ++ seg ++ rest s)
      /\ bol_ok (prev_after p seg) (pre ++ out seg (caps s))) ->
  forall p t res, Scan r out p t res ->
  forall pre, bol_ok p pre -> text_lines (pre ++ res) = text_lines (pre ++ t).
Proof.
  intros Hlocal p t res HS.
  induction HS as [p|p c tl res Hm HS IH|p seg s res Hm Hne Hp HS IH];
    intros pre Hpre.
  - reflexivity.
  - change (c :: res) with ([c] ++ res). change (c :: tl) with ([c] ++ tl).
    rewrite !app_assoc. apply IH. apply bol_ok_snoc.
  - destruct (Hlocal p seg s pre Hm Hne Hpre) as [H1 H2].
    rewrite <- H1. rewrite !(app_assoc pre). apply IH.
    rewrite Hp. exact H2.
Qed.

Lemma app_inv_rest (seg h r : list sym) : seg ++ r = h ++ r -> seg = h.
Proof. apply app_inv_tail. Qed.

Ltac list_eq := repeat rewrite <- app_assoc; repeat rewrite app_nil_r; reflexivity.

Lemma text_lines_sep a l b :
  is_lf_run l -> text_lines (a ++ l ++ b) = text_lines a ++ text_lines b.
Proof. intros [H1 H2]. apply text_lines_break; assumption. Qed.

Arguments text_lines_sep : clear implicits.

Lemma lf_run_nl2 : is_lf_run (nl ++ nl).
Proof. split; [discriminate|repeat constructor]. Qed.

Lemma lf_run_nl : is_lf_run nl.
Proof. split; [discriminate|repeat constructor]. Qed.

Lemma text_lines_after a b :
  ends_line is_line_terminator a = true ->
  text_lines (a ++ b) = text_lines a ++ text_lines b.
Proof. apply nonempty_lines_after. Qed.

Lemma text_lines_before a b :
  stops is_dot b -> text_lines (a ++ b) = text_lines a ++ text_lines b.
Proof. intros H. apply nonempty_lines_before, stops_dot_starts_line, H. Qed.

Lemma lines_re_around p t res :
  Scan re_around (fun _ cs => subst [Lit (nl ++ nl); Ref 1; Lit (nl ++ nl)] cs) p t res ->
  forall pre, bol_ok p pre -> text_lines (pre ++ res) = text_lines (pre ++ t).
Proof.
  apply scan_lines. intros q seg s pre Hm Hne Hpre.
  apply shape_re_around in Hm.
  destruct Hm as (h & Ht & Hb & Hh & Hs & Hc).
  apply app_inv_rest in Ht. subst h. rewrite Hc.
  change (subst _ _) with ((nl ++ nl) ++ seg ++ (nl ++ nl) ++ []).
  split.
  - apply Hpre in Hb.
    transitivity (text_lines pre ++ text_lines seg ++ text_lines (rest s)).
    + rewrite <- (text_lines_sep seg (nl ++ nl) (rest s)) by apply lf_run_nl2.
      rewrite <- (text_lines_sep pre (nl ++ nl)) by apply lf_run_nl2.
      f_equal. list_eq.
    + rewrite text_lines_after by assumption.
      rewrite text_lines_before by assumption. reflexivity.
  - replace (pre ++ (nl ++ nl) ++ seg ++ (nl ++ nl) ++ [])
      with ((pre ++ (nl ++ nl) ++ seg ++ nl) ++ [Ch LF]) by list_eq.
    apply bol_ok_lf.
Qed.

Lemma lf_run_cons l : is_lf_run l -> is_lf_run (Ch LF :: l).
Proof. intros [_ H]. split; [discriminate|constructor; [reflexivity|exact H]]. Qed.

Lemma lines_re_before p t res :
  Scan re_before (fun _ cs => subst [Lit (nl ++ nl); Ref 1] cs) p t res ->
  forall pre, bol_ok p pre -> text_lines (pre ++ res) = text_lines (pre ++ t).
Proof.
  apply scan_lines. intros q seg s pre Hm Hne Hpre.
  apply shape_re_before in Hm.
  destruct Hm as (l & h & Ht & Hl & Hh & Hs & Hc).
  rewrite app_assoc in Ht. apply app_inv_rest in Ht. subst seg. rewrite Hc.
  change (subst _ _) with ((nl ++ nl) ++ h ++ []).
  pose proof (heading_nonempty Hh) as Hhne.
  split.
  - transitivity (text_lines pre ++ text_lines (h ++ rest s)).
    + rewrite <- (text_lines_sep pre (nl ++ nl)) by apply lf_run_nl2.
      f_equal. list_eq.
    + rewrite <- (text_lines_sep pre l) by assumption. f_equal. list_eq.
  - apply bol_ok_after; [assumption|discriminate|].
    rewrite app_nil_r, !last_sym_app by assumption. reflexivity.
Qed.

Lemma lines_re_after tail p t res :
  is_lf_run tail ->
  Scan re_after (fun _ cs => subst [Ref 1; Lit tail] cs) p t res ->
  forall pre, bol_ok p pre -> text_lines (pre ++ res) = text_lines (pre ++ t).
Proof.
  intros Htail. apply scan_lines. intros q seg s pre Hm Hne Hpre.
  apply shape_re_after in Hm.
  destruct Hm as (h & l & Ht & Hb & Hh & Hl & Hs & Hc).
  rewrite app_assoc in Ht. apply app_inv_rest in Ht. subst seg. rewrite Hc.
  change (subst _ _) with (h ++ tail ++ []).
  split.
  - transitivity (text_lines (pre ++ h) ++ text_lines (rest s)).
    + rewrite <- (text_lines_sep (pre ++ h) tail) by assumption.
      f_equal. list_eq.
    + rewrite <- (text_lines_sep (pre ++ h) l) by assumption. f_equal. list_eq.
  - unfold bol_ok. intros _. rewrite ends_line_last.
    destruct Htail as [Hne' Hall].
    rewrite app_nil_r, app_assoc, last_sym_app by assumption.
    destruct tail as [|c tail] using rev_ind; [congruence|].
    unfold last_sym. rewrite prev_after_snoc.
    apply Forall_app in Hall. destruct Hall as [_ Hc'].
    inversion Hc' as [|? ? Hlf _]; subst. simpl. apply lf_terminates. exact Hlf.
Qed.

Lemma lines_re_blank_section p t res :
  Scan re_blank_section (fun _ cs => subst [Ref 1; Lit nl; Ref 2] cs) p t res ->
  forall pre, bol_ok p pre -> text_lines (pre ++ res) = text_lines (pre ++ t).
Proof.
  apply scan_lines. intros q seg s pre Hm Hne Hpre.
  apply shape_re_blank_section in Hm.
  destruct Hm as (h1 & l & h2 & Ht & Hh1 & Hl & Hh2 & Hs & Hc).
  replace (h1 ++ Ch LF :: l ++ h2 ++ rest s)
    with ((h1 ++ Ch LF :: l ++ h2) ++ rest s) in Ht
    by (rewrite <- app_assoc; simpl; rewrite <- app_assoc; reflexivity).
  apply app_inv_rest in Ht. subst seg. rewrite Hc.
  change (subst _ _) with (h1 ++ nl ++ h2 ++ []).
  pose proof (heading_nonempty Hh2) as Hhne.
  split.
  - transitivity (text_lines (pre ++ h1) ++ text_lines (h2 ++ rest s)).
    + rewrite <- (text_lines_sep (pre ++ h1) nl) by apply lf_run_nl.
      f_equal. list_eq.
    + rewrite <- (text_lines_sep (pre ++ h1) (Ch LF :: l))
        by (apply lf_run_cons; assumption).
      f_equal. rewrite <- !app_assoc. simpl. rewrite <- !app_assoc. reflexivity.
  - apply bol_ok_after.
    + destruct h1; discriminate.
    + destruct h1; discriminate.
    + rewrite app_nil_r.
      change (Ch LF :: l ++ h2) with ((Ch LF :: l) ++ h2).
      rewrite !app_assoc, !last_sym_app by assumption. reflexivity.
Qed.

(** Each global replacement of [apply] keeps the non-empty lines. *)
Lemma bol_ok_start : bol_ok None [].
Proof. intros _. reflexivity. Qed.

Lemma replace_all_scan r tpl t :
  nonempty_matches r ->
  Scan r (fun _ cs => subst tpl cs) None t (replace_all r tpl t).
Proof. intros H. apply replace_all_from_scan. exact H. Qed.

Lemma spacing_pass_lines options t :
  text_lines (spacing_pass options t) = text_lines t.
Proof.
  unfold spacing_pass. destruct (bottom options); simpl negb; cbv iota.
  - etransitivity.
    { apply (lines_re_after lf_run_nl2
               (replace_all_scan _ _ nonempty_re_after) bol_ok_start). }
    etransitivity.
    { apply (lines_re_before
               (replace_all_scan _ _ nonempty_re_before) bol_ok_start). }
    apply (lines_re_around
             (replace_all_scan _ _ nonempty_re_around) bol_ok_start).
  - etransitivity.
    { apply (lines_re_before
               (replace_all_scan _ _ nonempty_re_before) bol_ok_start). }
    apply (lines_re_after lf_run_nl
             (replace_all_scan _ _ nonempty_re_after) bol_ok_start).
Qed.

(** ** The loop over blank sections ends *)

Lemma no_match_at_end r p :
  nonempty_matches r -> match_at r p [] = None.
Proof.
  intros H. destruct (match_at r p []) as [s|] eqn:E; [|reflexivity].
  apply H in E. simpl in E. lia.
Qed.

Lemma scan_length r out :
  (forall p seg s, match_at r p (seg ++ rest s) = Some s -> seg <> [] ->
     length (out seg (caps s)) < length seg) ->
  nonempty_matches r ->
  forall p t res, Scan r out p t res ->
  length res <= length t
  /\ (has_match_from r p t = true -> length res < length t).
Proof.
  intros Hlocal Hne p t res HS.
  induction HS as [p|p c tl res Hm HS IH|p seg s res Hm Hseg Hp HS IH].
  - split; [lia|]. simpl. rewrite (no_match_at_end p Hne). discriminate.
  - destruct IH as [IH1 IH2]. split; [simpl; lia|].
    cbn [has_match_from]. rewrite Hm. intros H. apply IH2 in H. simpl. lia.
  - destruct IH as [IH1 _]. pose proof (Hlocal _ _ _ Hm Hseg) as Hl.
    rewrite !length_app. split; [lia|]. intros _. lia.
Qed.

Lemma blank_section_shrinks p seg s :
  match_at re_blank_section p (seg ++ rest s) = Some s -> seg <> [] ->
  length (subst [Ref 1; Lit nl; Ref 2] (caps s)) < length seg.
Proof.
  intros Hm _. apply shape_re_blank_section in Hm.
  destruct Hm as (h1 & l & h2 & Ht & Hh1 & Hl & Hh2 & Hs & Hc).
  replace (h1 ++ Ch LF :: l ++ h2 ++ rest s)
    with ((h1 ++ Ch LF :: l ++ h2) ++ rest s) in Ht
    by (rewrite <- app_assoc; simpl; rewrite <- app_assoc; reflexivity).
  apply app_inv_rest in Ht. subst seg. rewrite Hc.
  change (subst _ _) with (h1 ++ nl ++ h2 ++ []).
  destruct Hl as [Hl _]. destruct l; [congruence|].
  rewrite !length_app. simpl. rewrite !length_app. simpl. lia.
Qed.

Lemma collapse_step_shrinks t :
  has_match re_blank_section t = true ->
  length (replace_all re_blank_section [Ref 1; Lit nl; Ref 2] t) < length t.
Proof.
  intros H.
  apply (scan_length (out := fun _ cs => subst [Ref 1; Lit nl; Ref 2] cs)
           (fun p seg s => @blank_section_shrinks p seg s)
           nonempty_re_blank_section
           (replace_all_scan _ _ nonempty_re_blank_section)).
  exact H.
Qed.

Lemma collapse_step_lines t :
  text_lines (replace_all re_blank_section [Ref 1; Lit nl; Ref 2] t)
  = text_lines t.
Proof.
  apply (lines_re_blank_section
           (replace_all_scan _ _ nonempty_re_blank_section) bol_ok_start).
Qed.

(** With more fuel than the text has symbols the loop exits, on a text in
    which the expression matches nowhere, and with the same non-empty
    lines. *)
Lemma collapse_blank_sections_total fuel : forall t,
  length t < fuel ->
  exists res,
    collapse_blank_sections fuel t = Some res
    /\ has_match re_blank_section res = false
    /\ text_lines res = text_lines t
    /\ length res <= length t.
Proof.
  induction fuel as [|fuel IH]; intros t Hlen; [lia|].
  cbn [collapse_blank_sections].
  destruct (has_match re_blank_section t) eqn:E.
  - pose proof (collapse_step_shrinks t E) as Hs.
    destruct (IH (replace_all re_blank_section [Ref 1; Lit nl; Ref 2] t))
      as (res & H1 & H2 & H3 & H4); [lia|].
    exists res. repeat split; try assumption.
    + rewrite H3. apply collapse_step_lines.
    + lia.
  - exists t. repeat split; auto.
Qed.

Lemma blank_section_pass_total options t :
  exists res,
    blank_section_pass options t = Some res
    /\ (emptyLineInBlankSections options = false ->
        has_match re_blank_section res = false)
    /\ (emptyLineInBlankSections options = true -> res = t)
    /\ text_lines res = text_lines t.
Proof.
  unfold blank_section_pass.
  destruct (emptyLineInBlankSections options); simpl negb; cbv iota.
  - exists t. repeat split; auto. discriminate.
  - destruct (collapse_blank_sections_total (fuel := S (length t)) t)
      as (res & H1 & H2 & H3 & _); [lia|].
    exists res. repeat split; auto. discriminate.
Qed.

(** ** The replacement of the leftmost match *)

Lemma replace_from_spec r tpl : forall t p,
  (has_match_from r p t = false /\ replace_from r tpl p t = t)
  \/ (exists pre seg s,
         t = pre ++ seg ++ rest s
         /\ match_at r (prev_after p pre) (seg ++ rest s) = Some s
         /\ (forall a b, pre = a ++ b -> b <> [] ->
               match_at r (prev_after p a) (b ++ seg ++ rest s) = None)
         /\ replace_from r tpl p t = pre ++ subst tpl (caps s) ++ rest s).
Proof.
  induction t as [|c tl IH]; intros p.
  - cbn [replace_from has_match_from].
    destruct (match_at r p []) as [s|] eqn:E; [|left; auto].
    right. destruct (match_at_reads _ _ _ E) as (seg & Ht & _).
    exists [], seg, s. simpl. rewrite <- Ht. repeat split; auto.
    intros a b Hab Hb. destruct a; destruct b; simpl in Hab; congruence.
  - cbn [replace_from has_match_from].
    destruct (match_at r p (c :: tl)) as [s|] eqn:E.
    + right. destruct (match_at_reads _ _ _ E) as (seg & Ht & _).
      exists [], seg, s. simpl. rewrite <- Ht. repeat split; auto.
      intros a b Hab Hb. destruct a; destruct b; simpl in Hab; congruence.
    + destruct (IH (Some c)) as [[H1 H2]|(pre & seg & s & Ht & Hm & Hno & Hr)].
      * left. rewrite H1, H2. auto.
      * right. exists (c :: pre), seg, s. rewrite prev_after_cons.
        repeat split.
        -- simpl. rewrite Ht. reflexivity.
        -- exact Hm.
        -- intros a b Hab Hb. destruct a as [|a0 a].
           ++ simpl in Hab. subst b. simpl. rewrite <- Ht. exact E.
           ++ simpl in Hab. injection Hab as <- Hab. rewrite prev_after_cons.
              apply Hno; assumption.
        -- rewrite Hr. reflexivity.
Qed.

Lemma prev_after_none pre : prev_after None pre = None -> pre = [].
Proof.
  destruct pre as [|c pre] using rev_ind; [reflexivity|].
  rewrite prev_after_snoc. discriminate.
Qed.

Lemma replace_re_first_spec t :
  (has_match re_first t = false /\ replace re_first [Ref 1] t = t)
  \/ (exists l h ys,
         t = l ++ h ++ ys /\ is_lf_run l /\ is_heading h /\ stops is_dot ys
         /\ replace re_first [Ref 1] t = h ++ ys).
Proof.
  unfold replace, has_match.
  destruct (replace_from_spec re_first [Ref 1] t None)
    as [H|(pre & seg & s & Ht & Hm & _ & Hr)]; [left; exact H|right].
  apply shape_re_first in Hm. destruct Hm as [Hp Hm].
  apply prev_after_none in Hp. subst pre.
  apply shape_re_before in Hm.
  destruct Hm as (l & h & Hseg & Hl & Hh & Hs & Hc).
  rewrite app_assoc in Hseg. apply app_inv_rest in Hseg. subst seg.
  rewrite Hc in Hr. simpl in Hr, Ht. rewrite app_nil_r in Hr.
  exists l, h, (rest s). rewrite <- app_assoc in Ht. repeat split; try assumption.
  - apply Hl.
  - apply Hl.
Qed.

Lemma replace_re_last_spec t :
  (has_match re_last t = false /\ replace re_last [Ref 1] t = t)
  \/ (exists pre h l,
         t = pre ++ h ++ l /\ is_heading h /\ is_lf_run l
         /\ (forall a b, pre = a ++ b -> b <> [] ->
               match_at re_last (prev_after None a) (b ++ h ++ l) = None)
         /\ replace re_last [Ref 1] t = pre ++ h).
Proof.
  unfold replace, has_match.
  destruct (replace_from_spec re_last [Ref 1] t None)
    as [H|(pre & seg & s & Ht & Hm & Hno & Hr)]; [left; exact H|right].
  apply shape_re_last in Hm.
  destruct Hm as (h & l & Hseg & Hrest & Hh & Hl & Hc).
  rewrite Hrest in *. rewrite app_nil_r in Hseg. subst seg.
  rewrite Hc in Hr. simpl in Hr. rewrite !app_nil_r in Hr.
  rewrite app_nil_r in Ht.
  exists pre, h, l. repeat split; try assumption; try apply Hl.
  intros a b Hab Hb. specialize (Hno a b Hab Hb).
  rewrite app_nil_r in Hno. exact Hno.
Qed.

Lemma edge_pass_lines t : text_lines (edge_pass t) = text_lines t.
Proof.
  unfold edge_pass.
  transitivity (text_lines (replace re_first [Ref 1] t)).
  - destruct (replace_re_last_spec (replace re_first [Ref 1] t))
      as [[_ H]|(pre & h & l & Ht & Hh & Hl & _ & Hr)].
    + rewrite H. reflexivity.
    + rewrite Hr, Ht.
      replace (pre ++ h ++ l) with ((pre ++ h) ++ l ++ []) by list_eq.
      rewrite text_lines_sep by assumption.
      unfold text_lines at 3. rewrite nonempty_lines_nil, app_nil_r. reflexivity.
  - destruct (replace_re_first_spec t)
      as [[_ H]|(l & h & ys & Ht & Hl & Hh & Hs & Hr)].
    + rewrite H. reflexivity.
    + rewrite Hr, Ht.
      change (l ++ h ++ ys) with ([] ++ l ++ h ++ ys).
      rewrite (text_lines_sep [] l (h ++ ys)) by assumption. reflexivity.
Qed.

(** ** The frontmatter pass *)

Lemma exec_Class_inv p k s sf :
  exec (Class p) k s = Some sf ->
  exists c tl, rest s = c :: tl /\ p c = true
               /\ k (MState (Some c) tl (caps s)) = Some sf.
Proof.
  destruct s as [pv [|c tl] cs]; [rewrite exec_Class_nil; discriminate|].
  rewrite exec_Class_cons. destruct (p c) eqn:E; [|discriminate].
  intros H. exists c, tl. auto.
Qed.

Lemma exec_Look_inv b r k s sf :
  exec (Look b r) k s = Some sf -> k s = Some sf.
Proof.
  rewrite exec_Look. destruct (exec r Some s); destruct b; congruence.
Qed.

Lemma is_dash_eq c : is_dash c = true -> c = Ch DASH.
Proof.
  destruct c as [c|]; simpl; [|discriminate].
  intros H. apply N.eqb_eq in H. subst. reflexivity.
Qed.

Lemma exec_lit3_dash_inv k s sf :
  exec (lit3 is_dash) k s = Some sf ->
  exists tl, rest s = dashes ++ tl
             /\ k (MState (Some (Ch DASH)) tl (caps s)) = Some sf.
Proof.
  unfold lit3. rewrite exec_Seq. intros H.
  apply exec_Class_inv in H. destruct H as (c1 & t1 & R1 & P1 & H).
  rewrite exec_Seq in H.
  apply exec_Class_inv in H. destruct H as (c2 & t2 & R2 & P2 & H).
  apply exec_Class_inv in H. destruct H as (c3 & t3 & R3 & P3 & H).
  cbn [rest caps] in *. subst t1 t2.
  apply is_dash_eq in P1, P2, P3. subst.
  exists t3. split; [exact R1|exact H].
Qed.

Lemma shape_re_yaml_heading p t s :
  match_at re_yaml_heading p t = Some s ->
  exists y l h,
    t = y ++ l ++ h ++ rest s /\ p = None /\ is_frontmatter y
    /\ is_lf_run l /\ is_heading h /\ stops is_dot (rest s)
    /\ get_cap 1 (caps s) = y /\ get_cap 5 (caps s) = h.
Proof.
  unfold match_at, re_yaml_heading. rewrite exec_Seq, exec_Group.
  cbn [rest].
  change (shift_groups 1 yamlRegex) with
    (Seq (Bol false)
       (Seq (lit3 is_dash)
          (Seq (Class is_lf)
             (Seq (shift_groups 1
                     (Group 1
                        (Opt (Group 2
                                (Seq (Group 3
                                        (Seq (Look false (lit3 is_dash))
                                           (Star false
                                              (Alt (Class is_dot) (Class is_lf)))))
                                   (Class is_lf))))))
                (Seq (lit3 is_dash)
                   (Look true (Alt (Class is_lf) (Eol false)))))))).
  set (X := shift_groups 1 _).
  rewrite exec_Seq, exec_Bol. cbn [prev].
  destruct p as [c|]; [discriminate|]. cbn [at_bol].
  rewrite exec_Seq. intros H.
  apply exec_lit3_dash_inv in H. destruct H as (t1 & R1 & H). cbn [rest caps] in *.
  rewrite exec_Seq in H.
  apply exec_Class_inv in H. destruct H as (c & t2 & R2 & Pc & H).
  cbn [rest caps] in *. apply is_lf_eq in Pc. subst c t1.
  rewrite exec_Seq in H. apply exec_reads in H.
  destruct H as (body & s1 & [R3 _] & H). cbn [rest] in R3. subst t2.
  rewrite exec_Seq in H.
  apply exec_lit3_dash_inv in H. destruct H as (t3 & R4 & H).
  apply exec_Look_inv in H. unfold set_cap in H. cbn [prev rest caps] in H.
  rewrite exec_Seq in H. rewrite exec_lf_plus in H.
  2:{ apply longest_only_reject. intros pv c tl Hc.
      rewrite exec_Group. apply heading_rejects_lf. exact Hc. }
  destruct (lf_run t3) as [[l r]|] eqn:El; [|discriminate].
  rewrite exec_group_heading in H.
  2:{ intros h ys _. apply longest_only_total. discriminate. }
  destruct (heading_split r) as [[h ys]|] eqn:Eh; [|discriminate].
  injection H as <-. cbn [rest caps].
  apply lf_run_spec in El. destruct El as (Ht3 & Hl & _).
  apply heading_split_spec in Eh. destruct Eh as (Hr & Hh & Hs).
  subst t3 r. rewrite R4 in R1. subst t.
  set (y := dashes ++ Ch LF :: body ++ dashes).
  assert (Hy : firstn
                 (length (dashes ++ Ch LF :: body ++ dashes ++ l ++ h ++ ys)
                  - length (l ++ h ++ ys))
                 (dashes ++ Ch LF :: body ++ dashes ++ l ++ h ++ ys) = y).
  { replace (dashes ++ Ch LF :: body ++ dashes ++ l ++ h ++ ys)
      with (y ++ l ++ h ++ ys)
      by (unfold y; rewrite <- !app_assoc; simpl; rewrite <- !app_assoc;
          reflexivity).
    apply firstn_prefix. }
  rewrite Hy.
  exists y, l, h.
  split; [unfold y; rewrite <- !app_assoc; simpl; rewrite <- !app_assoc;
          reflexivity|].
  split; [reflexivity|].
  split; [exists body; reflexivity|].
  repeat split; try assumption; try apply Hl.
Qed.

Lemma yaml_pass_spec options t :
  yaml_pass options t = t
  \/ (emptyLineAfterYaml options = false
      /\ exists y l h ys,
           t = y ++ l ++ h ++ ys /\ is_frontmatter y /\ is_lf_run l
           /\ is_heading h /\ stops is_dot ys
           /\ yaml_pass options t = y ++ nl ++ h ++ ys).
Proof.
  unfold yaml_pass. destruct (emptyLineAfterYaml options); [left; reflexivity|].
  simpl negb. cbv iota. unfold replace.
  destruct (replace_from_spec re_yaml_heading [Ref 1; Lit nl; Ref 5] t None)
    as [[_ H]|(pre & seg & s & Ht & Hm & _ & Hr)]; [left; exact H|right].
  split; [reflexivity|].
  apply shape_re_yaml_heading in Hm.
  destruct Hm as (y & l & h & Hseg & Hp & Hy & Hl & Hh & Hs & H1 & H5).
  apply prev_after_none in Hp. subst pre. simpl in Ht, Hr.
  exists y, l, h, (rest s). rewrite Hr. cbn [subst]. rewrite H1, H5.
  rewrite Hseg in Ht.
  repeat split; try assumption; try apply Hl.
  rewrite app_nil_r, <- !app_assoc. reflexivity.
Qed.

Lemma yaml_pass_lines options t :
  text_lines (yaml_pass options t) = text_lines t.
Proof.
  destruct (yaml_pass_spec options t)
    as [H|(_ & y & l & h & ys & Ht & _ & Hl & _ & _ & Hr)].
  - rewrite H. reflexivity.
  - rewrite Hr, Ht.
    rewrite (text_lines_sep y nl (h ++ ys)) by apply lf_run_nl.
    rewrite (text_lines_sep y l (h ++ ys)) by assumption. reflexivity.
Qed.

(** ** The callback as a whole *)

(** The callback returns, and its result has the non-empty lines of its
    argument, in the same order. *)
Lemma rewrite_total options t :
  exists res, rewrite options t = Some res /\ text_lines res = text_lines t.
Proof.
  unfold rewrite.
  destruct (blank_section_pass_total options (spacing_pass options t))
    as (mid & H1 & _ & _ & H4).
  rewrite H1. eexists. split; [reflexivity|].
  rewrite yaml_pass_lines, edge_pass_lines, H4. apply spacing_pass_lines.
Qed.

(** ** Expressions that cannot match the empty text *)

Lemma exec_consumes (r : regex) :
  consumes r = true ->
  forall k s sf, exec r k s = Some sf ->
  exists seg s', reads s seg s' /\ seg <> [] /\ k s' = Some sf.
Proof.
  induction r as [p|ml|ml| |r1 IH1 r2 IH2|r1 IH1 r2 IH2|g r1 IH1|i r1 IH1|b r1 IH1];
    simpl; intros Hc k s sf H; try discriminate.
  - apply exec_Class_inv in H. destruct H as (c & tl & R & P & H).
    exists [c], (MState (Some c) tl (caps s)).
    split; [split; [exact R|reflexivity]|]. split; [discriminate|exact H].
  - rewrite exec_Seq in H. destruct (consumes r1) eqn:E1.
    + apply IH1 in H; [|reflexivity]. destruct H as (a & s1 & R1 & Ha & H).
      apply exec_reads in H. destruct H as (b & s2 & R2 & H).
      exists (a ++ b), s2. split; [eapply reads_trans; eassumption|].
      split; [destruct a; [congruence|discriminate]|exact H].
    + simpl in Hc. apply exec_reads in H. destruct H as (a & s1 & R1 & H).
      apply IH2 in H; [|exact Hc]. destruct H as (b & s2 & R2 & Hb & H).
      exists (a ++ b), s2. split; [eapply reads_trans; eassumption|].
      split; [|exact H].
      intros E. apply app_eq_nil in E. destruct E. congruence.
  - apply andb_true_iff in Hc. destruct Hc as [C1 C2].
    rewrite exec_Alt in H. apply orelse_inv in H. destruct H as [E|[_ H]].
    + apply (IH1 C1) in E. exact E.
    + apply (IH2 C2) in H. exact H.
  - rewrite exec_Group in H. apply (IH1 Hc) in H.
    destruct H as (a & s1 & R1 & Ha & H).
    exists a, (set_cap i (firstn (length (rest s) - length (rest s1)) (rest s)) s1).
    split; [exact R1|]. split; [exact Ha|exact H].
Qed.

Lemma consumes_nonempty r : consumes r = true -> nonempty_matches r.
Proof.
  intros Hc p t s H. unfold match_at in H.
  apply (exec_consumes r Hc) in H. destruct H as (seg & s' & R & Hne & E).
  inversion E; subst s'. apply reads_length in R. cbn [rest] in R.
  destruct seg; [congruence|]. simpl in R. lia.
Qed.

(** ** Masking and restoring *)

Lemma unmask_app a b : unmask (a ++ b) = unmask a ++ unmask b.
Proof. apply flat_map_app. Qed.

Lemma unmask_chars t : unmask (chars t) = t.
Proof.
  unfold unmask, chars. induction t as [|c t IH]; [reflexivity|].
  simpl. rewrite IH. reflexivity.
Qed.

(** A replacement that, match by match, writes a text with the same bytes
    behind it, keeps the bytes of the whole. *)
Lemma scan_unmask r out :
  (forall p seg s, match_at r p (seg ++ rest s) = Some s -> seg <> [] ->
     unmask (out seg (caps s)) = unmask seg) ->
  forall p t res, Scan r out p t res -> unmask res = unmask t.
Proof.
  intros Hlocal p t res HS.
  induction HS as [p|p c tl res Hm HS IH|p seg s res Hm Hne Hp HS IH].
  - reflexivity.
  - change (c :: res) with ([c] ++ res). change (c :: tl) with ([c] ++ tl).
    rewrite !unmask_app, IH. reflexivity.
  - rewrite !unmask_app, IH, (Hlocal _ _ _ Hm Hne). reflexivity.
Qed.

Lemma firstn_prefix2 (A : Type) (a b : list A) :
  firstn (length (a ++ b) - length b) (a ++ b) = a.
Proof. apply firstn_prefix. Qed.

(** What [yamlRegex] matches: a line of dashes, a body that is empty or ends
    with LF, and dashes followed by LF or by the end of the text. *)
Lemma shape_yamlRegex p t s :
  match_at yamlRegex p t = Some s ->
  exists body,
    t = dashes ++ Ch LF :: body ++ dashes ++ rest s /\ p = None
    /\ get_cap 1 (caps s) = body
    /\ (body = [] \/ exists b, body = b ++ [Ch LF]).
Proof.
  unfold match_at, yamlRegex.
  rewrite exec_Seq, exec_Bol. cbn [prev].
  destruct p as [c|]; [discriminate|]. cbn [at_bol].
  rewrite exec_Seq. intros H.
  apply exec_lit3_dash_inv in H. destruct H as (t1 & R1 & H). cbn [rest caps] in *.
  rewrite exec_Seq in H.
  apply exec_Class_inv in H. destruct H as (c & t2 & R2 & Pc & H).
  cbn [rest caps] in *. apply is_lf_eq in Pc. subst c t1 t.
  rewrite exec_Seq, exec_Group in H. cbn [rest] in H.
  unfold Opt in H. rewrite exec_Alt in H.
  apply orelse_inv in H. destruct H as [E|[_ H]].
  - rewrite exec_Group, exec_Seq in E. cbn [rest] in E.
    apply exec_reads in E. destruct E as (b3 & s3 & [R3 _] & E).
    cbn [rest] in R3.
    apply exec_Class_inv in E. destruct E as (c & tl & R4 & Pc & E).
    apply is_lf_eq in Pc. subst c. rewrite R4 in R3. subst t2.
    rewrite exec_Seq in E.
    apply exec_lit3_dash_inv in E. destruct E as (t3 & R5 & E).
    apply exec_Look_inv in E. unfold set_cap in *.
    cbn [prev rest caps] in *. injection E as <-.
    cbn [rest caps]. subst tl.
    replace (b3 ++ Ch LF :: dashes ++ t3)
      with ((b3 ++ [Ch LF]) ++ dashes ++ t3)
      by (rewrite <- app_assoc; reflexivity).
    rewrite firstn_prefix2.
    exists (b3 ++ [Ch LF]). repeat split.
    right. exists b3. reflexivity.
  - rewrite exec_Empty, exec_Seq in H.
    apply exec_lit3_dash_inv in H. destruct H as (t3 & R5 & H).
    apply exec_Look_inv in H. unfold set_cap in *.
    cbn [prev rest caps] in *. rewrite Nat.sub_diag in H. cbn [firstn] in H.
    injection H as <-.
    cbn [rest caps]. subst t2.
    exists []. repeat split. left. reflexivity.
Qed.

Lemma region_pattern_consumes ty : consumes (region_pattern ty) = true.
Proof. destruct ty; reflexivity. Qed.

Lemma placeholder_yaml_body seg cs :
  get_cap 1 cs <> [] ->
  placeholder yaml seg cs
  = str "---" ++ nl ++ [Tok yaml (unmask (removelast (get_cap 1 cs)))] ++ nl
      ++ str "---".
Proof.
  unfold placeholder. destruct (get_cap 1 cs); [congruence|reflexivity].
Qed.

Lemma placeholder_unmask ty p seg s :
  match_at (region_pattern ty) p (seg ++ rest s) = Some s ->
  unmask (placeholder ty seg (caps s)) = unmask seg.
Proof.
  intros Hm.
  assert (Hatom : unmask [Tok ty (unmask seg)] = unmask seg)
    by (simpl; apply app_nil_r).
  destruct ty; try exact Hatom.
  simpl in Hm. apply shape_yamlRegex in Hm.
  destruct Hm as (body & Ht & _ & Hc & Hb).
  replace (dashes ++ Ch LF :: body ++ dashes ++ rest s)
    with ((dashes ++ Ch LF :: body ++ dashes) ++ rest s) in Ht
    by (rewrite <- app_assoc; simpl; rewrite <- app_assoc; reflexivity).
  apply app_inv_rest in Ht.
  destruct Hb as [->|(b & ->)].
  { unfold placeholder. rewrite Hc. reflexivity. }
  rewrite placeholder_yaml_body by (rewrite Hc; destruct b; discriminate).
  rewrite Hc, removelast_last. subst seg.
  rewrite !unmask_app. simpl. rewrite !unmask_app. simpl.
  rewrite <- !app_assoc. reflexivity.
Qed.

(** Restoring what was masked gives the text back. *)
Lemma unmask_mask ty t : unmask (mask ty t) = unmask t.
Proof.
  unfold mask.
  apply (scan_unmask (r := region_pattern ty) (out := placeholder ty))
    with (p := None).
  - intros p seg s Hm _. eapply placeholder_unmask. exact Hm.
  - apply replace_all_from_scan, consumes_nonempty, region_pattern_consumes.
Qed.

Lemma unmask_mask_all types t : unmask (mask_all types t) = unmask t.
Proof.
  unfold mask_all. revert t.
  induction types as [|ty types IH]; intros t; [reflexivity|].
  simpl. rewrite IH. apply unmask_mask.
Qed.

(** ** Lines of the restored text *)

Lemma doc_lines_unmask_from t : forall cur,
  doc_lines (unmask (cur ++ t))
  = flat_map (fun l => doc_lines (unmask l))
      (filter (@nonempty sym) (lines_from is_line_terminator cur t)).
Proof.
  induction t as [|c t IH]; intros cur.
  - rewrite app_nil_r. simpl. destruct cur as [|c0 cur]; simpl.
    + reflexivity.
    + rewrite app_nil_r. reflexivity.
  - simpl. destruct (is_line_terminator c) eqn:Hc.
    + destruct c as [c|]; [|discriminate]. simpl in Hc.
      rewrite unmask_app. simpl. unfold doc_lines at 1.
      rewrite (nonempty_lines_split line_terminator_code (unmask cur) c
                 (unmask t) Hc).
      specialize (IH []). simpl in IH. unfold doc_lines in IH at 1. rewrite IH.
      destruct cur as [|c0 cur]; simpl; reflexivity.
    + replace (cur ++ c :: t) with ((cur ++ [c]) ++ t)
        by (rewrite <- app_assoc; reflexivity).
      apply IH.
Qed.

Lemma doc_lines_unmask t :
  doc_lines (unmask t) = flat_map (fun l => doc_lines (unmask l)) (text_lines t).
Proof. apply (doc_lines_unmask_from t []). Qed.

(** ** [apply] *)

Lemma apply_unfold text options :
  apply text options
  = option_map unmask (rewrite options (mask_all ignored (chars text))).
Proof. reflexivity. Qed.

(** [apply] returns, and the text it returns has the non-empty lines of its
    argument, in the same order. *)
Lemma apply_total text options :
  exists out, apply text options = Some out /\ doc_lines out = doc_lines text.
Proof.
  rewrite apply_unfold.
  destruct (rewrite_total options (mask_all ignored (chars text)))
    as (res & H1 & H2).
  rewrite H1. exists (unmask res). split; [reflexivity|].
  rewrite doc_lines_unmask, H2, <- doc_lines_unmask.
  rewrite unmask_mask_all, unmask_chars. reflexivity.
Qed.

(** ** Heading lines of a document *)

Lemma filter_nonempty_lines (A : Type) (P : list A -> bool) (L : list (list A)) :
  P [] = false -> filter P (filter (@nonempty A) L) = filter P L.
Proof.
  intros HP. induction L as [|l L IH]; [reflexivity|].
  simpl. destruct l as [|c l]; simpl.
  - rewrite HP. exact IH.
  - rewrite IH. reflexivity.
Qed.

Lemma heading_count_doc_lines t :
  heading_count t = length (filter heading_line (doc_lines t)).
Proof.
  unfold heading_count, doc_lines, nonempty_lines.
  rewrite filter_nonempty_lines by reflexivity. reflexivity.
Qed.

(** ** Symbols and lines *)

Section LineMembers.

Variable A : Type.
Variable term : A -> bool.





End LineMembers.



(** ** Text that no expression of [apply] matches *)

Lemma quiet_re_around p t : quiet t -> match_at re_around p t = None.
Proof.
  intros [H _]. rewrite match_re_around, H. destruct (at_bol true p); reflexivity.
Qed.

Lemma quiet_re_after p t : quiet t -> match_at re_after p t = None.
Proof.
  intros [H _]. rewrite match_re_after, H. destruct (at_bol true p); reflexivity.
Qed.

Lemma quiet_re_before p t : quiet t -> match_at re_before p t = None.
Proof.
  intros [_ H]. rewrite match_re_before.
  destruct (lf_run t) as [[l r]|]; [rewrite H|]; reflexivity.
Qed.

Lemma quiet_re_first p t : quiet t -> match_at re_first p t = None.
Proof.
  intros H. rewrite match_re_first, (quiet_re_before p H).
  destruct (at_bol false p); reflexivity.
Qed.

Lemma quiet_re_last p t : quiet t -> match_at re_last p t = None.
Proof. intros [H _]. rewrite match_re_last, H. reflexivity. Qed.

Lemma quiet_re_blank_section p t :
  quiet t -> match_at re_blank_section p t = None.
Proof. intros [H _]. rewrite match_re_blank_section, H. reflexivity. Qed.

Lemma heading_split_not_hash c t :
  is_hash c = false -> heading_split (c :: t) = None.
Proof. intros H. unfold heading_split. simpl. rewrite H. reflexivity. Qed.













(** ** Where the expressions match *)

Unset Implicit Arguments.

Lemma has_match_from_intro r pre : forall p t s,
  match_at r (prev_after p pre) t = Some s ->
  has_match_from r p (pre ++ t) = true.
Proof.
  induction pre as [|c pre IH]; intros p t s H.
  - rewrite prev_after_nil in H. simpl app.
    destruct t; cbn [has_match_from]; rewrite H; reflexivity.
  - simpl app. cbn [has_match_from].
    destruct (match_at r p (c :: pre ++ t)); [reflexivity|].
    rewrite prev_after_cons in H. eapply IH. exact H.
Qed.

Lemma has_match_from_none r pre : forall p t,
  has_match_from r p (pre ++ t) = false ->
  match_at r (prev_after p pre) t = None.
Proof.
  intros p t H. destruct (match_at r (prev_after p pre) t) as [s|] eqn:E;
    [|reflexivity].
  rewrite (has_match_from_intro r pre p t s E) in H. discriminate.
Qed.

Lemma heading_starts_with_hash h :
  is_heading h -> exists c h', h = c :: h' /\ is_hash c = true.
Proof.
  intros (hs & w & ds & -> & Hne & Hh & _).
  destruct hs as [|c hs]; [congruence|].
  inversion Hh; subst. exists c, (hs ++ w :: ds). auto.
Qed.

Lemma stops_lf_heading h rest : is_heading h -> stops is_lf (h ++ rest).
Proof.
  intros H. destruct (heading_starts_with_hash h H) as (c & h' & -> & Hc).
  simpl. apply hash_not_lf. exact Hc.
Qed.

Lemma stops_dot_lf_run l rest : is_lf_run l -> stops is_dot (l ++ rest).
Proof.
  intros [Hne Hl]. destruct l as [|c l]; [congruence|].
  inversion Hl; subst. simpl. apply lf_not_dot. assumption.
Qed.

(** A heading at the start of a text is read by the heading pattern,
    possibly with more of its line. *)
Lemma heading_split_some h rest :
  is_heading h -> exists h' ys, heading_split (h ++ rest) = Some (h', ys).
Proof.
  intros (hs & w & ds & -> & Hne & Hh & Hw & Hd).
  unfold heading_split. rewrite <- app_assoc.
  rewrite span_unique; [|exact Hh|].
  2:{ simpl. destruct (is_hash w) eqn:E; [|reflexivity].
      apply hash_not_space in E. congruence. }
  destruct hs as [|h0 hs]; [congruence|]. simpl. rewrite Hw.
  destruct (span is_dot (ds ++ rest)) as [ds' ys]. eexists _, _. reflexivity.
Qed.

Lemma match_re_before_complete p l h rest :
  is_lf_run l -> is_heading h ->
  match_at re_before p (l ++ h ++ rest) <> None.
Proof.
  intros Hl Hh. rewrite match_re_before.
  rewrite (lf_run_complete (h ++ rest) Hl (stops_lf_heading h rest Hh)).
  destruct (heading_split_some h rest Hh) as (h' & ys & ->). discriminate.
Qed.

Lemma match_re_last_complete p h l :
  is_heading h -> is_lf_run l -> match_at re_last p (h ++ l) <> None.
Proof.
  intros Hh Hl. rewrite match_re_last.
  rewrite <- (app_nil_r l).
  rewrite (heading_split_complete (l ++ []) Hh (stops_dot_lf_run l [] Hl)).
  rewrite (lf_run_complete [] Hl I). discriminate.
Qed.

Lemma match_re_blank_section_complete p h1 l h2 rest :
  is_heading h1 -> is_lf_run l -> 2 <= length l -> is_heading h2 ->
  match_at re_blank_section p (h1 ++ l ++ h2 ++ rest) <> None.
Proof.
  intros H1 [Hne Hl] Hlen H2. rewrite match_re_blank_section.
  rewrite (heading_split_complete (l ++ h2 ++ rest) H1
             (stops_dot_lf_run l (h2 ++ rest) (conj Hne Hl))).
  destruct l as [|c [|d l]]; simpl in Hlen; try lia.
  inversion Hl as [|? ? Hc Hl']; subst. simpl. rewrite Hc.
  assert (Hrun : is_lf_run (d :: l)) by (split; [discriminate|exact Hl']).
  change (d :: l ++ h2 ++ rest) with ((d :: l) ++ h2 ++ rest).
  rewrite (lf_run_complete (h2 ++ rest) Hrun (stops_lf_heading h2 rest H2)).
  destruct (heading_split_some h2 rest H2) as (h' & ys & ->). discriminate.
Qed.

(** ** Blank lines at the two ends of the text *)

Lemma all_in p l c : all p l -> In c l -> p c = true.
Proof. intros H Hin. unfold all in H. rewrite Forall_forall in H. auto. Qed.

Lemma lf_run_last l : is_lf_run l -> exists l', l = l' ++ [Ch LF].
Proof.
  intros [Hne Hl]. destruct l as [|c l] using rev_ind; [congruence|].
  exists l. f_equal. apply Forall_app in Hl. destruct Hl as [_ Hc].
  inversion Hc; subst. f_equal. apply is_lf_eq. assumption.
Qed.

Lemma lf_run_app_r l l' : is_lf_run l -> is_lf_run l' -> is_lf_run (l ++ l').
Proof.
  intros [Hne Hl] [_ Hl']. split.
  - destruct l; [congruence|discriminate].
  - apply Forall_app. split; assumption.
Qed.

(** No heading followed by LF ends a heading. *)
Lemma heading_no_suffix h z h2 l2 :
  is_heading h -> is_heading h2 -> is_lf_run l2 -> h = z ++ h2 ++ l2 -> False.
Proof.
  intros (hs & w & ds & -> & _ & Hh & Hw & Hd)
         (hs2 & w2 & ds2 & -> & _ & _ & Hw2 & _) Hl E.
  destruct (lf_run_last l2 Hl) as (l2' & ->).
  destruct ds as [|d ds] using rev_ind.
  - replace (z ++ (hs2 ++ w2 :: ds2) ++ l2' ++ [Ch LF])
      with ((z ++ hs2 ++ w2 :: ds2 ++ l2') ++ [Ch LF]) in E
      by (rewrite <- !app_assoc; simpl; rewrite <- !app_assoc; reflexivity).
    change (hs ++ [w]) with (hs ++ [w]) in E.
    apply app_inj_tail in E. destruct E as [E _].
    assert (Hin : In w2 hs).
    { rewrite E. apply in_or_app. right. apply in_or_app. right. left.
      reflexivity. }
    apply (all_in is_hash hs w2 Hh) in Hin.
    apply hash_not_space in Hin. congruence.
  - replace (hs ++ w :: ds ++ [d]) with ((hs ++ w :: ds) ++ [d]) in E
      by (rewrite <- app_assoc; reflexivity).
    replace (z ++ (hs2 ++ w2 :: ds2) ++ l2' ++ [Ch LF])
      with ((z ++ hs2 ++ w2 :: ds2 ++ l2') ++ [Ch LF]) in E
      by (rewrite <- !app_assoc; simpl; rewrite <- !app_assoc; reflexivity).
    apply app_inj_tail in E. destruct E as [_ ->].
    apply Forall_app in Hd. destruct Hd as [_ Hd].
    inversion Hd; subst. discriminate.
Qed.

(** In a heading followed by LF only, no LF comes after a symbol that is
    not a hash and before a symbol that is not LF. *)
Lemma heading_lf_no_break h l a d c b :
  is_heading h -> is_lf_run l ->
  h ++ l = a ++ d :: Ch LF :: c :: b ->
  is_hash d = false -> is_lf c = false -> False.
Proof.
  intros (hs & w & ds & -> & _ & Hh & Hw & Hd) [_ Hl] E Hdn Hcn.
  assert (Tail : forall x, ds ++ l = Ch LF :: c :: x -> False).
  { intros x E2. destruct ds as [|d0 ds]; simpl in E2.
    - rewrite E2 in Hl. inversion Hl as [|? ? _ Hl']; subst.
      inversion Hl'; subst. congruence.
    - injection E2 as ? ?; subst. inversion Hd; subst. discriminate. }
  rewrite <- app_assoc in E.
  apply app_eq_app in E. destruct E as (z & [[E1 E2]|[E1 E2]]).
  - destruct z as [|z0 z]; simpl in E2; injection E2 as ? E2; subst.
    + apply (Tail b). symmetry. exact E2.
    + assert (Hin : In z0 (a ++ z0 :: z))
        by (apply in_or_app; right; left; reflexivity).
      apply (all_in is_hash _ z0 Hh) in Hin. congruence.
  - destruct z as [|z0 z]; simpl in E2; injection E2 as ? E2; subst.
    + apply (Tail b). exact E2.
    + change (z ++ d :: Ch LF :: c :: b) with (z ++ [d] ++ Ch LF :: c :: b) in E2.
      rewrite app_assoc in E2.
      apply app_eq_app in E2. destruct E2 as (y & [[F1 F2]|[F1 F2]]).
      * destruct y as [|y0 y]; simpl in F2.
        -- rewrite <- F2 in Hl. inversion Hl as [|? ? _ Hl']; subst.
           inversion Hl'; subst. congruence.
        -- injection F2 as ? ?; subst.
           assert (Hin : In (Ch LF) ((z ++ [d]) ++ Ch LF :: y))
             by (apply in_or_app; right; left; reflexivity).
           apply (all_in is_dot _ _ Hd) in Hin. discriminate.
      * assert (Hin : In c l).
        { rewrite F2. apply in_or_app. right. right. left. reflexivity. }
        apply (all_in is_lf l c Hl) in Hin. congruence.
Qed.

Lemma starts_blank_heading_app t u :
  starts_blank_heading t -> starts_blank_heading (t ++ u).
Proof.
  intros (l & h & rest & -> & Hl & Hh).
  exists l, h, (rest ++ u). rewrite <- !app_assoc. auto.
Qed.

Lemma not_starts_blank_heading_hash h rest :
  is_heading h -> ~ starts_blank_heading (h ++ rest).
Proof.
  intros Hh (l & h2 & r2 & E & [Hne Hl] & _).
  destruct (heading_starts_with_hash h Hh) as (c & h' & -> & Hc).
  destruct l as [|d l]; [congruence|]. simpl in E. injection E as -> _.
  inversion Hl; subst. apply hash_not_lf in Hc. congruence.
Qed.

Lemma first_pass_no_leading t :
  ~ starts_blank_heading (replace re_first [Ref 1] t).
Proof.
  destruct (replace_re_first_spec t)
    as [[Hno ->]|(l & h & ys & _ & _ & Hh & _ & ->)].
  - intros (l & h & rest & -> & Hl & Hh).
    unfold has_match in Hno.
    apply (has_match_from_none re_first [] None) in Hno.
    rewrite prev_after_nil, match_re_first in Hno. simpl in Hno.
    exact (match_re_before_complete None l h rest Hl Hh Hno).
  - apply not_starts_blank_heading_hash. exact Hh.
Qed.

Lemma last_pass_no_trailing t :
  ~ ends_heading_blank (replace re_last [Ref 1] t).
Proof.
  destruct (replace_re_last_spec t)
    as [[Hno ->]|(pre & h & l & Ht & Hh & Hl & Hleft & ->)].
  - intros (pre & h & l & -> & Hh & Hl).
    unfold has_match in Hno.
    apply (has_match_from_none re_last pre None) in Hno.
    exact (match_re_last_complete _ h l Hh Hl Hno).
  - intros (pre2 & h2 & l2 & E & Hh2 & Hl2).
    apply app_eq_app in E. destruct E as (z & [[E1 E2]|[E1 E2]]).
    + destruct z as [|z0 z].
      * simpl in E2. rewrite app_nil_r in E1. subst.
        exact (heading_no_suffix _ [] h2 l2 Hh Hh2 Hl2 eq_refl).
      * apply (match_re_last_complete (prev_after None pre2) h2 (l2 ++ l)).
        -- exact Hh2.
        -- apply lf_run_app_r; assumption.
        -- rewrite app_assoc, E2, <- app_assoc.
           apply Hleft; [exact E1|discriminate].
    + exact (heading_no_suffix h z h2 l2 Hh Hh2 Hl2 E2).
Qed.

Lemma last_pass_keeps_start t :
  ~ starts_blank_heading t ->
  ~ starts_blank_heading (replace re_last [Ref 1] t).
Proof.
  intros Hn.
  destruct (replace_re_last_spec t)
    as [[_ ->]|(pre & h & l & Ht & _ & _ & _ & ->)]; [exact Hn|].
  intros H. apply Hn. rewrite Ht, app_assoc.
  apply starts_blank_heading_app. exact H.
Qed.

Lemma frontmatter_last y :
  is_frontmatter y -> exists y', y = y' ++ [Ch DASH].
Proof.
  intros (body & ->).
  exists (dashes ++ Ch LF :: body ++ [Ch DASH; Ch DASH]).
  rewrite <- !app_assoc. simpl. rewrite <- !app_assoc. reflexivity.
Qed.

Lemma frontmatter_first y :
  is_frontmatter y -> exists y', y = Ch DASH :: y'.
Proof. intros (body & ->). eexists. reflexivity. Qed.

Lemma yaml_pass_keeps_start options t :
  ~ starts_blank_heading t -> ~ starts_blank_heading (yaml_pass options t).
Proof.
  intros Hn.
  destruct (yaml_pass_spec options t)
    as [->|(_ & y & l & h & ys & _ & Hy & _ & _ & _ & ->)]; [exact Hn|].
  destruct (frontmatter_first y Hy) as (y' & ->).
  intros (l2 & h2 & r2 & E & [Hne Hl2] & _).
  destruct l2 as [|c l2]; [congruence|]. simpl in E. injection E as <- _.
  inversion Hl2; subst. discriminate.
Qed.

Lemma yaml_pass_keeps_end options t :
  ~ ends_heading_blank t -> ~ ends_heading_blank (yaml_pass options t).
Proof.
  intros Hn.
  destruct (yaml_pass_spec options t)
    as [->|(_ & y & l & h & ys & Ht & Hy & Hl & Hh & _ & ->)]; [exact Hn|].
  intros (pre3 & h3 & l3 & E & Hh3 & Hl3).
  assert (Later : forall z, h ++ ys = z ++ h3 ++ l3 -> False).
  { intros z Ez. apply Hn. exists (y ++ l ++ z), h3, l3.
    rewrite Ht, Ez, <- !app_assoc. auto. }
  destruct (frontmatter_last y Hy) as (y' & ->).
  destruct (heading_starts_with_hash h Hh) as (c & h' & Eh & Hc).
  replace ((y' ++ [Ch DASH]) ++ nl ++ h ++ ys)
    with (((y' ++ [Ch DASH]) ++ [Ch LF]) ++ h ++ ys) in E
    by (rewrite <- !app_assoc; reflexivity).
  apply app_eq_app in E. destruct E as (z & [[E1 E2]|[E1 E2]]).
  - destruct z as [|e z1 _] using rev_ind.
    + apply (Later []). simpl. symmetry. exact E2.
    + rewrite app_assoc in E1. apply app_inj_tail in E1.
      destruct E1 as [E1 <-].
      destruct z1 as [|e2 z2 _] using rev_ind.
      * simpl in E2.
        destruct (heading_starts_with_hash h3 Hh3) as (c3 & h3' & -> & Hc3).
        simpl in E2. injection E2 as -> _. discriminate.
      * rewrite app_assoc in E1. apply app_inj_tail in E1.
        destruct E1 as [_ <-].
        apply (heading_lf_no_break h3 l3 z2 (Ch DASH) c (h' ++ ys) Hh3 Hl3).
        -- rewrite E2, Eh, <- !app_assoc. reflexivity.
        -- reflexivity.
        -- apply hash_not_lf. exact Hc.
  - apply (Later z). exact E2.
Qed.

(** What the two last passes leave at the ends of the text. *)
Lemma edge_yaml_ends options t :
  ~ starts_blank_heading (yaml_pass options (edge_pass t))
  /\ ~ ends_heading_blank (yaml_pass options (edge_pass t)).
Proof.
  split.
  - apply yaml_pass_keeps_start. unfold edge_pass.
    apply last_pass_keeps_start, first_pass_no_leading.
  - apply yaml_pass_keeps_end. unfold edge_pass. apply last_pass_no_trailing.
Qed.

(** ** Blank sections *)

Lemma no_match_no_blank_section t :
  has_match re_blank_section t = false -> ~ blank_between_headings t.
Proof.
  intros Hno (pre & h1 & l & h2 & rest & -> & H1 & Hl & Hlen & H2).
  unfold has_match in Hno.
  apply (has_match_from_none re_blank_section pre None) in Hno.
  exact (match_re_blank_section_complete _ h1 l h2 rest H1 Hl Hlen H2 Hno).
Qed.

Lemma blank_between_headings_ctx a t b :
  blank_between_headings t -> blank_between_headings (a ++ t ++ b).
Proof.
  intros (pre & h1 & l & h2 & rest & -> & H).
  exists (a ++ pre), h1, l, h2, (rest ++ b).
  rewrite <- !app_assoc. auto.
Qed.

Lemma edge_pass_no_blank_section t :
  ~ blank_between_headings t -> ~ blank_between_headings (edge_pass t).
Proof.
  intros Hn. unfold edge_pass.
  assert (H1 : ~ blank_between_headings (replace re_first [Ref 1] t)).
  { destruct (replace_re_first_spec t)
      as [[_ ->]|(l & h & ys & Ht & _ & _ & _ & ->)]; [exact Hn|].
    intros H. apply Hn. rewrite Ht.
    apply (blank_between_headings_ctx l _ []) in H.
    rewrite app_nil_r in H. exact H. }
  destruct (replace_re_last_spec (replace re_first [Ref 1] t))
    as [[_ ->]|(pre & h & l & Ht & _ & _ & _ & ->)]; [exact H1|].
  intros H. apply H1. rewrite Ht.
  apply (blank_between_headings_ctx [] _ l) in H.
  simpl in H. rewrite <- app_assoc in H. exact H.
Qed.

(** The shortest heading at the start of a heading. *)
Lemma heading_core h :
  is_heading h ->
  exists hs w ds, h = (hs ++ [w]) ++ ds /\ is_heading (hs ++ [w])
                  /\ all is_hash hs /\ hs <> [] /\ is_space w = true.
Proof.
  intros (hs & w & ds & -> & Hne & Hh & Hw & Hd).
  exists hs, w, ds. split; [rewrite <- app_assoc; reflexivity|].
  split; [|auto]. exists hs, w, []. repeat split; auto. constructor.
Qed.

(** In a heading, empty lines and the start of a heading, no LF comes
    after a symbol that is neither a hash nor LF and before a hash. *)
Lemma blank_section_no_break h1 l hs2 w2 a d c b :
  is_heading h1 -> is_lf_run l -> 2 <= length l -> all is_hash hs2 ->
  (h1 ++ l) ++ hs2 ++ [w2] = (a ++ [d; Ch LF]) ++ c :: b ->
  is_hash d = false -> is_lf d = false -> is_hash c = true -> False.
Proof.
  intros H1 Hl Hlen Hh2 E Hd1 Hd2 Hc.
  assert (End : h1 ++ l = a ++ [d; Ch LF] -> False).
  { intros E1. destruct Hl as [Hne Hall].
    destruct l as [|e1 l' _] using rev_ind; [congruence|].
    destruct l' as [|e2 l'' _] using rev_ind.
    { simpl in Hlen. lia. }
    replace (h1 ++ (l'' ++ [e2]) ++ [e1]) with ((h1 ++ l'' ++ [e2]) ++ [e1]) in E1
      by (rewrite <- !app_assoc; reflexivity).
    replace (a ++ [d; Ch LF]) with ((a ++ [d]) ++ [Ch LF]) in E1
      by (rewrite <- !app_assoc; reflexivity).
    apply app_inj_tail in E1. destruct E1 as [E1 _].
    rewrite !app_assoc in E1. apply app_inj_tail in E1. destruct E1 as [_ ->].
    apply Forall_app in Hall. destruct Hall as [Hall _].
    apply Forall_app in Hall. destruct Hall as [_ Hall].
    inversion Hall; subst. congruence. }
  apply app_eq_app in E. destruct E as (z & [[E1 E2]|[E1 E2]]).
  - destruct z as [|z0 z].
    + rewrite app_nil_r in E1. exact (End E1).
    + simpl in E2. injection E2 as <- E2.
      apply (heading_lf_no_break h1 l a d c z H1 Hl); auto.
      * rewrite E1, <- !app_assoc. reflexivity.
      * apply hash_not_lf. exact Hc.
  - destruct z as [|e z' _] using rev_ind.
    + rewrite app_nil_r in E1. symmetry in E1. exact (End E1).
    + replace (a ++ [d; Ch LF]) with ((a ++ [d]) ++ [Ch LF]) in E1
        by (rewrite <- !app_assoc; reflexivity).
      rewrite app_assoc in E1. apply app_inj_tail in E1. destruct E1 as [_ <-].
      assert (Hin : In (Ch LF) hs2).
      { destruct b as [|e b' _] using rev_ind.
        - replace ((z' ++ [Ch LF]) ++ [c]) with ((z' ++ [Ch LF]) ++ [c]) in E2
            by reflexivity.
          apply app_inj_tail in E2. destruct E2 as [-> _].
          apply in_or_app. right. left. reflexivity.
        - replace ((z' ++ [Ch LF]) ++ c :: b' ++ [e])
            with (((z' ++ [Ch LF]) ++ c :: b') ++ [e]) in E2
            by (rewrite <- !app_assoc; reflexivity).
          apply app_inj_tail in E2. destruct E2 as [-> _].
          apply in_or_app. left. apply in_or_app. right. left. reflexivity. }
      apply (all_in is_hash hs2 _ Hh2) in Hin. discriminate.
Qed.

Lemma yaml_pass_no_blank_section options t :
  ~ blank_between_headings t -> ~ blank_between_headings (yaml_pass options t).
Proof.
  intros Hn.
  destruct (yaml_pass_spec options t)
    as [->|(_ & y & l & h & ys & Ht & Hy & Hl & Hh & _ & ->)]; [exact Hn|].
  intros (pre & h1 & l1 & h2 & rest & E & H1 & Hl1 & Hlen & H2).
  destruct (heading_core h2 H2) as (hs2 & w2 & ds2 & -> & H2' & Hhs2 & _ & _).
  destruct Hl as [Hne Hl]. destruct l as [|e l']; [congruence|].
  inversion Hl as [|? ? He Hl']; subst. apply is_lf_eq in He. subst e.
  (* an occurrence in [t] is excluded *)
  assert (Occ : forall a b, y ++ (Ch LF :: l') ++ h ++ ys
                            = a ++ h1 ++ l1 ++ (hs2 ++ [w2]) ++ b -> False).
  { intros a b Eab. apply Hn. exists a, h1, l1, (hs2 ++ [w2]), b. auto. }
  replace (y ++ nl ++ h ++ ys) with ((y ++ [Ch LF]) ++ h ++ ys) in E
    by (rewrite <- !app_assoc; reflexivity).
  replace (pre ++ h1 ++ l1 ++ ((hs2 ++ [w2]) ++ ds2) ++ rest)
    with (pre ++ ((h1 ++ l1) ++ hs2 ++ [w2]) ++ ds2 ++ rest) in E
    by (rewrite <- !app_assoc; reflexivity).
  set (X := (h1 ++ l1) ++ hs2 ++ [w2]) in *.
  assert (OccX : forall a b, y ++ (Ch LF :: l') ++ h ++ ys = a ++ X ++ b -> False).
  { intros a b Eab. apply (Occ a b). rewrite Eab. unfold X.
    rewrite <- !app_assoc. reflexivity. }
  apply app_eq_app in E. destruct E as (z & [[E1 E2]|[E1 E2]]).
  - (* the occurrence starts within the frontmatter and its LF *)
    symmetry in E2. apply app_eq_app in E2.
    destruct E2 as (z2 & [[F1 F2]|[F1 F2]]).
    + (* X within z *)
      apply (OccX pre (z2 ++ l' ++ h ++ ys)).
      replace (y ++ (Ch LF :: l') ++ h ++ ys)
        with ((y ++ [Ch LF]) ++ l' ++ h ++ ys)
        by (rewrite <- !app_assoc; reflexivity).
      rewrite E1, F1, <- !app_assoc. reflexivity.
    + destruct z2 as [|c z2'].
      * rewrite app_nil_r in F1. subst z.
        apply (OccX pre (l' ++ h ++ ys)).
        replace (y ++ (Ch LF :: l') ++ h ++ ys)
          with ((y ++ [Ch LF]) ++ l' ++ h ++ ys)
          by (rewrite <- !app_assoc; reflexivity).
        rewrite E1, <- !app_assoc. reflexivity.
      * destruct (heading_starts_with_hash h Hh) as (c0 & h' & Eh & Hc).
        rewrite Eh in F2. simpl in F2. injection F2 as <- F2.
        destruct z as [|e z1 _] using rev_ind.
        -- (* the occurrence starts at the heading *)
           simpl in F1. rewrite app_nil_r in E1.
           apply (OccX (y ++ Ch LF :: l') (ds2 ++ rest)).
           rewrite F1, Eh. simpl. rewrite <- !app_assoc. simpl.
           rewrite F2. reflexivity.
        -- rewrite app_assoc in E1. apply app_inj_tail in E1.
           destruct E1 as [E1 <-].
           destruct z1 as [|e2 z1' _] using rev_ind.
           ++ simpl in F1. unfold X in F1.
              destruct (heading_starts_with_hash h1 H1) as (c1 & h1' & -> & Hc1).
              simpl in F1. injection F1 as -> _. discriminate.
           ++ destruct (frontmatter_last y Hy) as (y' & Ey).
              rewrite Ey, app_assoc in E1. apply app_inj_tail in E1.
              destruct E1 as [_ <-].
              apply (blank_section_no_break h1 l1 hs2 w2 z1' (Ch DASH) c0 z2'
                       H1 Hl1 Hlen Hhs2).
              ** fold X. rewrite F1, <- !app_assoc. reflexivity.
              ** reflexivity.
              ** reflexivity.
              ** exact Hc.
  - (* the occurrence starts after the LF that follows the frontmatter *)
    apply (OccX (y ++ Ch LF :: l' ++ z) (ds2 ++ rest)).
    rewrite E2, <- !app_assoc. simpl. rewrite <- !app_assoc. reflexivity.
Qed.

Lemma rewrite_spec options t res :
  rewrite options t = Some res ->
  exists mid,
    blank_section_pass options (spacing_pass options t) = Some mid
    /\ res = yaml_pass options (edge_pass mid).
Proof.
  unfold rewrite.
  destruct (blank_section_pass options (spacing_pass options t)) as [mid|];
    [|discriminate].
  intros H. injection H as <-. exists mid. auto.
Qed.

Lemma last_pass_no_newline t c :
  is_lf c = false -> replace re_last [Ref 1] (t ++ [c]) = t ++ [c].
Proof.
  intros Hc.
  destruct (replace_re_last_spec (t ++ [c]))
    as [[_ H]|(pre & h & l & Ht & _ & Hl & _)]; [exact H|].
  destruct (lf_run_last l Hl) as (l' & ->).
  rewrite !app_assoc in Ht. apply app_inj_tail in Ht.
  destruct Ht as [_ ->]. discriminate.
Qed.

(** * The spacing of heading lines *)

(** ** Lines and separators *)

Lemma dot_or_terminator c : is_dot c = true \/ is_line_terminator c = true.
Proof. unfold is_dot. destruct (is_line_terminator c); auto. Qed.

(** Every text is a separator followed by lines with their separators. *)
Lemma parse_exists t :
  exists s0 b, t = s0 ++ render b /\ is_sep s0 /\ wf_body b.
Proof.
  induction t as [|c t IH].
  - exists [], []. split; [reflexivity|]. split; constructor.
  - destruct IH as (s0 & b & -> & Hs0 & Hb).
    destruct (dot_or_terminator c) as [Hc|Hc].
    + destruct s0 as [|c0 s0].
      * destruct b as [|[l s] b].
        -- exists [], [([c], [])].
           split; [reflexivity|]. split; [constructor|].
           apply wf_cons; [|constructor|reflexivity|constructor].
           split; [discriminate|]. constructor; [exact Hc|constructor].
        -- exists [], ((c :: l, s) :: b).
           inversion Hb as [|? ? ? Hl Hs He Hb']; subst.
           split; [reflexivity|]. split; [constructor|].
           apply wf_cons; try assumption.
           split; [discriminate|]. constructor; [exact Hc|apply Hl].
      * exists [], (([c], c0 :: s0) :: b).
        split; [reflexivity|]. split; [constructor|].
        apply wf_cons; try assumption; [|discriminate].
        split; [discriminate|]. constructor; [exact Hc|constructor].
    + exists (c :: s0), b.
      split; [reflexivity|]. split; [|exact Hb].
      constructor; assumption.
Qed.

Lemma render_starts_line_after l s b :
  wf_body ((l, s) :: b) ->
  starts_line is_line_terminator (s ++ render b) = true.
Proof.
  intros H. inversion H as [|? ? ? Hl Hs He Hb]; subst.
  destruct s as [|c s].
  - rewrite (He eq_refl). reflexivity.
  - inversion Hs; subst. simpl. assumption.
Qed.

Lemma starts_line_stops_dot t :
  starts_line is_line_terminator t = true -> stops is_dot t.
Proof.
  destruct t as [|c t]; [intros; exact I|]. simpl. unfold is_dot.
  intros ->. reflexivity.
Qed.

(** ** Heading lines *)

Lemma span_hash_line l :
  hash_only l = false ->
  exists hs w l', l = hs ++ w :: l' /\ all is_hash hs /\ is_hash w = false.
Proof.
  induction l as [|c l IH]; simpl; [discriminate|].
  destruct (is_hash c) eqn:E; simpl.
  - intros H. destruct (IH H) as (hs & w & l' & -> & Hh & Hw).
    exists (c :: hs), w, l'. repeat split; auto. constructor; assumption.
  - intros _. exists [], c, l. repeat split; auto. constructor.
Qed.

(** At a line that is not made of hashes only, the heading pattern reads
    the whole line or nothing. *)
Lemma heading_split_line l rest :
  is_line l -> hash_only l = false -> stops is_dot rest ->
  heading_split (l ++ rest) = if hline l then Some (l, rest) else None.
Proof.
  intros [_ Hd] Hh Hr.
  destruct (span_hash_line l Hh) as (hs & w & l' & -> & Hhs & Hw).
  apply Forall_app in Hd. destruct Hd as [_ Hd].
  inversion Hd as [|? ? Hwd Hd']; subst.
  unfold hline, heading_split. rewrite <- app_assoc. simpl.
  rewrite (@span_unique is_hash hs (w :: l' ++ rest) Hhs Hw).
  rewrite (@span_unique is_hash hs (w :: l') Hhs Hw).
  destruct hs as [|h0 hs]; [reflexivity|].
  destruct (is_space w); [|reflexivity].
  rewrite (@span_unique is_dot l' rest Hd' Hr).
  pose proof (@span_unique is_dot l' [] Hd' I) as E.
  rewrite app_nil_r in E. rewrite E.
  reflexivity.
Qed.

Lemma terminator_not_hash c : is_line_terminator c = true -> is_hash c = false.
Proof.
  intros H. destruct (is_hash c) eqn:E; [|reflexivity].
  apply hash_is_dot in E. unfold is_dot in E. rewrite H in E. discriminate.
Qed.

Lemma stops_render b : wf_body b -> stops is_lf (render b).
Proof.
  intros H. destruct H as [|l s b [Hne Hd] _ _ _]; [exact I|].
  destruct l as [|c l]; [congruence|]. simpl.
  inversion Hd; subst. apply dot_not_lf. assumption.
Qed.

Lemma span_app_stops p a t :
  stops p t -> span p (a ++ t) = (fst (span p a), snd (span p a) ++ t).
Proof.
  intros Ht. induction a as [|c a IH]; simpl.
  - destruct t as [|d t]; [reflexivity|]. simpl in *. rewrite Ht. reflexivity.
  - destruct (p c); [|reflexivity].
    rewrite IH. destruct (span p a). reflexivity.
Qed.

(** ** Scanning is deterministic *)

Lemma Scan_det r out p t res :
  Scan r out p t res -> forall res', Scan r out p t res' -> res = res'.
Proof.
  induction 1 as [p|p c tl res Hm _ IH|p seg s res Hm Hne Hp _ IH];
    intros res' H'.
  - inversion H'; subst; [reflexivity|].
    destruct seg; [congruence|discriminate].
  - inversion H'; subst.
    + f_equal. apply IH. assumption.
    + match goal with
      | E : _ ++ rest _ = _ :: _, M : match_at _ _ (_ ++ _) = Some _ |- _ =>
          rewrite E in M; congruence
      end.
  - inversion H'; subst.
    + destruct seg; [congruence|discriminate].
    + match goal with
      | E : _ :: _ = _ ++ rest _, M : match_at _ _ (_ :: _) = None |- _ =>
          rewrite E in M; congruence
      end.
    + match goal with
      | E : _ ++ rest _ = _ ++ rest _, M : match_at _ _ (_ ++ rest _) = Some _
        |- _ =>
          rewrite E in M; rewrite Hm in M; injection M as <-;
          apply app_inv_tail in E; subst
      end.
      f_equal. apply IH. assumption.
Qed.

(** Where the expression matches at no position of [pre], the scan copies
    [pre]. *)
Lemma scan_copy_all r out pre : forall p t res,
  (forall c, In c pre -> forall q tl, match_at r q (c :: tl) = None) ->
  Scan r out (prev_after p pre) t res ->
  Scan r out p (pre ++ t) (pre ++ res).
Proof.
  induction pre as [|c pre IH]; intros p t res Hn Hs; [exact Hs|].
  simpl. apply scan_copy; [apply Hn; left; reflexivity|].
  apply IH; [intros d Hd; apply Hn; right; exact Hd|].
  rewrite prev_after_cons in Hs. exact Hs.
Qed.

(** The same where the expression only matches at the start of a line. *)
Lemma scan_copy_inner r out l : forall d t res,
  (forall c tl, is_dot c = true -> match_at r (Some c) tl = None) ->
  all is_dot (d :: l) ->
  Scan r out (prev_after (Some d) l) t res ->
  Scan r out (Some d) (l ++ t) (l ++ res).
Proof.
  induction l as [|c l IH]; intros d t res Hn Hd Hs; [exact Hs|].
  inversion Hd as [|? ? Hd1 Hd2]; subst.
  simpl. apply scan_copy; [apply Hn; exact Hd1|].
  apply IH; [exact Hn|exact Hd2|].
  rewrite prev_after_cons in Hs. exact Hs.
Qed.

(** ** The passes, separator by separator *)

Lemma at_bol_after_sep p s e b :
  is_sep s -> at_line_start p s (e :: b) ->
  at_bol true (prev_after p s) = true.
Proof.
  intros Hs Hp. destruct s as [|c s] using rev_ind.
  - destruct (Hp eq_refl) as [H|H]; [discriminate|exact H].
  - rewrite prev_after_snoc. apply Forall_app in Hs. destruct Hs as [_ Hs].
    inversion Hs; subst. assumption.
Qed.

Lemma at_line_start_wf p l s b : wf_body ((l, s) :: b) -> at_line_start p s b.
Proof.
  intros H. inversion H; subst. intros E. left. auto.
Qed.

Lemma stops_dot_after l s b : wf_body ((l, s) :: b) -> stops is_dot (s ++ render b).
Proof.
  intros H. apply starts_line_stops_dot.
  apply (render_starts_line_after l s b H).
Qed.

(** *** Blank lines around every heading *)

Lemma match_around_sep c q tl :
  is_line_terminator c = true -> match_at re_around q (c :: tl) = None.
Proof.
  intros H. rewrite match_re_around.
  rewrite heading_split_not_hash by (apply terminator_not_hash; exact H).
  destruct (at_bol true q); reflexivity.
Qed.

Lemma match_around_inner c tl :
  is_dot c = true -> match_at re_around (Some c) tl = None.
Proof.
  intros H. rewrite match_re_around. unfold is_dot in H. simpl.
  destruct (is_line_terminator c); [discriminate|reflexivity].
Qed.

Lemma match_around_line q l rest :
  at_bol true q = true -> is_line l -> hash_only l = false ->
  stops is_dot rest ->
  match_at re_around q (l ++ rest)
  = if hline l then Some (MState (prev_after q l) rest [(1, l)]) else None.
Proof.
  intros Hq Hl Hh Hr. rewrite match_re_around, Hq.
  rewrite (heading_split_line l rest Hl Hh Hr).
  destruct (hline l); reflexivity.
Qed.

Lemma scan_around b : forall p s,
  is_sep s -> wf_body b -> no_hash_line b -> at_line_start p s b ->
  Scan re_around (fun _ cs => subst [Lit (nl ++ nl); Ref 1; Lit (nl ++ nl)] cs)
    p (s ++ render b)
    (around_sep false s (next_heading b) ++ render (resep around_sep b)).
Proof.
  induction b as [|[l s'] b IH]; intros p s Hs Hb Hn Hp.
  - simpl. unfold around_sep. simpl. rewrite (app_nil_r (s ++ [])).
    apply scan_copy_all; [|constructor].
    intros c Hc q tl. apply match_around_sep.
    unfold is_sep, all in Hs. rewrite Forall_forall in Hs. auto.
  - pose proof (at_bol_after_sep p s (l, s') b Hs Hp) as Hq.
    inversion Hb as [|? ? ? Hl Hs' He Hb']; subst.
    inversion Hn as [|? ? Hh Hn']; subst. simpl in Hh.
    pose proof (stops_dot_after l s' b Hb) as Hr.
    pose proof (match_around_line (prev_after p s) l (s' ++ render b)
                  Hq Hl Hh Hr) as Hm.
    specialize (IH (prev_after (prev_after p s) l) s' Hs' Hb' Hn'
                  (at_line_start_wf _ l s' b Hb)).
    cbn [render resep next_heading]. unfold around_sep at 1 2. cbn [app].
    rewrite <- !app_assoc.
    apply scan_copy_all.
    { intros c Hc q tl. apply match_around_sep.
      unfold is_sep, all in Hs. rewrite Forall_forall in Hs. auto. }
    destruct (hline l) eqn:Hl1.
    + pose proof (@scan_match re_around _ (prev_after p s) l
                    (MState (prev_after (prev_after p s) l) (s' ++ render b)
                       [(1, l)]) _ Hm (proj1 Hl) eq_refl IH) as G.
      refine (eq_ind _ (fun o => Scan _ _ _ _ o) G _ _).
      unfold around_sep. simpl. rewrite <- !app_assoc. reflexivity.
    + destruct l as [|d l]; [destruct Hl; congruence|].
      rewrite prev_after_cons in IH.
      pose proof (@scan_copy _ _ _ _ _ _ Hm (scan_copy_inner _ _ l d _ _
                    match_around_inner (proj2 Hl) IH)) as G.
      refine (eq_ind _ (fun o => Scan _ _ _ _ o) G _ _).
      unfold around_sep. cbn [app]. rewrite <- ?app_assoc. reflexivity.
Qed.

(** *** Two newlines before every heading *)

Lemma forallb_all p l : forallb p l = true <-> all p l.
Proof.
  unfold all. rewrite forallb_forall, Forall_forall. reflexivity.
Qed.

Lemma match_before_run q s T :
  is_lf_run s -> stops is_lf T ->
  match_at re_before q (s ++ T)
  = match heading_split T with
    | Some (h, ys) => Some (MState (prev_after (prev_after q s) h) ys [(1, h)])
    | None => None
    end.
Proof.
  intros Hs HT. rewrite match_re_before.
  rewrite (@lf_run_complete s T Hs HT). reflexivity.
Qed.

Lemma span_lf_mixed T s :
  is_sep s -> forallb is_lf s = false ->
  exists l x r, span is_lf (s ++ T) = (l, x :: r) /\ is_hash x = false.
Proof.
  induction s as [|c s IH]; intros Hs Hf; [discriminate|].
  inversion Hs as [|? ? Hc Hs']; subst. simpl in *.
  destruct (is_lf c) eqn:E.
  - destruct (IH Hs' Hf) as (l & x & r & -> & Hx).
    exists (c :: l), x, r. split; [reflexivity|exact Hx].
  - exists [], c, (s ++ T). split; [reflexivity|].
    apply terminator_not_hash. exact Hc.
Qed.

Lemma match_before_mixed q s T :
  is_sep s -> forallb is_lf s = false ->
  match_at re_before q (s ++ T) = None.
Proof.
  intros Hs Hf. rewrite match_re_before. unfold lf_run.
  destruct (span_lf_mixed T s Hs Hf) as (l & x & r & -> & Hx).
  destruct l; [reflexivity|].
  rewrite heading_split_not_hash by exact Hx. reflexivity.
Qed.

Lemma match_before_not_lf q c tl :
  is_lf c = false -> match_at re_before q (c :: tl) = None.
Proof.
  intros H. rewrite match_re_before. unfold lf_run. simpl. rewrite H.
  reflexivity.
Qed.

Lemma scan_before_line out l : forall p t res,
  all is_dot l ->
  Scan re_before out (prev_after p l) t res ->
  Scan re_before out p (l ++ t) (l ++ res).
Proof.
  intros p t res Hl. apply scan_copy_all.
  intros c Hc q tl. apply match_before_not_lf, dot_not_lf.
  unfold all in Hl. rewrite Forall_forall in Hl. auto.
Qed.

(** Before a text that does not start with a heading, separators stay. *)
Lemma scan_before_sep_plain out T X s : forall p,
  is_sep s -> stops is_lf T -> heading_split T = None ->
  Scan re_before out (prev_after p s) T X ->
  Scan re_before out p (s ++ T) (s ++ X).
Proof.
  induction s as [|c s IH]; intros p Hs HT Hh HX; [exact HX|].
  inversion Hs as [|? ? Hc Hs']; subst.
  rewrite prev_after_cons in HX.
  cbn [app]. apply scan_copy; [|apply IH; assumption].
  destruct (forallb is_lf (c :: s)) eqn:E.
  - change (c :: s ++ T) with ((c :: s) ++ T).
    rewrite match_before_run, Hh; [reflexivity| |exact HT].
    split; [discriminate|]. apply forallb_all. exact E.
  - apply (match_before_mixed p (c :: s) T Hs E).
Qed.

(** Before a heading line, the trailing run of LF becomes two LF. *)
Lemma scan_before_sep_heading l R X s : forall p,
  is_sep s -> is_line l -> heading_split (l ++ R) = Some (l, R) ->
  Scan re_before (fun _ cs => subst [Lit (nl ++ nl); Ref 1] cs)
    (prev_after (prev_after p s) l) R X ->
  Scan re_before (fun _ cs => subst [Lit (nl ++ nl); Ref 1] cs)
    p (s ++ l ++ R) (trim_before s ++ l ++ X).
Proof.
  induction s as [|c s IH]; intros p Hs Hl Hh HX.
  - cbn [app trim_before]. apply scan_before_line; [apply Hl|exact HX].
  - inversion Hs as [|? ? Hc Hs']; subst.
    assert (HT : stops is_lf (l ++ R)).
    { destruct Hl as [Hne Hd]. destruct l as [|d l]; [congruence|].
      inversion Hd; subst. simpl. apply dot_not_lf. assumption. }
    cbn [trim_before]. destruct (forallb is_lf (c :: s)) eqn:E.
    + assert (Hrun : is_lf_run (c :: s)).
      { split; [discriminate|]. apply forallb_all. exact E. }
      pose proof (match_before_run p (c :: s) (l ++ R) Hrun HT) as Hm.
      rewrite Hh in Hm.
      assert (Hm' : match_at re_before p (((c :: s) ++ l) ++ R)
                    = Some (MState (prev_after (prev_after p (c :: s)) l) R
                              [(1, l)])).
      { rewrite <- app_assoc. exact Hm. }
      assert (Hne : (c :: s) ++ l <> []) by discriminate.
      pose proof (@scan_match re_before _ p ((c :: s) ++ l)
                    (MState (prev_after (prev_after p (c :: s)) l) R [(1, l)])
                    X Hm' Hne (eq_sym (prev_after_app p (c :: s) l)) HX) as G.
      cbn [rest] in G. rewrite <- app_assoc in G.
      refine (eq_ind _ (fun o => Scan _ _ _ _ o) G _ _).
      simpl. rewrite app_nil_r. reflexivity.
    + rewrite prev_after_cons in HX.
      cbn [app]. apply scan_copy; [|apply IH; assumption].
      apply (match_before_mixed p (c :: s) (l ++ R) Hs E).
Qed.

Lemma scan_before b : forall p s,
  is_sep s -> wf_body b -> no_hash_line b ->
  Scan re_before (fun _ cs => subst [Lit (nl ++ nl); Ref 1] cs)
    p (s ++ render b)
    (before_sep false s (next_heading b) ++ render (resep before_sep b)).
Proof.
  induction b as [|[l s'] b IH]; intros p s Hs Hb Hn.
  - simpl. apply scan_before_sep_plain; try assumption;
      [exact I|reflexivity|constructor].
  - inversion Hb as [|? ? ? Hl Hs' He Hb']; subst.
    inversion Hn as [|? ? Hh Hn']; subst. simpl in Hh.
    pose proof (stops_dot_after l s' b Hb) as Hr.
    pose proof (heading_split_line l (s' ++ render b) Hl Hh Hr) as Hsplit.
    specialize (IH (prev_after (prev_after p s) l) s' Hs' Hb' Hn').
    cbn [render resep next_heading]. unfold before_sep at 1 2.
    destruct (hline l) eqn:Hl1.
    + apply scan_before_sep_heading; assumption.
    + apply scan_before_sep_plain; try assumption.
      * destruct Hl as [Hne Hd]. destruct l as [|d l]; [congruence|].
        inversion Hd; subst. simpl. apply dot_not_lf. assumption.
      * apply scan_before_line; [apply Hl|exact IH].
Qed.

(** *** Two newlines after every heading *)

Lemma match_after_sep c q tl :
  is_line_terminator c = true -> match_at re_after q (c :: tl) = None.
Proof.
  intros H. rewrite match_re_after.
  rewrite heading_split_not_hash by (apply terminator_not_hash; exact H).
  destruct (at_bol true q); reflexivity.
Qed.

Lemma match_after_inner c tl :
  is_dot c = true -> match_at re_after (Some c) tl = None.
Proof.
  intros H. rewrite match_re_after. unfold is_dot in H. simpl.
  destruct (is_line_terminator c); [discriminate|reflexivity].
Qed.

Lemma match_after_line q l s T :
  at_bol true q = true -> is_line l -> hash_only l = false ->
  stops is_dot (s ++ T) -> stops is_lf T ->
  match_at re_after q (l ++ s ++ T)
  = if hline l
    then match span is_lf s with
         | ([], _) => None
         | (c :: lfs, r) =>
             Some (MState (prev_after (prev_after q l) (c :: lfs)) (r ++ T)
                     [(1, l)])
         end
    else None.
Proof.
  intros Hq Hl Hh Hr HT. rewrite match_re_after, Hq.
  rewrite (heading_split_line l (s ++ T) Hl Hh Hr).
  destruct (hline l); [|reflexivity].
  unfold lf_run. rewrite (span_app_stops is_lf s T HT).
  destruct (span is_lf s) as [[|c lfs] r]; reflexivity.
Qed.

Lemma sep_suffix a b : is_sep (a ++ b) -> is_sep b.
Proof. intros H. apply Forall_app in H. apply H. Qed.

Lemma span_eq p t : t = fst (span p t) ++ snd (span p t).
Proof. apply span_spec. Qed.

Lemma scan_after b : forall p s,
  is_sep s -> wf_body b -> no_hash_line b -> at_line_start p s b ->
  Scan re_after (fun _ cs => subst [Ref 1; Lit (nl ++ nl)] cs)
    p (s ++ render b)
    (after_sep false s (next_heading b) ++ render (resep after_sep b)).
Proof.
  induction b as [|[l s'] b IH]; intros p s Hs Hb Hn Hp.
  - simpl. apply scan_copy_all; [|constructor].
    intros c Hc q tl. apply match_after_sep.
    unfold is_sep, all in Hs. rewrite Forall_forall in Hs. auto.
  - pose proof (at_bol_after_sep p s (l, s') b Hs Hp) as Hq.
    inversion Hb as [|? ? ? Hl Hs' He Hb']; subst.
    inversion Hn as [|? ? Hh Hn']; subst. simpl in Hh.
    pose proof (stops_dot_after l s' b Hb) as Hr.
    pose proof (match_after_line (prev_after p s) l s' (render b)
                  Hq Hl Hh Hr (stops_render b Hb')) as Hm.
    cbn [render resep next_heading]. unfold after_sep at 1 2.
    apply scan_copy_all.
    { intros c Hc q tl. apply match_after_sep.
      unfold is_sep, all in Hs. rewrite Forall_forall in Hs. auto. }
    assert (Hcopy :
      match_at re_after (prev_after p s) (l ++ s' ++ render b) = None ->
      Scan re_after (fun _ cs => subst [Ref 1; Lit (nl ++ nl)] cs)
        (prev_after p s) (l ++ s' ++ render b)
        (l ++ s' ++ render (resep after_sep b))).
    { intros Hnone.
      specialize (IH (prev_after (prev_after p s) l) s' Hs' Hb' Hn'
                    (at_line_start_wf _ l s' b Hb)).
      destruct l as [|d l]; [destruct Hl; congruence|].
      rewrite prev_after_cons in IH.
      exact (@scan_copy _ _ _ _ _ _ Hnone (scan_copy_inner _ _ l d _ _
               match_after_inner (proj2 Hl) IH)). }
    destruct (hline l) eqn:Hl1; [|exact (Hcopy Hm)].
    unfold trim_after. pose proof (span_eq is_lf s') as Hsp.
    destruct (span is_lf s') as [[|c lfs] r] eqn:E; [exact (Hcopy Hm)|].
    cbn [fst snd] in Hsp.
    assert (Hr' : is_sep r) by (rewrite Hsp in Hs'; exact (sep_suffix _ _ Hs')).
    assert (Hstart : at_line_start
                       (prev_after (prev_after (prev_after p s) l) (c :: lfs))
                       r b).
    { intros _. right.
      destruct (span_spec is_lf s') as (_ & Hall & _). rewrite E in Hall.
      cbn [fst] in Hall.
      destruct lfs as [|x lfs] using rev_ind.
      - inversion Hall; subst. apply lf_terminates. assumption.
      - rewrite app_comm_cons, prev_after_snoc.
        change (c :: lfs ++ [x]) with ((c :: lfs) ++ [x]) in Hall.
        apply Forall_app in Hall. destruct Hall as [_ Hall].
        inversion Hall; subst. apply lf_terminates. assumption. }
    specialize (IH _ r Hr' Hb' Hn' Hstart).
    assert (Hm' : match_at re_after (prev_after p s)
                    ((l ++ c :: lfs) ++ r ++ render b)
                  = Some (MState
                            (prev_after (prev_after (prev_after p s) l) (c :: lfs))
                            (r ++ render b) [(1, l)])).
    { rewrite <- Hm, Hsp, <- !app_assoc. reflexivity. }
    assert (Hne : l ++ c :: lfs <> []) by (destruct l; discriminate).
    pose proof (@scan_match re_after _ (prev_after p s) (l ++ c :: lfs)
                  (MState
                     (prev_after (prev_after (prev_after p s) l) (c :: lfs))
                     (r ++ render b) [(1, l)]) _
                  Hm' Hne (eq_sym (prev_after_app _ l (c :: lfs))) IH) as G.
    cbn [rest caps] in G. rewrite Hsp.
    refine (eq_ind _ (fun t => Scan _ _ _ t _)
              (eq_ind _ (fun o => Scan _ _ _ _ o) G _ _) _ _).
    + unfold after_sep. simpl. rewrite <- ?app_assoc. reflexivity.
    + rewrite <- !app_assoc. reflexivity.
Qed.

(** *** The three passes together *)

Lemma next_heading_resep f b : next_heading (resep f b) = next_heading b.
Proof. destruct b as [|[l s] b]; reflexivity. Qed.

Lemma resep_resep f g b :
  resep f (resep g b) = resep (fun hp s hn => f hp (g hp s hn) hn) b.
Proof.
  induction b as [|[l s] b IH]; [reflexivity|].
  simpl. rewrite IH, next_heading_resep. reflexivity.
Qed.

Lemma no_hash_line_resep f b : no_hash_line b -> no_hash_line (resep f b).
Proof.
  induction 1 as [|[l s] b Hh _ IH]; [constructor|].
  simpl. constructor; assumption.
Qed.

Lemma wf_body_resep f b : keeps_sep f -> wf_body b -> wf_body (resep f b).
Proof.
  intros Hf. induction 1 as [|l s b Hl Hs He _ IH]; [constructor|].
  simpl. destruct (Hf (hline l) s (next_heading b) Hs) as [H1 H2].
  constructor; try assumption.
  intros E. rewrite (He (H2 E)). reflexivity.
Qed.

Lemma sep_nl2 : is_sep (nl ++ nl).
Proof. repeat constructor. Qed.

Lemma keeps_sep_around : keeps_sep around_sep.
Proof.
  intros hp s hn Hs. unfold around_sep. split.
  - apply Forall_app. split; [destruct hp; [exact sep_nl2|constructor]|].
    apply Forall_app. split; [exact Hs|].
    destruct hn; [exact sep_nl2|constructor].
  - intros E. apply app_eq_nil in E. destruct E as [_ E].
    apply app_eq_nil in E. apply E.
Qed.

Lemma trim_before_sep s :
  is_sep s -> is_sep (trim_before s) /\ (trim_before s = [] -> s = []).
Proof.
  induction s as [|c s IH]; intros Hs; [split; [constructor|reflexivity]|].
  inversion Hs as [|? ? Hc Hs']; subst. cbn [trim_before].
  destruct (forallb is_lf (c :: s)).
  - split; [exact sep_nl2|discriminate].
  - split; [|discriminate]. constructor; [exact Hc|apply IH; exact Hs'].
Qed.

Lemma keeps_sep_before : keeps_sep before_sep.
Proof.
  intros hp s hn Hs. unfold before_sep.
  destruct hn; [apply trim_before_sep; exact Hs|]. split; auto.
Qed.

Lemma trim_after_sep s :
  is_sep s -> is_sep (trim_after s) /\ (trim_after s = [] -> s = []).
Proof.
  intros Hs. unfold trim_after. pose proof (span_eq is_lf s) as E.
  destruct (span is_lf s) as [[|c l] r]; [split; auto|].
  split; [|discriminate]. cbn [fst snd] in E. rewrite E in Hs.
  apply Forall_app. split; [exact sep_nl2|exact (sep_suffix _ _ Hs)].
Qed.

Lemma keeps_sep_after : keeps_sep after_sep.
Proof.
  intros hp s hn Hs. unfold after_sep.
  destruct hp; [apply trim_after_sep; exact Hs|]. split; auto.
Qed.

Lemma replace_all_eq r tpl t res :
  nonempty_matches r ->
  Scan r (fun _ cs => subst tpl cs) None t res -> replace_all r tpl t = res.
Proof.
  intros Hn H.
  exact (Scan_det _ _ _ _ _ (@replace_all_scan r tpl t Hn) _ H).
Qed.

Lemma at_line_start_none s b : at_line_start None s b.
Proof. intros _. right. reflexivity. Qed.

Lemma spacing_bottom y e s0 b :
  is_sep s0 -> wf_body b -> no_hash_line b ->
  spacing_pass (Options true y e) (s0 ++ render b)
  = spaced false s0 (next_heading b) ++ render (resep spaced b).
Proof.
  intros Hs Hb Hn. unfold spacing_pass. cbn [bottom negb].
  rewrite (replace_all_eq _ _ _ _ nonempty_re_around
             (scan_around b None s0 Hs Hb Hn (at_line_start_none s0 b))).
  pose proof (proj1 (keeps_sep_around false s0 (next_heading b) Hs)) as Hs1.
  pose proof (wf_body_resep _ b keeps_sep_around Hb) as Hb1.
  pose proof (no_hash_line_resep around_sep b Hn) as Hn1.
  rewrite (replace_all_eq _ _ _ _ nonempty_re_before
             (scan_before _ None _ Hs1 Hb1 Hn1)).
  pose proof (proj1 (keeps_sep_before false _ (next_heading (resep around_sep b))
                      Hs1)) as Hs2.
  pose proof (wf_body_resep _ _ keeps_sep_before Hb1) as Hb2.
  pose proof (no_hash_line_resep before_sep _ Hn1) as Hn2.
  rewrite (replace_all_eq _ _ _ _ nonempty_re_after
             (scan_after _ None _ Hs2 Hb2 Hn2 (at_line_start_none _ _))).
  rewrite !resep_resep, !next_heading_resep. reflexivity.
Qed.

(** *** The separators after the passes *)

Lemma stops_app_l p a b : a <> [] -> stops p a -> stops p (a ++ b).
Proof. destruct a; [congruence|]. intros _ H. exact H. Qed.

Lemma stops_app_inv p a b : a <> [] -> stops p (a ++ b) -> stops p a.
Proof. destruct a; [congruence|]. intros _ H. exact H. Qed.

Lemma rev_nonempty (z : list sym) : z <> [] -> rev z <> [].
Proof.
  intros H E. apply H. rewrite <- (rev_involutive z), E. reflexivity.
Qed.

Lemma trim_before_ends x :
  exists z, trim_before (x ++ nl ++ nl) = z ++ nl ++ nl
            /\ stops is_lf (rev z)
            /\ (z = [] -> forallb is_lf x = true).
Proof.
  induction x as [|c x IH].
  - exists []. repeat split.
  - destruct IH as (z & E & Hz & Hx). cbn [app trim_before].
    change (c :: x ++ nl ++ nl) with ((c :: x) ++ nl ++ nl).
    destruct (forallb is_lf ((c :: x) ++ nl ++ nl)) eqn:F.
    + exists []. repeat split. intros _.
      rewrite forallb_app in F. apply andb_prop in F. apply F.
    + exists (c :: z). rewrite E. repeat split; [|discriminate].
      destruct z as [|d z].
      * simpl. specialize (Hx eq_refl).
        rewrite forallb_app in F. simpl in F. rewrite Hx in F. simpl in F.
        rewrite !andb_true_r in F. exact F.
      * cbn [rev]. apply stops_app_l; [|exact Hz].
        apply (rev_nonempty (d :: z)). discriminate.
Qed.

Lemma trim_after_ends z :
  stops is_lf (rev z) -> ends_two (trim_after (z ++ nl ++ nl)).
Proof.
  intros Hz. destruct z as [|d z].
  - exists []. split; reflexivity.
  - remember (d :: z) as w eqn:Ew.
    assert (Hw : w <> []) by (subst; discriminate).
    destruct (span_spec is_lf w) as (E & Ha & Hr).
    destruct (span is_lf w) as [a r] eqn:Es. cbn [fst snd] in *.
    assert (Hrne : r <> []).
    { intros ->. rewrite app_nil_r in E. subst a.
      pose proof (rev_nonempty w Hw) as Hrev.
      destruct (rev w) as [|x xs] eqn:Er; [congruence|].
      simpl in Hz.
      assert (Hin : In x w) by (apply in_rev; rewrite Er; left; reflexivity).
      unfold all in Ha. rewrite Forall_forall in Ha.
      rewrite (Ha x Hin) in Hz. discriminate. }
    assert (Hsp : span is_lf (w ++ nl ++ nl) = (a, r ++ nl ++ nl)).
    { rewrite E at 1. rewrite <- app_assoc.
      apply span_unique; [exact Ha|].
      apply stops_app_l; assumption. }
    unfold trim_after. rewrite Hsp. destruct a as [|a0 a].
    + exists w. split; [reflexivity|exact Hz].
    + exists ((nl ++ nl) ++ r). split; [rewrite <- app_assoc; reflexivity|].
      rewrite rev_app_distr. apply stops_app_l; [apply rev_nonempty; exact Hrne|].
      rewrite E, rev_app_distr in Hz.
      apply (stops_app_inv is_lf (rev r) (rev (a0 :: a)));
        [apply rev_nonempty; exact Hrne|exact Hz].
Qed.

Lemma spaced_ends hp s : ends_two (spaced hp s true).
Proof.
  unfold spaced, before_sep, around_sep. rewrite app_assoc.
  destruct (trim_before_ends ((if hp then nl ++ nl else []) ++ s))
    as (z & -> & Hz & _).
  unfold after_sep. destruct hp; [apply trim_after_ends; exact Hz|].
  exists z. split; [reflexivity|exact Hz].
Qed.

Lemma trim_after_starts u : starts_two (trim_after (Ch LF :: u)).
Proof.
  unfold trim_after. simpl.
  destruct (span_spec is_lf u) as (_ & _ & Hr).
  destruct (span is_lf u) as [a r]. exists r. split; [reflexivity|exact Hr].
Qed.

Lemma spaced_starts s hn : starts_two (spaced true s hn).
Proof.
  unfold spaced, after_sep, before_sep, around_sep.
  destruct hn; unfold nl; cbn [app trim_before]; [|apply trim_after_starts].
  match goal with |- context [if ?c then _ else _] => destruct c end;
    apply trim_after_starts.
Qed.

(** ** Heading lines of a text *)


Lemma dot_span_unique h post l r :
  all is_dot h -> stops is_dot post -> all is_dot l -> stops is_dot r ->
  h ++ post = l ++ r -> h = l /\ post = r.
Proof.
  intros Hh Hp Hl Hr E.
  pose proof (@span_unique is_dot h post Hh Hp) as E1.
  pose proof (@span_unique is_dot l r Hl Hr) as E2.
  rewrite E in E1. rewrite E1 in E2. injection E2 as -> ->. split; reflexivity.
Qed.

Lemma ends_line_app_dots a k :
  k <> [] -> all is_dot k -> ends_line is_line_terminator (a ++ k) = false.
Proof.
  intros Hk Hd. destruct k as [|c k] using rev_ind; [congruence|].
  unfold ends_line. rewrite app_assoc, rev_app_distr. simpl.
  apply Forall_app in Hd. destruct Hd as [_ Hd]. inversion Hd; subst.
  unfold is_dot in *. destruct (is_line_terminator c); [discriminate|reflexivity].
Qed.

Lemma stops_rev_line w l :
  is_line l -> stops is_lf (rev (w ++ l)).
Proof.
  intros [Hne Hd]. destruct l as [|c l] using rev_ind; [congruence|].
  rewrite app_assoc, rev_app_distr. simpl.
  apply Forall_app in Hd. destruct Hd as [_ Hd]. inversion Hd; subst.
  apply dot_not_lf. assumption.
Qed.

Lemma ends_two_app w s :
  stops is_lf (rev w) -> ends_two s -> ends_two (w ++ s).
Proof.
  intros Hw (z & -> & Hz). exists (w ++ z).
  split; [rewrite app_assoc; reflexivity|].
  rewrite rev_app_distr. destruct z as [|c z]; [exact Hw|].
  apply stops_app_l; [apply rev_nonempty; discriminate|exact Hz].
Qed.



Lemma text_lines_sep_nil s : is_sep s -> text_lines s = [].
Proof.
  induction 1 as [|c s Hc _ IH]; [reflexivity|].
  unfold text_lines. rewrite nonempty_lines_cons by exact Hc. exact IH.
Qed.

Lemma lines_from_dots cur l :
  all is_dot l -> lines_from is_line_terminator cur l = [cur ++ l].
Proof.
  intros Hl. revert cur. induction Hl as [|c l Hc _ IH]; intros cur.
  - simpl. rewrite app_nil_r. reflexivity.
  - simpl. unfold is_dot in Hc.
    destruct (is_line_terminator c); [discriminate|].
    rewrite IH, <- app_assoc. reflexivity.
Qed.

Lemma text_lines_line l : is_line l -> text_lines l = [l].
Proof.
  intros [Hne Hd]. unfold text_lines, nonempty_lines, lines.
  rewrite (lines_from_dots [] l Hd). simpl.
  destruct l; [congruence|reflexivity].
Qed.

Lemma ends_line_sep s : is_sep s -> ends_line is_line_terminator s = true.
Proof.
  intros Hs. destruct s as [|c s] using rev_ind; [reflexivity|].
  unfold ends_line. rewrite rev_app_distr. simpl.
  apply Forall_app in Hs. destruct Hs as [_ Hs]. inversion Hs; subst.
  assumption.
Qed.

Lemma text_lines_render b : forall s0,
  is_sep s0 -> wf_body b -> text_lines (s0 ++ render b) = map fst b.
Proof.
  induction b as [|[l s] b IH]; intros s0 Hs0 Hb.
  - simpl. rewrite app_nil_r. apply text_lines_sep_nil. exact Hs0.
  - inversion Hb as [|? ? ? Hl Hs He Hb']; subst.
    unfold text_lines in *.
    rewrite nonempty_lines_after by (apply ends_line_sep; exact Hs0).
    fold (text_lines s0). rewrite (text_lines_sep_nil s0 Hs0).
    cbn [render app map fst].
    rewrite nonempty_lines_before
      by (apply (render_starts_line_after l s b Hb)).
    fold (text_lines l). rewrite (text_lines_line l Hl).
    rewrite (IH s Hs Hb'). reflexivity.
Qed.

Lemma no_hash_line_lines s0 b :
  is_sep s0 -> wf_body b ->
  forallb (fun l => negb (hash_only l)) (text_lines (s0 ++ render b)) = true ->
  no_hash_line b.
Proof.
  intros Hs0 Hb H. rewrite (text_lines_render b s0 Hs0 Hb) in H.
  rewrite forallb_forall in H. apply Forall_forall. intros [l s] Hin.
  simpl. specialize (H l (in_map fst _ _ Hin)).
  destruct (hash_only l); [discriminate|reflexivity].
Qed.

Lemma keeps_sep_spaced : keeps_sep spaced.
Proof.
  intros hp s hn Hs. unfold spaced.
  destruct (keeps_sep_around hp s hn Hs) as [H1 E1].
  destruct (keeps_sep_before hp _ hn H1) as [H2 E2].
  destruct (keeps_sep_after hp _ hn H2) as [H3 E3].
  split; [exact H3|]. intros E. auto.
Qed.


(** ** The ends of the document *)

Lemma hline_is_heading h : is_line h -> hline h = true -> is_heading h.
Proof.
  intros [_ Hd] Hh. unfold hline in Hh.
  destruct (heading_split h) as [[h' ys]|] eqn:E; [|discriminate].
  destruct (@heading_split_spec h h' ys E) as (-> & Hh' & Hys).
  destruct ys as [|c ys]; [rewrite app_nil_r; exact Hh'|].
  apply Forall_app in Hd. destruct Hd as [_ Hd]. inversion Hd; subst.
  simpl in Hys. congruence.
Qed.

Lemma first_pass_suffix t :
  replace re_first [Ref 1] t = t
  \/ exists l c rest,
       t = l ++ c :: rest /\ is_lf_run l /\ is_lf c = false
       /\ replace re_first [Ref 1] t = c :: rest.
Proof.
  destruct (replace_re_first_spec t)
    as [[_ E]|(l & h & ys & -> & Hl & Hh & _ & E)]; [left; exact E|].
  right. destruct (heading_starts_with_hash h Hh) as (c & h' & -> & Hc).
  exists l, c, (h' ++ ys). repeat split; try assumption; try apply Hl.
  apply hash_not_lf. exact Hc.
Qed.

Lemma last_pass_prefix t :
  exists l, t = replace re_last [Ref 1] t ++ l /\ all is_lf l.
Proof.
  destruct (replace_re_last_spec t)
    as [[_ E]|(pre & h & l & -> & _ & Hl & _ & E)].
  - exists []. rewrite E, app_nil_r. split; [reflexivity|constructor].
  - exists l. rewrite E, <- app_assoc. split; [reflexivity|apply Hl].
Qed.

Lemma ends_line_app_r a b :
  b <> [] -> ends_line is_line_terminator (a ++ b)
             = ends_line is_line_terminator b.
Proof.
  intros Hb. destruct b as [|c b] using rev_ind; [congruence|].
  unfold ends_line. rewrite app_assoc, !rev_app_distr. reflexivity.
Qed.

Lemma ends_line_lf_run l : all is_lf l -> ends_line is_line_terminator l = true.
Proof. intros H. apply ends_line_sep. apply all_lf_terminate. exact H. Qed.

Lemma ends_two_after_run l c pre :
  is_lf c = false -> ends_two (l ++ c :: pre) -> ends_two (c :: pre).
Proof.
  intros Hc (z & E & Hz). apply app_eq_app in E.
  destruct E as [k [[_ E]|[E1 E2]]].
  - exfalso. assert (Hin : In c (nl ++ nl)) by (rewrite E; apply in_elt).
    simpl in Hin. destruct Hin as [<-|[<-|[]]]; discriminate.
  - destruct k as [|d k].
    + exfalso. simpl in E2. injection E2 as -> _. discriminate.
    + exists (d :: k). split; [exact E2|].
      rewrite E1, rev_app_distr in Hz.
      apply (stops_app_inv is_lf (rev (d :: k)) (rev l));
        [apply rev_nonempty; discriminate|exact Hz].
Qed.



(** * Further properties of the passes *)

(** ** The passes only add and remove LF *)

Lemma strip_lf_app a b : strip_lf (a ++ b) = strip_lf a ++ strip_lf b.
Proof. apply filter_app. Qed.

Lemma strip_lf_run l : all is_lf l -> strip_lf l = [].
Proof.
  induction 1 as [|c l Hc _ IH]; [reflexivity|].
  simpl. rewrite Hc. exact IH.
Qed.

Lemma strip_lf_nl : strip_lf nl = [].
Proof. reflexivity. Qed.

Lemma scan_strip_lf r out :
  (forall p seg s, match_at r p (seg ++ rest s) = Some s -> seg <> [] ->
     strip_lf (out seg (caps s)) = strip_lf seg) ->
  forall p t res, Scan r out p t res -> strip_lf res = strip_lf t.
Proof.
  intros Hout p t res H.
  induction H as [p|p c tl res Hm _ IH|p seg s res Hm Hne Hp _ IH].
  - reflexivity.
  - simpl. rewrite IH. reflexivity.
  - rewrite !strip_lf_app, IH, (Hout p seg s Hm Hne). reflexivity.
Qed.

Lemma strip_re_around t :
  strip_lf (replace_all re_around [Lit (nl ++ nl); Ref 1; Lit (nl ++ nl)] t)
  = strip_lf t.
Proof.
  refine (scan_strip_lf _ _ _ None _ _
            (@replace_all_scan re_around _ t nonempty_re_around)).
  intros p seg s Hm _. apply shape_re_around in Hm.
  destruct Hm as (h & Ht & _ & _ & _ & Hc).
  apply app_inv_rest in Ht. subst h. rewrite Hc. simpl.
  rewrite strip_lf_app, app_nil_r. reflexivity.
Qed.

Lemma strip_re_before t :
  strip_lf (replace_all re_before [Lit (nl ++ nl); Ref 1] t) = strip_lf t.
Proof.
  refine (scan_strip_lf _ _ _ None _ _
            (@replace_all_scan re_before _ t nonempty_re_before)).
  intros p seg s Hm _. apply shape_re_before in Hm.
  destruct Hm as (l & h & Ht & Hl & _ & _ & Hc).
  rewrite app_assoc in Ht. apply app_inv_rest in Ht. subst seg.
  rewrite Hc. simpl. rewrite app_nil_r, strip_lf_app.
  rewrite (strip_lf_run l (proj2 Hl)). reflexivity.
Qed.

Lemma strip_re_after tail t :
  all is_lf tail ->
  strip_lf (replace_all re_after [Ref 1; Lit tail] t) = strip_lf t.
Proof.
  intros Htail.
  refine (scan_strip_lf _ _ _ None _ _
            (@replace_all_scan re_after _ t nonempty_re_after)).
  intros p seg s Hm _. apply shape_re_after in Hm.
  destruct Hm as (h & l & Ht & _ & _ & Hl & _ & Hc).
  rewrite app_assoc in Ht. apply app_inv_rest in Ht. subst seg.
  rewrite Hc. simpl. rewrite app_nil_r, !strip_lf_app.
  rewrite (strip_lf_run l (proj2 Hl)), (strip_lf_run tail Htail). reflexivity.
Qed.

Lemma strip_re_blank_section t :
  strip_lf (replace_all re_blank_section [Ref 1; Lit nl; Ref 2] t) = strip_lf t.
Proof.
  refine (scan_strip_lf _ _ _ None _ _
            (@replace_all_scan re_blank_section _ t nonempty_re_blank_section)).
  intros p seg s Hm _. apply shape_re_blank_section in Hm.
  destruct Hm as (h1 & l & h2 & Ht & _ & Hl & _ & _ & Hc).
  assert (E : seg = h1 ++ Ch LF :: l ++ h2).
  { apply (@app_inv_rest seg _ (rest s)). rewrite Ht.
    rewrite <- !app_assoc. simpl. rewrite <- !app_assoc. reflexivity. }
  subst seg. rewrite Hc. simpl. rewrite app_nil_r, !strip_lf_app. simpl.
  rewrite strip_lf_app, (strip_lf_run l (proj2 Hl)). reflexivity.
Qed.

Lemma strip_spacing_pass options t :
  strip_lf (spacing_pass options t) = strip_lf t.
Proof.
  unfold spacing_pass. destruct (bottom options); simpl negb; cbv iota.
  - rewrite strip_re_after by (repeat constructor).
    rewrite strip_re_before. apply strip_re_around.
  - rewrite strip_re_before. apply strip_re_after. repeat constructor.
Qed.

Lemma strip_collapse fuel : forall t res,
  collapse_blank_sections fuel t = Some res -> strip_lf res = strip_lf t.
Proof.
  induction fuel as [|fuel IH]; intros t res H; [discriminate|].
  cbn [collapse_blank_sections] in H.
  destruct (has_match re_blank_section t).
  - rewrite (IH _ _ H). apply strip_re_blank_section.
  - injection H as <-. reflexivity.
Qed.

Lemma strip_edge_pass t : strip_lf (edge_pass t) = strip_lf t.
Proof.
  unfold edge_pass.
  transitivity (strip_lf (replace re_first [Ref 1] t)).
  - destruct (replace_re_last_spec (replace re_first [Ref 1] t))
      as [[_ E]|(pre & h & l & E1 & _ & Hl & _ & E2)].
    + rewrite E. reflexivity.
    + rewrite E2, E1, !strip_lf_app, (strip_lf_run l (proj2 Hl)), app_nil_r.
      reflexivity.
  - destruct (replace_re_first_spec t)
      as [[_ E]|(l & h & ys & E1 & Hl & _ & _ & E2)].
    + rewrite E. reflexivity.
    + rewrite E2, E1, !strip_lf_app, (strip_lf_run l (proj2 Hl)). reflexivity.
Qed.

Lemma strip_yaml_pass options t : strip_lf (yaml_pass options t) = strip_lf t.
Proof.
  destruct (yaml_pass_spec options t)
    as [E|(_ & y & l & h & ys & E1 & _ & Hl & _ & _ & E2)].
  - rewrite E. reflexivity.
  - rewrite E2, E1, !strip_lf_app, (strip_lf_run l (proj2 Hl)). reflexivity.
Qed.

Lemma doc_strip_unmask t :
  doc_strip_lf (unmask t) = doc_strip_lf (unmask (strip_lf t)).
Proof.
  unfold doc_strip_lf, unmask.
  induction t as [|c t IH]; [reflexivity|].
  cbn [flat_map strip_lf filter]. rewrite filter_app, IH.
  destruct c as [c|ty bytes]; cbn [is_lf is_code negb unmask_sym].
  - destruct (c =? LF)%N eqn:E; cbn [negb flat_map unmask_sym app filter].
    + rewrite E. reflexivity.
    + rewrite E. reflexivity.
  - cbn [flat_map unmask_sym]. rewrite filter_app. reflexivity.
Qed.

(** ** Texts without a heading *)

Lemma has_heading_suffix a b :
  has_heading (a ++ b) = false -> has_heading b = false.
Proof.
  induction a as [|c a IH]; intros H; [exact H|].
  cbn [app has_heading] in H.
  destruct (heading_split (c :: a ++ b)); [discriminate|]. apply IH, H.
Qed.

Lemma no_heading_split t : has_heading t = false -> heading_split t = None.
Proof.
  destruct t as [|c t]; [reflexivity|]. cbn [has_heading].
  destruct (heading_split (c :: t)); [discriminate|reflexivity].
Qed.

Lemma no_heading_quiet t : has_heading t = false -> quiet t.
Proof.
  intros H. split; [apply no_heading_split, H|].
  destruct (lf_run t) as [[l r]|] eqn:E; [|exact I].
  apply lf_run_spec in E. destruct E as (-> & _ & _).
  apply no_heading_split. exact (has_heading_suffix l r H).
Qed.

Lemma replace_all_from_none r out : forall t p,
  (forall a b q, t = a ++ b -> match_at r q b = None) ->
  replace_all_from r out 0 p t = t.
Proof.
  induction t as [|c t IH]; intros p H; cbn [replace_all_from].
  - rewrite (H [] [] p eq_refl). reflexivity.
  - rewrite (H [] (c :: t) p eq_refl). f_equal. apply IH.
    intros a b q ->. exact (H (c :: a) b q eq_refl).
Qed.

Lemma replace_from_none r tpl : forall t p,
  (forall a b q, t = a ++ b -> match_at r q b = None) ->
  replace_from r tpl p t = t.
Proof.
  induction t as [|c t IH]; intros p H; cbn [replace_from].
  - rewrite (H [] [] p eq_refl). reflexivity.
  - rewrite (H [] (c :: t) p eq_refl). f_equal. apply IH.
    intros a b q ->. exact (H (c :: a) b q eq_refl).
Qed.

Lemma has_match_from_false r : forall t p,
  (forall a b q, t = a ++ b -> match_at r q b = None) ->
  has_match_from r p t = false.
Proof.
  induction t as [|c t IH]; intros p H; cbn [has_match_from].
  - rewrite (H [] [] p eq_refl). reflexivity.
  - rewrite (H [] (c :: t) p eq_refl). apply IH.
    intros a b q ->. exact (H (c :: a) b q eq_refl).
Qed.

Lemma no_heading_no_match r t :
  (forall q u, quiet u -> match_at r q u = None) ->
  has_heading t = false ->
  forall a b q, t = a ++ b -> match_at r q b = None.
Proof.
  intros Hr Ht a b q ->. apply Hr, no_heading_quiet.
  exact (has_heading_suffix a b Ht).
Qed.

Lemma no_heading_yaml t :
  has_heading t = false ->
  forall a b q, t = a ++ b -> match_at re_yaml_heading q b = None.
Proof.
  intros Ht a b q ->.
  destruct (match_at re_yaml_heading q b) as [s|] eqn:E; [|reflexivity].
  exfalso. apply shape_re_yaml_heading in E.
  destruct E as (y & l & h & E & _ & _ & _ & Hh & Hs & _).
  rewrite E in Ht. rewrite !app_assoc in Ht. rewrite <- app_assoc in Ht.
  apply has_heading_suffix in Ht. apply no_heading_split in Ht.
  rewrite (@heading_split_complete h (rest s) Hh Hs) in Ht. discriminate.
Qed.

(** The callback returns as it is a text without a heading. *)
Lemma rewrite_no_heading options t :
  has_heading t = false -> rewrite options t = Some t.
Proof.
  intros Ht.
  assert (Hs : spacing_pass options t = t).
  { unfold spacing_pass, replace_all. destruct (negb (bottom options)).
    - rewrite (replace_all_from_none re_after _ t None
                 (no_heading_no_match _ t quiet_re_after Ht)).
      apply replace_all_from_none, (no_heading_no_match _ t quiet_re_before Ht).
    - rewrite (replace_all_from_none re_around _ t None
                 (no_heading_no_match _ t quiet_re_around Ht)).
      rewrite (replace_all_from_none re_before _ t None
                 (no_heading_no_match _ t quiet_re_before Ht)).
      apply replace_all_from_none, (no_heading_no_match _ t quiet_re_after Ht). }
  assert (Hb : blank_section_pass options t = Some t).
  { unfold blank_section_pass. destruct (negb (emptyLineInBlankSections options));
      [|reflexivity].
    cbn [collapse_blank_sections]. unfold has_match.
    rewrite (has_match_from_false re_blank_section t None
               (no_heading_no_match _ t quiet_re_blank_section Ht)).
    reflexivity. }
  assert (He : edge_pass t = t).
  { unfold edge_pass, replace.
    rewrite (replace_from_none re_first _ t None
               (no_heading_no_match _ t quiet_re_first Ht)).
    apply replace_from_none, (no_heading_no_match _ t quiet_re_last Ht). }
  unfold rewrite. rewrite Hs, Hb, He. f_equal.
  unfold yaml_pass. destruct (negb (emptyLineAfterYaml options)); [|reflexivity].
  apply replace_from_none, no_heading_yaml, Ht.
Qed.

(** ** The passes with [bottom] off *)

Lemma scan_after_one b : forall p s,
  is_sep s -> wf_body b -> no_hash_line b -> at_line_start p s b ->
  Scan re_after (fun _ cs => subst [Ref 1; Lit nl] cs)
    p (s ++ render b)
    (after_one_sep false s (next_heading b) ++ render (resep after_one_sep b)).
Proof.
  induction b as [|[l s'] b IH]; intros p s Hs Hb Hn Hp.
  - simpl. apply scan_copy_all; [|constructor].
    intros c Hc q tl. apply match_after_sep.
    unfold is_sep, all in Hs. rewrite Forall_forall in Hs. auto.
  - pose proof (at_bol_after_sep p s (l, s') b Hs Hp) as Hq.
    inversion Hb as [|? ? ? Hl Hs' He Hb']; subst.
    inversion Hn as [|? ? Hh Hn']; subst. simpl in Hh.
    pose proof (stops_dot_after l s' b Hb) as Hr.
    pose proof (match_after_line (prev_after p s) l s' (render b)
                  Hq Hl Hh Hr (stops_render b Hb')) as Hm.
    cbn [render resep next_heading]. unfold after_one_sep at 1 2.
    apply scan_copy_all.
    { intros c Hc q tl. apply match_after_sep.
      unfold is_sep, all in Hs. rewrite Forall_forall in Hs. auto. }
    assert (Hcopy :
      match_at re_after (prev_after p s) (l ++ s' ++ render b) = None ->
      Scan re_after (fun _ cs => subst [Ref 1; Lit nl] cs)
        (prev_after p s) (l ++ s' ++ render b)
        (l ++ s' ++ render (resep after_one_sep b))).
    { intros Hnone.
      specialize (IH (prev_after (prev_after p s) l) s' Hs' Hb' Hn'
                    (at_line_start_wf _ l s' b Hb)).
      destruct l as [|d l]; [destruct Hl; congruence|].
      rewrite prev_after_cons in IH.
      exact (@scan_copy _ _ _ _ _ _ Hnone (scan_copy_inner _ _ l d _ _
               match_after_inner (proj2 Hl) IH)). }
    destruct (hline l) eqn:Hl1; [|exact (Hcopy Hm)].
    unfold trim_after_one. pose proof (span_eq is_lf s') as Hsp.
    destruct (span is_lf s') as [[|c lfs] r] eqn:E; [exact (Hcopy Hm)|].
    cbn [fst snd] in Hsp.
    assert (Hr' : is_sep r) by (rewrite Hsp in Hs'; exact (sep_suffix _ _ Hs')).
    assert (Hstart : at_line_start
                       (prev_after (prev_after (prev_after p s) l) (c :: lfs))
                       r b).
    { intros _. right.
      destruct (span_spec is_lf s') as (_ & Hall & _). rewrite E in Hall.
      cbn [fst] in Hall.
      destruct lfs as [|x lfs] using rev_ind.
      - inversion Hall; subst. apply lf_terminates. assumption.
      - rewrite app_comm_cons, prev_after_snoc.
        change (c :: lfs ++ [x]) with ((c :: lfs) ++ [x]) in Hall.
        apply Forall_app in Hall. destruct Hall as [_ Hall].
        inversion Hall; subst. apply lf_terminates. assumption. }
    specialize (IH _ r Hr' Hb' Hn' Hstart).
    assert (Hm' : match_at re_after (prev_after p s)
                    ((l ++ c :: lfs) ++ r ++ render b)
                  = Some (MState
                            (prev_after (prev_after (prev_after p s) l) (c :: lfs))
                            (r ++ render b) [(1, l)])).
    { rewrite <- Hm, Hsp, <- !app_assoc. reflexivity. }
    assert (Hne : l ++ c :: lfs <> []) by (destruct l; discriminate).
    pose proof (@scan_match re_after _ (prev_after p s) (l ++ c :: lfs)
                  (MState
                     (prev_after (prev_after (prev_after p s) l) (c :: lfs))
                     (r ++ render b) [(1, l)]) _
                  Hm' Hne (eq_sym (prev_after_app _ l (c :: lfs))) IH) as G.
    cbn [rest caps] in G. rewrite Hsp.
    refine (eq_ind _ (fun t => Scan _ _ _ t _)
              (eq_ind _ (fun o => Scan _ _ _ _ o) G _ _) _ _).
    + unfold after_one_sep. simpl. rewrite <- ?app_assoc. reflexivity.
    + rewrite <- !app_assoc. reflexivity.
Qed.

Lemma trim_after_one_sep s :
  is_sep s -> is_sep (trim_after_one s) /\ (trim_after_one s = [] -> s = []).
Proof.
  intros Hs. unfold trim_after_one. pose proof (span_eq is_lf s) as E.
  destruct (span is_lf s) as [[|c l] r]; [split; auto|].
  split; [|discriminate]. cbn [fst snd] in E. rewrite E in Hs.
  apply Forall_app. split; [repeat constructor|exact (sep_suffix _ _ Hs)].
Qed.

Lemma keeps_sep_after_one : keeps_sep after_one_sep.
Proof.
  intros hp s hn Hs. unfold after_one_sep.
  destruct hp; [apply trim_after_one_sep; exact Hs|]. split; auto.
Qed.

Lemma keeps_sep_trimmed : keeps_sep trimmed.
Proof.
  intros hp s hn Hs. unfold trimmed.
  destruct (keeps_sep_after_one hp s hn Hs) as [H1 E1].
  destruct (keeps_sep_before hp _ hn H1) as [H2 E2].
  split; [exact H2|]. intros E. auto.
Qed.

Lemma spacing_no_bottom y e s0 b :
  is_sep s0 -> wf_body b -> no_hash_line b ->
  spacing_pass (Options false y e) (s0 ++ render b)
  = trimmed false s0 (next_heading b) ++ render (resep trimmed b).
Proof.
  intros Hs Hb Hn. unfold spacing_pass. cbn [bottom negb].
  rewrite (replace_all_eq _ _ _ _ nonempty_re_after
             (scan_after_one b None s0 Hs Hb Hn (at_line_start_none s0 b))).
  pose proof (proj1 (keeps_sep_after_one false s0 (next_heading b) Hs)) as Hs1.
  pose proof (wf_body_resep _ b keeps_sep_after_one Hb) as Hb1.
  pose proof (no_hash_line_resep after_one_sep b Hn) as Hn1.
  rewrite (replace_all_eq _ _ _ _ nonempty_re_before
             (scan_before _ None _ Hs1 Hb1 Hn1)).
  rewrite !resep_resep, !next_heading_resep. reflexivity.
Qed.

(** ** A line of a text and its two separators *)

Lemma whole_line_entry b : forall w hp0 s0 pre h post,
  stops is_lf (rev w) -> is_sep s0 -> wf_body b ->
  s0 ++ render b = pre ++ h ++ post ->
  whole_line (w ++ pre) h post ->
  exists hp sp s b2 w',
    entry_at hp0 s0 b hp sp h s b2
    /\ w ++ pre = w' ++ sp /\ post = s ++ render b2
    /\ stops is_lf (rev w') /\ wf_body ((h, s) :: b2).
Proof.
  induction b as [|[l s] b IH];
    intros w hp0 s0 pre h post Hw Hs0 Hb E (Hh & Hpre & Hpost).
  - exfalso. simpl in E. rewrite app_nil_r in E. subst s0.
    destruct Hh as [Hne Hd]. destruct h as [|c h]; [congruence|].
    apply Forall_app in Hs0. destruct Hs0 as [_ Hs0].
    inversion Hs0; subst. inversion Hd; subst.
    unfold is_dot in *. destruct (is_line_terminator c); discriminate.
  - inversion Hb as [|? ? ? Hl Hs He Hb']; subst.
    pose proof (stops_dot_after l s b Hb) as Hr.
    pose proof (starts_line_stops_dot post Hpost) as Hp.
    assert (Haligned : pre = s0 -> h ++ post = l ++ s ++ render b ->
              exists hp sp s1 b2 w',
                entry_at hp0 s0 ((l, s) :: b) hp sp h s1 b2
                /\ w ++ pre = w' ++ sp /\ post = s1 ++ render b2
                /\ stops is_lf (rev w') /\ wf_body ((h, s1) :: b2)).
    { intros -> E'.
      destruct (dot_span_unique h post l (s ++ render b)
                  (proj2 Hh) Hp (proj2 Hl) Hr E') as [-> ->].
      exists hp0, s0, s, b, w. cbn [entry_at].
      split; [left; repeat split|]. repeat split; assumption. }
    cbn [render] in E. apply app_eq_app in E.
    destruct E as [k [[E1 E2]|[E1 E2]]].
    + destruct k as [|c k].
      * rewrite app_nil_r in E1. apply Haligned; [congruence|exact E2].
      * exfalso. destruct Hh as [Hne Hd]. destruct h as [|d h]; [congruence|].
        injection E2 as -> _. rewrite E1 in Hs0.
        apply Forall_app in Hs0. destruct Hs0 as [_ Hs0].
        inversion Hs0; subst. inversion Hd; subst.
        unfold is_dot in *. destruct (is_line_terminator c); discriminate.
    + destruct k as [|c k].
      * rewrite app_nil_r in E1. apply Haligned; [exact E1|].
        symmetry. exact E2.
      * apply app_eq_app in E2. destruct E2 as [k2 [[E3 E4]|[E3 E4]]].
        -- exfalso. subst pre. rewrite app_assoc in Hpre.
           rewrite ends_line_app_dots in Hpre; [discriminate|discriminate|].
           destruct Hl as [_ Hd]. rewrite E3 in Hd.
           apply Forall_app in Hd. apply Hd.
        -- subst pre. rewrite E3.
           destruct (IH (w ++ s0 ++ l) (hline l) s k2 h post) as
             (hp & sp & s1 & b2 & w' & H1 & H2 & H3 & H4 & H5);
             try assumption.
           ++ rewrite app_assoc. apply stops_rev_line. exact Hl.
           ++ rewrite E3 in Hpre. split; [exact Hh|]. split; [|exact Hpost].
              rewrite <- Hpre. f_equal. rewrite <- !app_assoc. reflexivity.
           ++ exists hp, sp, s1, b2, w'. cbn [entry_at].
              split; [right; exact H1|]. split; [|repeat split; assumption].
              rewrite <- H2, <- !app_assoc. reflexivity.
Qed.

Lemma entry_resep f b : forall hp0 s0 hp sp h s b2,
  entry_at hp0 (f hp0 s0 (next_heading b)) (resep f b) hp sp h s b2 ->
  exists x y b2',
    sp = f hp x (hline h) /\ s = f (hline h) y (next_heading b2')
    /\ b2 = resep f b2'.
Proof.
  induction b as [|[l s1] b IH]; intros hp0 s0 hp sp h s b2 H; [destruct H|].
  cbn [resep entry_at next_heading] in H.
  destruct H as [(-> & -> & -> & -> & ->)|H].
  - exists s0, s1, b. repeat split.
  - apply (IH (hline l) s1). exact H.
Qed.

(** ** The separators with [bottom] off *)

Lemma trim_before_spec s :
  exists z lfs,
    s = z ++ lfs /\ all is_lf lfs /\ stops is_lf (rev z)
    /\ trim_before s = z ++ (if nonempty lfs then nl ++ nl else []).
Proof.
  induction s as [|c s IH].
  - exists [], []. repeat split. constructor.
  - destruct IH as (z & lfs & E & Hl & Hz & Ht). cbn [trim_before].
    destruct (forallb is_lf (c :: s)) eqn:F.
    + exists [], (c :: s). repeat split. apply forallb_all. exact F.
    + exists (c :: z), lfs. rewrite Ht, E. repeat split; try assumption.
      destruct z as [|d z].
      * simpl. simpl in E. subst s. simpl in F.
        destruct (is_lf c); [|reflexivity].
        apply forallb_all in Hl. rewrite Hl in F. discriminate.
      * cbn [rev]. apply stops_app_l; [|exact Hz].
        apply (rev_nonempty (d :: z)). discriminate.
Qed.

Lemma trim_after_one_spec s :
  (trim_after_one s = s /\ stops is_lf s)
  \/ exists r, trim_after_one s = Ch LF :: r /\ stops is_lf r.
Proof.
  unfold trim_after_one. destruct (span_spec is_lf s) as (E & _ & Hr).
  destruct (span is_lf s) as [[|c l] r]; cbn [fst snd] in *.
  - left. split; [reflexivity|]. rewrite E. exact Hr.
  - right. exists r. split; [reflexivity|exact Hr].
Qed.

(** Before a heading line. *)
Lemma trimmed_before hp x :
  ends_two (trimmed hp x true) \/ stops is_lf (rev (trimmed hp x true)).
Proof.
  unfold trimmed, before_sep.
  destruct (trim_before_spec (after_one_sep hp x true))
    as (z & lfs & _ & _ & Hz & ->).
  destruct lfs as [|c lfs]; cbn [nonempty].
  - right. rewrite app_nil_r. exact Hz.
  - left. exists z. split; [reflexivity|exact Hz].
Qed.

(** After a heading line. *)
Lemma trimmed_after y hn :
  stops is_lf (trimmed true y hn)
  \/ (exists r, trimmed true y hn = Ch LF :: r /\ stops is_lf r)
  \/ (hn = true /\ trimmed true y hn = nl ++ nl).
Proof.
  unfold trimmed, before_sep, after_one_sep.
  destruct hn.
  2:{ destruct (trim_after_one_spec y) as [[-> H]|(r & -> & H)];
        [left; exact H|right; left; exists r; split; [reflexivity|exact H]]. }
  destruct (trim_before_spec (trim_after_one y)) as (z & lfs & E & Hl & Hz & ->).
  destruct z as [|c z].
  - cbn [app] in *. destruct lfs as [|d lfs]; cbn [nonempty]; [left; exact I|].
    right. right. split; reflexivity.
  - destruct (trim_after_one_spec y) as [[E' H]|(r & E' & H)];
      rewrite E' in E.
    + left. rewrite E in H. exact H.
    + right. left. cbn [app] in E. injection E as <- E.
      exists (z ++ (if nonempty lfs then nl ++ nl else [])).
      split; [reflexivity|].
      destruct z as [|d z]; [discriminate Hz|].
      rewrite E in H. exact H.
Qed.

Lemma stops_rev_app w s :
  stops is_lf (rev w) -> stops is_lf (rev s) -> stops is_lf (rev (w ++ s)).
Proof.
  intros Hw Hs. rewrite rev_app_distr. destruct s as [|c s] using rev_ind.
  - exact Hw.
  - rewrite rev_app_distr in *. exact Hs.
Qed.

(** After the two passes of [bottom] off, around a heading line. *)
Lemma spacing_no_bottom_lines y e t pre h post :
  no_bare_hashes t = true ->
  spacing_pass (Options false y e) t = pre ++ h ++ post ->
  whole_line pre h post -> hline h = true ->
  (ends_two pre \/ stops is_lf (rev pre))
  /\ (stops is_lf post
      \/ (exists r, post = Ch LF :: r /\ stops is_lf r)
      \/ (exists h' y',
            post = Ch LF :: Ch LF :: h' ++ y' /\ is_line h' /\ hline h' = true
            /\ starts_line is_line_terminator y' = true)).
Proof.
  intros Hn E Hw Hh.
  destruct (parse_exists t) as (s0 & b & -> & Hs0 & Hb).
  pose proof (no_hash_line_lines s0 b Hs0 Hb Hn) as Hnb.
  rewrite (spacing_no_bottom y e s0 b Hs0 Hb Hnb) in E.
  destruct (whole_line_entry (resep trimmed b) [] false
              (trimmed false s0 (next_heading b)) pre h post I
              (proj1 (keeps_sep_trimmed false s0 _ Hs0))
              (wf_body_resep _ b keeps_sep_trimmed Hb) E Hw)
    as (hp & sp & s & b2 & w' & H1 & H2 & H3 & H4 & H5).
  destruct (entry_resep trimmed b false s0 hp sp h s b2 H1)
    as (x & y0 & b2' & -> & -> & ->).
  rewrite Hh in *. cbn [app] in H2. subst pre post. split.
  - destruct (trimmed_before hp x) as [G|G].
    + left. apply ends_two_app; assumption.
    + right. apply stops_rev_app; assumption.
  - inversion H5 as [|? ? ? Hl Hs He Hb2]; subst.
    destruct (trimmed_after y0 (next_heading b2')) as [G|[(r & G & Hr)|[G1 G2]]].
    + left. destruct (trimmed true y0 (next_heading b2')) as [|c v].
      * rewrite (He eq_refl). exact I.
      * exact G.
    + right. left. rewrite G. exists (r ++ render (resep trimmed b2')).
      split; [reflexivity|].
      destruct r as [|c r]; [apply stops_render; exact Hb2|exact Hr].
    + right. right. rewrite G2.
      destruct b2' as [|[h' s'] b3]; [discriminate G1|].
      cbn [next_heading] in G1. cbn [resep render] in *.
      inversion Hb2 as [|? ? ? Hl' Hs' He' Hb3]; subst.
      exists h', (trimmed (hline h') s' (next_heading b3)
                   ++ render (resep trimmed b3)).
      split; [reflexivity|]. split; [exact Hl'|]. split; [exact G1|].
      apply (render_starts_line_after h' _ _ Hb2).
Qed.

Lemma edge_pass_trimmed t :
  (forall pre h post, t = pre ++ h ++ post -> whole_line pre h post ->
     hline h = true ->
     (ends_two pre \/ stops is_lf (rev pre))
     /\ (stops is_lf post
         \/ (exists r, post = Ch LF :: r /\ stops is_lf r)
         \/ (exists h' y',
               post = Ch LF :: Ch LF :: h' ++ y' /\ is_line h'
               /\ hline h' = true
               /\ starts_line is_line_terminator y' = true))) ->
  forall pre h post,
    edge_pass t = pre ++ h ++ post -> whole_line pre h post ->
    hline h = true -> before_trimmed pre /\ after_trimmed post.
Proof.
  intros H0 pre h post E Hw Hh. unfold edge_pass in E.
  pose proof (last_pass_keeps_start _ (first_pass_no_leading t)) as Hno1.
  pose proof (last_pass_no_trailing (replace re_first [Ref 1] t)) as Hno2.
  destruct (last_pass_prefix (replace re_first [Ref 1] t)) as (l0 & E1 & Hl0).
  rewrite E in E1, Hno1, Hno2.
  pose proof (hline_is_heading h (proj1 Hw) Hh) as Hhead.
  assert (Hw1 : whole_line pre h (post ++ l0)).
  { destruct Hw as (A & B & C). split; [exact A|]. split; [exact B|].
    destruct post as [|x post]; [|exact C]. simpl.
    destruct l0 as [|x l0]; [reflexivity|].
    inversion Hl0; subst. apply lf_terminates. assumption. }
  rewrite <- !app_assoc in E1.
  assert (Hend : forall l, all is_lf l -> l <> [] -> post <> l).
  { intros l Hl Hne ->. apply Hno2. exists pre, h, l.
    split; [reflexivity|]. split; [exact Hhead|]. split; assumption. }
  assert (G : (pre = [] \/ ends_two pre \/ stops is_lf (rev pre))
              /\ (stops is_lf (post ++ l0)
                  \/ (exists r, post ++ l0 = Ch LF :: r /\ stops is_lf r)
                  \/ (exists h' y',
                        post ++ l0 = Ch LF :: Ch LF :: h' ++ y' /\ is_line h'
                        /\ hline h' = true
                        /\ starts_line is_line_terminator y' = true))).
  { destruct (first_pass_suffix t) as [Eq|(l & c & rest & Et & Hl & Hc & Eq)].
    - rewrite Eq in E1. destruct (H0 _ _ _ E1 Hw1 Hh) as [A B]. tauto.
    - rewrite Eq in E1.
      assert (Et' : t = (l ++ pre) ++ h ++ post ++ l0).
      { rewrite Et, E1, <- app_assoc. reflexivity. }
      assert (Hw' : whole_line (l ++ pre) h (post ++ l0)).
      { destruct Hw1 as (A & B & C). split; [exact A|]. split; [|exact C].
        destruct pre as [|x pre].
        - rewrite app_nil_r. apply ends_line_lf_run, Hl.
        - rewrite ends_line_app_r by discriminate. exact B. }
      destruct (H0 _ _ _ Et' Hw' Hh) as [A B]. split; [|exact B].
      destruct pre as [|x pre]; [left; reflexivity|right].
      injection E1 as <- _. destruct A as [A|A].
      + left. exact (ends_two_after_run l c pre Hc A).
      + right. rewrite rev_app_distr in A.
        apply (stops_app_inv is_lf (rev (c :: pre)) (rev l));
          [apply rev_nonempty; discriminate|exact A]. }
  destruct G as [Gp Gq]. split.
  - destruct Gp as [->|[(z & -> & Hz)|Gp]].
    + left. left. reflexivity.
    + destruct z as [|c z] using rev_ind.
      * exfalso. apply Hno1. exists (nl ++ nl), h, post.
        split; [reflexivity|]. split; [|exact Hhead].
        split; [discriminate|repeat constructor].
      * left. right. exists z, c. rewrite rev_app_distr in Hz. simpl in Hz.
        split; [rewrite <- app_assoc; reflexivity|exact Hz].
    + right. exact Gp.
  - destruct post as [|x1 post]; [left; exact I|].
    destruct Gq as [Gq|[(r & Er & Hr)|(h' & y' & Ey & Hl' & Hh' & Hy')]].
    + left. exact Gq.
    + right. left. injection Er as -> Er.
      destruct post as [|d post].
      * exfalso. apply (Hend [Ch LF]); [repeat constructor|discriminate|].
        reflexivity.
      * exists d, post. split; [reflexivity|]. rewrite <- Er in Hr. exact Hr.
    + right. right. injection Ey as -> Ey.
      destruct post as [|x2 post].
      { exfalso. apply (Hend [Ch LF]); [repeat constructor|discriminate|].
        reflexivity. }
      injection Ey as -> Ey.
      destruct post as [|x3 post].
      { exfalso. apply (Hend [Ch LF; Ch LF]);
          [repeat constructor|discriminate|reflexivity]. }
      apply app_eq_app in Ey. destruct Ey as [k [[E2 E3]|[E2 E3]]].
      * exists h', k. split; [rewrite E2; reflexivity|].
        split; [exact Hl'|]. split; [exact Hh'|].
        destruct k as [|c k]; [reflexivity|]. rewrite E3 in Hy'. exact Hy'.
      * destruct k as [|c k].
        -- exists h', []. rewrite app_nil_r in E2. rewrite E2, app_nil_r.
           split; [reflexivity|]. split; [rewrite <- E2; exact Hl'|].
           split; [rewrite <- E2; exact Hh'|reflexivity].
        -- exfalso. rewrite E3 in Hl0. pose proof (Forall_inv Hl0) as Hc.
           destruct Hl' as [_ Hd]. rewrite E2 in Hd.
           apply Forall_app in Hd. destruct Hd as [_ Hd].
           pose proof (Forall_inv Hd) as Hc'. cbv beta in Hc, Hc'.
           apply lf_not_dot in Hc. congruence.
Qed.

(** ** The passes change no separator twice *)

Lemma not_all_lf z : z <> [] -> stops is_lf (rev z) -> forallb is_lf z = false.
Proof.
  intros Hne Hz. pose proof (rev_nonempty z Hne) as Hr.
  destruct (rev z) as [|x xs] eqn:E; [congruence|]. simpl in Hz.
  assert (Hin : In x z) by (apply in_rev; rewrite E; left; reflexivity).
  destruct (forallb is_lf z) eqn:F; [|reflexivity].
  rewrite forallb_forall in F. rewrite (F x Hin) in Hz. discriminate.
Qed.

Lemma stops_rev_tail c z : z <> [] -> stops is_lf (rev (c :: z)) -> stops is_lf (rev z).
Proof.
  intros Hne H. cbn [rev] in H.
  exact (stops_app_inv is_lf (rev z) [c] (rev_nonempty z Hne) H).
Qed.

Lemma trim_before_run z : forall lfs,
  stops is_lf (rev z) -> all is_lf lfs ->
  trim_before (z ++ lfs) = z ++ (if nonempty lfs then nl ++ nl else []).
Proof.
  induction z as [|c z IH]; intros lfs Hz Hl.
  - cbn [app]. destruct lfs as [|d lfs]; [reflexivity|].
    cbn [trim_before nonempty]. apply forallb_all in Hl. rewrite Hl.
    reflexivity.
  - cbn [app trim_before].
    change (c :: z ++ lfs) with ((c :: z) ++ lfs).
    rewrite forallb_app, (not_all_lf (c :: z)) by (discriminate || exact Hz).
    cbn [andb]. f_equal. apply IH; [|exact Hl].
    destruct z as [|d z]; [exact I|].
    apply (stops_rev_tail c); [discriminate|exact Hz].
Qed.

Lemma trim_before_idem s : trim_before (trim_before s) = trim_before s.
Proof.
  destruct (trim_before_spec s) as (z & lfs & _ & _ & Hz & ->).
  destruct lfs as [|c lfs]; cbn [nonempty].
  - rewrite (trim_before_run z [] Hz); [reflexivity|constructor].
  - rewrite (trim_before_run z (nl ++ nl) Hz); [reflexivity|repeat constructor].
Qed.

Lemma trim_after_run lfs y :
  all is_lf lfs -> lfs <> [] -> stops is_lf y ->
  trim_after (lfs ++ y) = (nl ++ nl) ++ y
  /\ trim_after_one (lfs ++ y) = nl ++ y.
Proof.
  intros Hl Hne Hy. unfold trim_after, trim_after_one.
  rewrite (@span_unique is_lf lfs y Hl Hy).
  destruct lfs; [congruence|split; reflexivity].
Qed.

Lemma trim_after_stops y :
  stops is_lf y -> trim_after y = y /\ trim_after_one y = y.
Proof.
  intros Hy. unfold trim_after, trim_after_one.
  pose proof (@span_unique is_lf [] y (Forall_nil _) Hy) as E.
  cbn [app] in E. rewrite E. split; reflexivity.
Qed.

Lemma trim_after_one_idem s :
  trim_after_one (trim_after_one s) = trim_after_one s.
Proof.
  destruct (trim_after_one_spec s) as [[-> H]|(r & -> & H)].
  - apply trim_after_stops, H.
  - apply (trim_after_run [Ch LF] r); [repeat constructor|discriminate|exact H].
Qed.

Lemma trimmed_idem hp x hn :
  trimmed hp (trimmed hp x hn) hn = trimmed hp x hn.
Proof.
  unfold trimmed, before_sep, after_one_sep. destruct hn.
  2:{ destruct hp; [apply trim_after_one_idem|reflexivity]. }
  destruct hp; [|apply trim_before_idem].
  destruct (trim_before_spec (trim_after_one x)) as (z & lfs & E & Hl & Hz & Ht).
  rewrite Ht. destruct z as [|c z].
  - cbn [app] in *. destruct lfs as [|d lfs]; cbn [nonempty]; [reflexivity|].
    reflexivity.
  - assert (Hfix : trim_after_one
                     ((c :: z) ++ (if nonempty lfs then nl ++ nl else []))
                   = (c :: z) ++ (if nonempty lfs then nl ++ nl else [])).
    { destruct (trim_after_one_spec x) as [[E' H]|(r & E' & H)];
        rewrite E' in E.
      - apply trim_after_stops. rewrite E in H. exact H.
      - cbn [app] in E. injection E as <- E.
        destruct z as [|d z]; [discriminate Hz|].
        apply (trim_after_run [Ch LF]
                 ((d :: z) ++ (if nonempty lfs then nl ++ nl else [])));
          [repeat constructor|discriminate|].
        rewrite E in H. exact H. }
    rewrite Hfix, <- Ht. apply trim_before_idem.
Qed.

Lemma spaced_fixed hp v hn :
  (hn = true -> ends_two v) -> (hp = true -> starts_two v) ->
  spaced hp v hn = v.
Proof.
  intros He Hs. unfold spaced, after_sep, before_sep, around_sep.
  destruct hn, hp.
  - destruct (He eq_refl) as (z & E & Hz).
    destruct (Hs eq_refl) as (y & E' & Hy).
    destruct z as [|c z].
    + cbn [app] in E. subst v. injection E' as <-. reflexivity.
    + assert (Hz' : stops is_lf (rev ((nl ++ nl) ++ c :: z))).
      { rewrite rev_app_distr.
        apply stops_app_l; [apply rev_nonempty; discriminate|exact Hz]. }
      assert (T : trim_before ((nl ++ nl) ++ v ++ nl ++ nl) = (nl ++ nl) ++ v).
      { rewrite E.
        replace ((nl ++ nl) ++ ((c :: z) ++ nl ++ nl) ++ nl ++ nl)
          with (((nl ++ nl) ++ c :: z) ++ [Ch LF; Ch LF; Ch LF; Ch LF])
          by (rewrite <- !app_assoc; reflexivity).
        rewrite (trim_before_run _ [Ch LF; Ch LF; Ch LF; Ch LF] Hz')
          by (repeat constructor).
        cbn [nonempty]. rewrite <- app_assoc. reflexivity. }
      rewrite T, E'.
      exact (proj1 (trim_after_run [Ch LF; Ch LF; Ch LF; Ch LF] y
                      ltac:(repeat constructor) ltac:(discriminate) Hy)).
  - destruct (He eq_refl) as (z & E & Hz). cbn [app]. rewrite E, <- app_assoc.
    exact (trim_before_run z [Ch LF; Ch LF; Ch LF; Ch LF] Hz
             ltac:(repeat constructor)).
  - destruct (Hs eq_refl) as (y & E & Hy). rewrite E, app_nil_r.
    exact (proj1 (trim_after_run [Ch LF; Ch LF; Ch LF; Ch LF] y
                    ltac:(repeat constructor) ltac:(discriminate) Hy)).
  - cbn [app]. apply app_nil_r.
Qed.

Lemma spaced_idem hp x hn : spaced hp (spaced hp x hn) hn = spaced hp x hn.
Proof.
  apply spaced_fixed.
  - intros ->. apply spaced_ends.
  - intros ->. apply spaced_starts.
Qed.

(** ** Texts whose separators the passes leave as they are *)

Lemma resep_inner_fixed f c2 b : forall hp s,
  inner_fixed f hp s b ->
  f (fst (last_sep hp s b)) (snd (last_sep hp s b)) false
  = snd (last_sep hp s b) ++ c2 ->
  f hp s (next_heading b) ++ render (resep f b) = (s ++ render b) ++ c2.
Proof.
  induction b as [|[l s1] b IH]; intros hp s Hf Hl.
  - cbn in *. rewrite !app_nil_r. exact Hl.
  - destruct Hf as [H1 H2]. cbn [next_heading resep render last_sep] in *.
    rewrite H1, (IH (hline l) s1 H2 Hl), <- !app_assoc. reflexivity.
Qed.

Lemma inner_fixed_resep f b : forall hp s,
  (forall hp x hn, f hp (f hp x hn) hn = f hp x hn) ->
  inner_fixed f hp (f hp s (next_heading b)) (resep f b).
Proof.
  induction b as [|[l s1] b IH]; intros hp s Hf; [exact I|].
  cbn [resep inner_fixed next_heading]. split; [apply Hf|].
  apply IH, Hf.
Qed.

Lemma last_sep_resep f b : forall hp s,
  last_sep hp (f hp s (next_heading b)) (resep f b)
  = (fst (last_sep hp s b),
     f (fst (last_sep hp s b)) (snd (last_sep hp s b)) false).
Proof.
  induction b as [|[l s1] b IH]; intros hp s; [reflexivity|].
  cbn [resep last_sep next_heading]. apply IH.
Qed.

Lemma chop_exists b : forall s r l0,
  is_sep s -> wf_body b -> all is_lf l0 -> s ++ render b = r ++ l0 ->
  exists s' b', r = s' ++ render b' /\ chopped l0 s b s' b'.
Proof.
  induction b as [|[l s1] b IH]; intros s r l0 Hs Hb Hl0 E.
  - exists r, []. cbn in *. rewrite app_nil_r in *. split; [reflexivity|exact E].
  - inversion Hb as [|? ? ? Hl Hs1 He Hb1]; subst.
    cbn [render] in E. rewrite app_assoc in E. apply app_eq_app in E.
    destruct E as [k [[E1 E2]|[E1 E2]]].
    + destruct k as [|c k] using rev_ind.
      * rewrite app_nil_r in E1. cbn [app] in E2.
        destruct (IH s1 [] l0 Hs1 Hb1 Hl0 (eq_sym E2)) as (s' & b' & E3 & Hc).
        exists s, ((l, s') :: b'). cbn [render chopped].
        split; [|repeat split; exact Hc].
        rewrite <- E3, app_nil_r. symmetry. exact E1.
      * exfalso. clear IHk. rewrite app_assoc in E1.
        assert (Hc : is_lf c = true).
        { rewrite E2 in Hl0. apply Forall_app in Hl0. destruct Hl0 as [Hl0 _].
          apply Forall_app in Hl0. destruct Hl0 as [_ Hl0].
          exact (Forall_inv Hl0). }
        destruct Hl as [Hne Hd].
        destruct l as [|d l] using rev_ind; [congruence|].
        rewrite app_assoc in E1. apply app_inj_tail in E1.
        destruct E1 as [_ ->]. apply Forall_app in Hd. destruct Hd as [_ Hd].
        pose proof (Forall_inv Hd) as Hd'. cbv beta in Hd'.
        apply lf_not_dot in Hc. congruence.
    + destruct (IH s1 k l0 Hs1 Hb1 Hl0 E2) as (s' & b' & E3 & Hc).
      exists s, ((l, s') :: b'). cbn [render chopped].
      split; [|repeat split; exact Hc].
      rewrite E1, E3, <- app_assoc. reflexivity.
Qed.

Lemma chopped_head l0 s b s' b' :
  chopped l0 s b s' b' -> b <> [] -> s' = s /\ b' <> [].
Proof.
  destruct b as [|[l s1] b], b' as [|[l' s1'] b']; cbn [chopped];
    try tauto; intros (-> & _ & _) _; split; [reflexivity|discriminate].
Qed.

Lemma chopped_wf l0 b : forall s s' b',
  chopped l0 s b s' b' -> is_sep s -> wf_body b ->
  is_sep s' /\ wf_body b'.
Proof.
  induction b as [|[l s1] b IH]; intros s s' [|[l' s1'] b'] Hc Hs Hb;
    cbn [chopped] in Hc; try tauto.
  - subst s. apply Forall_app in Hs. split; [apply Hs|constructor].
  - destruct Hc as (-> & -> & Hc).
    inversion Hb as [|? ? ? Hl Hs1 He Hb1]; subst.
    destruct (IH s1 s1' b' Hc Hs1 Hb1) as [H1 H2].
    split; [exact Hs|]. constructor; try assumption.
    intros ->. destruct b as [|e b].
    + destruct b'; [reflexivity|destruct Hc].
    + destruct (chopped_head _ _ _ _ _ Hc ltac:(discriminate)) as [E _].
      symmetry in E. specialize (He E). discriminate.
Qed.

Lemma chopped_no_hash l0 b : forall s s' b',
  chopped l0 s b s' b' -> no_hash_line b -> no_hash_line b'.
Proof.
  induction b as [|[l s1] b IH]; intros s s' [|[l' s1'] b'] Hc Hn;
    cbn [chopped] in Hc; try tauto.
  destruct Hc as (-> & -> & Hc). inversion Hn; subst.
  constructor; [assumption|]. eapply IH; eassumption.
Qed.

Lemma chopped_next_heading l0 s b s' b' :
  chopped l0 s b s' b' -> next_heading b' = next_heading b.
Proof.
  destruct b as [|[l s1] b], b' as [|[l' s1'] b']; cbn [chopped];
    try tauto. intros (_ & -> & _). reflexivity.
Qed.

Lemma chopped_inner_fixed f l0 b : forall hp s s' b',
  chopped l0 s b s' b' -> inner_fixed f hp s b -> inner_fixed f hp s' b'.
Proof.
  induction b as [|[l s1] b IH]; intros hp s s' [|[l' s1'] b'] Hc Hf;
    cbn [chopped] in Hc; try tauto.
  destruct Hc as (-> & -> & Hc). destruct Hf as [H1 H2].
  split; [exact H1|]. eapply IH; eassumption.
Qed.

Lemma chopped_last_sep l0 b : forall hp s s' b',
  chopped l0 s b s' b' ->
  fst (last_sep hp s' b') = fst (last_sep hp s b)
  /\ snd (last_sep hp s b) = snd (last_sep hp s' b') ++ l0.
Proof.
  induction b as [|[l s1] b IH]; intros hp s s' [|[l' s1'] b'] Hc;
    cbn [chopped] in Hc; try tauto.
  destruct Hc as (-> & -> & Hc). cbn [last_sep]. apply IH, Hc.
Qed.

(** The last line of a text, before its last separator. *)
Lemma render_last b : forall hp s,
  b <> [] -> is_sep s -> wf_body b ->
  exists x l,
    s ++ render b = x ++ l ++ snd (last_sep hp s b)
    /\ is_line l /\ hline l = fst (last_sep hp s b)
    /\ ends_line is_line_terminator x = true
    /\ (no_hash_line b -> hash_only l = false).
Proof.
  induction b as [|[l s1] b IH]; intros hp s Hne Hs Hb; [congruence|].
  inversion Hb as [|? ? ? Hl Hs1 He Hb1]; subst.
  destruct b as [|e b].
  - exists s, l. cbn [render last_sep fst snd]. rewrite app_nil_r.
    split; [reflexivity|]. split; [exact Hl|]. split; [reflexivity|].
    split; [apply ends_line_sep, Hs|].
    intros Hn. inversion Hn; assumption.
  - destruct (IH (hline l) s1 ltac:(discriminate) Hs1 Hb1)
      as (x & l' & E & H1 & H2 & H3 & H4).
    exists (s ++ l ++ x), l'. cbn [render last_sep] in *.
    rewrite E, <- !app_assoc.
    split; [reflexivity|]. split; [exact H1|]. split; [exact H2|]. split.
    + destruct x as [|c x] using rev_ind.
      * exfalso. destruct s1 as [|c s1]; [specialize (He eq_refl); discriminate|].
        destruct H1 as [Hne' Hd]. destruct l' as [|d l']; [congruence|].
        cbn [app] in E. destruct e as [l2 s2]. cbn [render] in E.
        injection E as -> _. inversion Hs1; subst. inversion Hd; subst.
        unfold is_dot in *. destruct (is_line_terminator d); discriminate.
      * rewrite !app_assoc, ends_line_app_r by discriminate.
        rewrite ends_line_app_r in H3 by discriminate. exact H3.
    + intros Hn. apply H4. inversion Hn; assumption.
Qed.

(** ** The two passes over the ends, on lines and separators *)

Lemma first_pass_fixed r :
  ~ starts_blank_heading r -> replace re_first [Ref 1] r = r.
Proof.
  intros H. destruct (replace_re_first_spec r)
    as [[_ E]|(l & h & ys & E & Hl & Hh & _ & _)]; [exact E|].
  exfalso. apply H. exists l, h, ys. repeat split; try assumption; apply Hl.
Qed.

Lemma last_pass_fixed r :
  ~ ends_heading_blank r -> replace re_last [Ref 1] r = r.
Proof.
  intros H. destruct (replace_re_last_spec r)
    as [[_ E]|(pre & h & l & E & Hh & Hl & _ & _)]; [exact E|].
  exfalso. apply H. exists pre, h, l. repeat split; try assumption; apply Hl.
Qed.

Lemma heading_line_not_hashes l q hs :
  is_line l -> hline l = true -> all is_hash hs -> hs = q ++ l -> False.
Proof.
  intros Hl Hh Hhs E.
  destruct (hline_is_heading l Hl Hh) as (hs' & w & ds & -> & _ & _ & Hw & _).
  assert (Hin : In w hs).
  { rewrite E. apply in_or_app. right. apply in_or_app. right. left.
    reflexivity. }
  pose proof (all_in is_hash hs w Hhs Hin) as Hc.
  apply hash_not_space in Hc. congruence.
Qed.

(** A heading line followed by LF only, at the end of the text, loses
    them. *)
Lemma last_pass_heading_line x l lfs :
  is_line l -> hline l = true -> all is_lf lfs -> lfs <> [] ->
  replace re_last [Ref 1] (x ++ l ++ lfs) = x ++ l.
Proof.
  intros Hl Hh Hlfs Hne.
  pose proof (hline_is_heading l Hl Hh) as Hhead.
  pose proof (match_re_last_complete (prev_after None x) l lfs Hhead
                (conj Hne Hlfs)) as Hm.
  destruct (replace_re_last_spec (x ++ l ++ lfs))
    as [[E _]|(pre & h & l0 & E & Hh0 & Hl0 & Hleft & ->)].
  { exfalso. apply Hm. apply (has_match_from_none re_last x None). exact E. }
  assert (Hdot : forall k a, x ++ l = a ++ k -> all is_lf k -> k = []).
  { intros k a E1 Hk. destruct k as [|c k] using rev_ind; [reflexivity|].
    exfalso. destruct Hl as [Hne' Hd].
    destruct l as [|d l] using rev_ind; [congruence|].
    rewrite !app_assoc in E1. apply app_inj_tail in E1. destruct E1 as [_ ->].
    apply Forall_app in Hd, Hk. destruct Hd as [_ Hd]. destruct Hk as [_ Hk].
    pose proof (Forall_inv Hd) as H1. pose proof (Forall_inv Hk) as H2.
    cbv beta in H1, H2. apply lf_not_dot in H2. congruence. }
  rewrite !app_assoc in E. apply app_eq_app in E.
  destruct E as [k [[E1 E2]|[E1 E2]]].
  - assert (k = []) as ->.
    { apply (Hdot k (pre ++ h)); [exact E1|].
      destruct Hl0 as [_ Hl0]. rewrite E2 in Hl0. apply Forall_app in Hl0.
      apply Hl0. }
    rewrite app_nil_r in E1. symmetry. exact E1.
  - destruct k as [|c k] using rev_ind.
    { rewrite app_nil_r in E1. exact E1. }
    exfalso. clear IHk.
    assert (Hk : all is_lf (k ++ [c])).
    { rewrite E2 in Hlfs. apply Forall_app in Hlfs. apply Hlfs. }
    apply Forall_app in Hk. destruct Hk as [Hk Hc].
    pose proof (Forall_inv Hc) as Hc'. cbv beta in Hc'.
    destruct Hh0 as (hs & w & ds & -> & Hhs_ne & Hhs & Hw & Hds).
    destruct ds as [|d ds] using rev_ind.
    2:{ clear IHds.
        assert (E1' : (pre ++ hs ++ w :: ds) ++ [d] = ((x ++ l) ++ k) ++ [c]).
        { rewrite <- !app_assoc. cbn [app]. rewrite <- app_assoc in E1.
          exact E1. }
        apply app_inj_tail in E1'. destruct E1' as [_ ->].
        apply Forall_app in Hds. destruct Hds as [_ Hds].
        pose proof (Forall_inv Hds) as Hd. cbv beta in Hd.
        apply lf_not_dot in Hc'. congruence. }
    rewrite !app_assoc in E1. apply app_inj_tail in E1.
    destruct E1 as [E1 ->].
    destruct k as [|c2 k] using rev_ind.
    2:{ clear IHk. rewrite !app_assoc in E1.
        destruct hs as [|h0 hs] using rev_ind; [congruence|].
        rewrite !app_assoc in E1. apply app_inj_tail in E1.
        destruct E1 as [_ ->]. apply Forall_app in Hhs, Hk.
        destruct Hhs as [_ Hhs]. destruct Hk as [_ Hk].
        pose proof (Forall_inv Hhs) as H1. pose proof (Forall_inv Hk) as H2.
        cbv beta in H1, H2. apply hash_not_lf in H1. congruence. }
    rewrite app_nil_r in E1. apply app_eq_app in E1.
    destruct E1 as [q [[E3 E4]|[E3 E4]]].
    + destruct q as [|c3 q].
      * cbn [app] in E4. subst hs.
        apply (heading_line_not_hashes l [] l Hl Hh Hhs). reflexivity.
      * apply Hm. rewrite <- (Hleft x (c3 :: q) E3 ltac:(discriminate)).
        f_equal. rewrite E4, E2. cbn [app]. rewrite <- !app_assoc.
        reflexivity.
    + apply (heading_line_not_hashes l q hs Hl Hh Hhs). exact E4.
Qed.

Lemma replace_first_later tpl : forall t c,
  replace_from re_first tpl (Some c) t = t.
Proof.
  induction t as [|d t IH]; intros c; cbn [replace_from];
    rewrite match_re_first; cbn [at_bol andb]; [reflexivity|].
  rewrite IH. reflexivity.
Qed.

Lemma replace_first_none tpl t :
  match_at re_first None t = None -> replace re_first tpl t = t.
Proof.
  intros H. unfold replace. destruct t as [|c t]; cbn [replace_from];
    rewrite H; [reflexivity|]. rewrite replace_first_later. reflexivity.
Qed.

Lemma lf_run_stops t : stops is_lf t -> lf_run t = None.
Proof.
  intros H. unfold lf_run.
  pose proof (@span_unique is_lf [] t (Forall_nil _) H) as E.
  cbn [app] in E. rewrite E. reflexivity.
Qed.

(** The first pass over the ends removes the first separator when it is
    made of LF and a heading line follows it, and nothing else. *)
Lemma first_blocks s b :
  is_sep s -> wf_body b -> no_hash_line b ->
  replace re_first [Ref 1] (s ++ render b)
  = (if next_heading b && forallb is_lf s && nonempty s then [] else s)
    ++ render b.
Proof.
  intros Hs Hb Hn.
  destruct s as [|c s].
  { rewrite andb_false_r. apply replace_first_none.
    rewrite match_re_first, match_re_before. cbn [at_bol app].
    rewrite (lf_run_stops _ (stops_render b Hb)). reflexivity. }
  destruct (forallb is_lf (c :: s)) eqn:F.
  2:{ rewrite andb_false_r. cbn [andb]. apply replace_first_none.
      rewrite match_re_first. cbn [at_bol].
      apply (match_before_mixed None (c :: s) (render b) Hs F). }
  rewrite andb_true_r. cbn [nonempty]. rewrite andb_true_r.
  assert (Hrun : is_lf_run (c :: s)).
  { split; [discriminate|]. apply forallb_all. exact F. }
  pose proof (match_before_run None (c :: s) (render b) Hrun
                (stops_render b Hb)) as Hm.
  destruct b as [|[l s1] b].
  { cbn [next_heading]. apply replace_first_none.
    rewrite match_re_first. cbn [at_bol]. rewrite Hm. reflexivity. }
  inversion Hb as [|? ? ? Hl Hs1 He Hb1]; subst.
  inversion Hn as [|? ? Hh Hn1]; subst. cbn [fst] in Hh.
  cbn [render next_heading] in *.
  rewrite (heading_split_line l (s1 ++ render b) Hl Hh
             (stops_dot_after l s1 b Hb)) in Hm.
  destruct (hline l).
  - unfold replace. cbn [replace_from app]. cbn [app] in Hm.
    rewrite match_re_first. cbn [at_bol]. rewrite Hm.
    cbn [caps rest subst get_cap Nat.eqb]. rewrite app_nil_r. reflexivity.
  - apply replace_first_none. rewrite match_re_first. cbn [at_bol].
    exact Hm.
Qed.

(** ** Running the callback twice *)

(** The text after the passes over the ends, as lines and separators. *)
Lemma edge_blocks s b :
  is_sep s -> wf_body b -> no_hash_line b ->
  exists s' b' l0,
    edge_pass (s ++ render b) = s' ++ render b'
    /\ all is_lf l0
    /\ chopped l0
         (if next_heading b && forallb is_lf s && nonempty s then [] else s)
         b s' b'.
Proof.
  intros Hs Hb Hn. unfold edge_pass. rewrite (first_blocks s b Hs Hb Hn).
  set (f0 := if next_heading b && forallb is_lf s && nonempty s
             then [] else s).
  assert (Hf0 : is_sep f0).
  { unfold f0. destruct (_ && _ && _); [constructor|exact Hs]. }
  destruct (last_pass_prefix (f0 ++ render b)) as (l0 & E & Hl0).
  destruct (chop_exists b f0 _ l0 Hf0 Hb Hl0 E) as (s' & b' & E' & Hc).
  exists s', b', l0. split; [exact E'|]. split; assumption.
Qed.

Lemma last_sep_head hp s s' b :
  b <> [] -> last_sep hp s b = last_sep hp s' b.
Proof. destruct b as [|[l s1] b]; [congruence|reflexivity]. Qed.

Lemma inner_fixed_head f hp s s' b :
  inner_fixed f hp s b -> f hp s' (next_heading b) = s' ->
  inner_fixed f hp s' b.
Proof.
  destruct b as [|[l s1] b]; [auto|]. cbn [inner_fixed next_heading].
  intros [_ H] E. split; assumption.
Qed.

Lemma trim_after_one_prefix x x' l0 :
  trim_after_one x = x -> x = x' ++ l0 -> trim_after_one x' = x'.
Proof.
  intros Hx E. destruct (trim_after_one_spec x) as [[_ H]|(r & Er & H)].
  - apply trim_after_stops. destruct x' as [|c x']; [exact I|].
    rewrite E in H. exact H.
  - rewrite Hx in Er. destruct x' as [|c x']; [reflexivity|].
    rewrite E in Er. cbn [app] in Er. injection Er as -> Er.
    apply (trim_after_run [Ch LF] x'); [repeat constructor|discriminate|].
    destruct x' as [|d x']; [exact I|]. rewrite <- Er in H. exact H.
Qed.

Lemma edge_pass_idem u : edge_pass (edge_pass u) = edge_pass u.
Proof.
  pose proof (last_pass_keeps_start _ (first_pass_no_leading u)) as H1.
  pose proof (last_pass_no_trailing (replace re_first [Ref 1] u)) as H2.
  fold (edge_pass u) in H1, H2.
  unfold edge_pass at 1. rewrite (first_pass_fixed _ H1).
  apply last_pass_fixed, H2.
Qed.

Lemma last_sep_stripped s b :
  last_sep false
    (if next_heading b && forallb is_lf s && nonempty s then [] else s) b
  = last_sep false s b.
Proof. destruct b as [|[l s1] b]; reflexivity. Qed.

Lemma rewrite_default_blank bot t :
  rewrite (Options bot true true) t
  = Some (edge_pass (spacing_pass (Options bot true true) t)).
Proof. reflexivity. Qed.

Lemma trimmed_head_fixed s0 hn :
  trimmed false
    (if hn && forallb is_lf (trimmed false s0 hn)
        && nonempty (trimmed false s0 hn)
     then [] else trimmed false s0 hn) hn
  = if hn && forallb is_lf (trimmed false s0 hn)
       && nonempty (trimmed false s0 hn)
    then [] else trimmed false s0 hn.
Proof.
  destruct (hn && forallb is_lf (trimmed false s0 hn)
            && nonempty (trimmed false s0 hn)).
  - destruct hn; reflexivity.
  - apply trimmed_idem.
Qed.

Lemma rewrite_twice_no_bottom t r :
  no_bare_hashes t = true ->
  rewrite (Options false true true) t = Some r ->
  rewrite (Options false true true) r = Some r.
Proof.
  intros Hn H. rewrite rewrite_default_blank in H. injection H as <-.
  rewrite rewrite_default_blank. f_equal.
  destruct (parse_exists t) as (s0 & b & -> & Hs0 & Hb).
  pose proof (no_hash_line_lines s0 b Hs0 Hb Hn) as Hnb.
  rewrite (spacing_no_bottom true true s0 b Hs0 Hb Hnb).
  pose proof (proj1 (keeps_sep_trimmed false s0 (next_heading b) Hs0)) as HS.
  pose proof (wf_body_resep _ b keeps_sep_trimmed Hb) as HB.
  pose proof (no_hash_line_resep trimmed b Hnb) as HN.
  destruct (edge_blocks _ _ HS HB HN) as (s' & b' & l0 & E & Hl0 & Hc).
  set (S0 := trimmed false s0 (next_heading b)) in *.
  set (B := resep trimmed b) in *.
  set (F0 := if next_heading B && forallb is_lf S0 && nonempty S0
             then [] else S0) in *.
  assert (HF0 : is_sep F0).
  { unfold F0. destruct (_ && _ && _); [constructor|exact HS]. }
  destruct (chopped_wf l0 B F0 s' b' Hc HF0 HB) as [Hs' Hb'].
  pose proof (chopped_no_hash l0 B F0 s' b' Hc HN) as Hn'.
  assert (Hfix : spacing_pass (Options false true true) (s' ++ render b')
                 = s' ++ render b').
  { rewrite (spacing_no_bottom true true s' b' Hs' Hb' Hn').
    rewrite <- (app_nil_r (s' ++ render b')).
    apply resep_inner_fixed.
    - apply (chopped_inner_fixed trimmed l0 B false F0 s' b' Hc).
      apply (inner_fixed_head trimmed false S0).
      + apply inner_fixed_resep. exact trimmed_idem.
      + unfold F0, B, S0. rewrite next_heading_resep.
        apply trimmed_head_fixed.
    - destruct (chopped_last_sep l0 B false F0 s' b' Hc) as [E1 E2].
      unfold F0 in E1, E2. rewrite last_sep_stripped in E1, E2.
      unfold S0, B in E1, E2. rewrite last_sep_resep in E1, E2.
      cbn [fst snd] in E1, E2. rewrite E1, app_nil_r.
      unfold trimmed, before_sep, after_one_sep in *.
      destruct (fst (last_sep false s0 b)); [|reflexivity].
      exact (trim_after_one_prefix _ _ l0 (trim_after_one_idem _) E2). }
  rewrite E, Hfix, <- E. apply edge_pass_idem.
Qed.

Lemma spaced_head_first s0 hn :
  let S0 := spaced false s0 hn in
  let F0 := if hn && forallb is_lf S0 && nonempty S0 then [] else S0 in
  (if hn && forallb is_lf (spaced false F0 hn)
      && nonempty (spaced false F0 hn)
   then [] else spaced false F0 hn) = F0.
Proof.
  cbv zeta. destruct hn.
  - cbn [andb].
    destruct (forallb is_lf (spaced false s0 true)
              && nonempty (spaced false s0 true)) eqn:C.
    + reflexivity.
    + rewrite spaced_idem, C. reflexivity.
  - cbn [andb]. apply spaced_idem.
Qed.

Lemma spaced_last hpl y sl l0 :
  spaced hpl y false = sl ++ l0 ->
  ~ (hpl = true /\ is_lf_run sl) ->
  spaced hpl sl false
  = sl ++ (if hpl && negb (nonempty sl) then nl ++ nl else []).
Proof.
  intros E Hno. destruct hpl.
  2:{ cbn [andb]. rewrite app_nil_r. apply spaced_fixed; discriminate. }
  destruct (spaced_starts y false) as (y2 & E2 & Hy2). rewrite E in E2.
  destruct sl as [|c1 [|c2 y1]].
  - reflexivity.
  - exfalso. apply Hno. split; [reflexivity|]. split; [discriminate|].
    injection E2 as -> _. repeat constructor.
  - injection E2 as -> -> E2. cbn [nonempty negb andb]. rewrite app_nil_r.
    apply spaced_fixed; [discriminate|]. intros _.
    exists y1. split; [reflexivity|].
    destruct y1 as [|d y1].
    + exfalso. apply Hno. split; [reflexivity|]. split; [discriminate|].
      repeat constructor.
    + rewrite <- E2 in Hy2. exact Hy2.
Qed.

Lemma rewrite_twice_bottom t r :
  no_bare_hashes t = true ->
  rewrite (Options true true true) t = Some r ->
  rewrite (Options true true true) r = Some r.
Proof.
  intros Hn H. rewrite rewrite_default_blank in H. injection H as <-.
  rewrite rewrite_default_blank. f_equal.
  destruct (parse_exists t) as (s0 & b & -> & Hs0 & Hb).
  pose proof (no_hash_line_lines s0 b Hs0 Hb Hn) as Hnb.
  rewrite (spacing_bottom true true s0 b Hs0 Hb Hnb).
  pose proof (proj1 (keeps_sep_spaced false s0 (next_heading b) Hs0)) as HS.
  pose proof (wf_body_resep _ b keeps_sep_spaced Hb) as HB.
  pose proof (no_hash_line_resep spaced b Hnb) as HN.
  destruct (edge_blocks _ _ HS HB HN) as (s' & b' & l0 & E & Hl0 & Hc).
  pose proof (last_pass_no_trailing
                (replace re_first [Ref 1]
                   (spaced false s0 (next_heading b)
                    ++ render (resep spaced b)))) as Hno.
  fold (edge_pass (spaced false s0 (next_heading b)
                   ++ render (resep spaced b))) in Hno.
  rewrite E in *.
  assert (HF0 : is_sep (if next_heading (resep spaced b)
                           && forallb is_lf (spaced false s0 (next_heading b))
                           && nonempty (spaced false s0 (next_heading b))
                        then [] else spaced false s0 (next_heading b))).
  { destruct (_ && _ && _); [constructor|exact HS]. }
  destruct (chopped_wf l0 _ _ s' b' Hc HF0 HB) as [Hs' Hb'].
  pose proof (chopped_no_hash l0 _ _ s' b' Hc HN) as Hn'.
  rewrite (spacing_bottom true true s' b' Hs' Hb' Hn').
  unfold edge_pass.
  rewrite (first_blocks _ _
             (proj1 (keeps_sep_spaced false s' (next_heading b') Hs'))
             (wf_body_resep _ b' keeps_sep_spaced Hb')
             (no_hash_line_resep spaced b' Hn')).
  rewrite next_heading_resep.
  pose proof (chopped_next_heading l0 _ _ s' b' Hc) as Hnh.
  destruct (chopped_last_sep l0 _ false _ s' b' Hc) as [E1 E2].
  rewrite last_sep_stripped, last_sep_resep in E1, E2.
  cbn [fst snd] in E1, E2.
  rewrite next_heading_resep in Hnh, Hc.
  destruct b as [|[l1 s1] b1].
  { destruct b' as [|e b']; [|destruct Hc]. cbn [next_heading andb].
    cbn [resep render]. rewrite !app_nil_r in *.
    rewrite (spaced_fixed false s' false) by discriminate.
    apply last_pass_fixed. exact Hno. }
  destruct b' as [|[l1' s1'] b1']; [destruct Hc|].
  cbn [resep chopped next_heading] in Hc, Hnh.
  destruct Hc as (-> & -> & Hc). cbn [next_heading].
  rewrite (spaced_head_first s0 (hline l1)).
  set (F0 := if hline l1 && forallb is_lf (spaced false s0 (hline l1))
                && nonempty (spaced false s0 (hline l1))
             then [] else spaced false s0 (hline l1)) in *.
  destruct (render_last ((l1, s1') :: b1') false F0 ltac:(discriminate)
              Hs' Hb') as (x & l & Ex & Hl & Hhl & _ & _).
  cbn [next_heading] in E1, E2. cbn [last_sep] in E1, E2, Ex, Hhl.
  assert (Hlast : ~ (fst (last_sep (hline l1) s1' b1') = true
                     /\ is_lf_run (snd (last_sep (hline l1) s1' b1')))).
  { intros [H1 H2]. apply Hno. rewrite Ex.
    exists x, l, (snd (last_sep (hline l1) s1' b1')).
    split; [reflexivity|]. split; [|exact H2].
    apply hline_is_heading; [exact Hl|]. rewrite Hhl. exact H1. }
  pose proof (spaced_last _ _ _ l0 E2) as HL. rewrite <- E1 in HL.
  specialize (HL Hlast).
  assert (Hin : inner_fixed spaced (hline l1) s1' b1').
  { apply (chopped_inner_fixed spaced l0 (resep spaced b1) (hline l1)
             _ s1' b1' Hc).
    apply inner_fixed_resep. exact spaced_idem. }
  cbn [resep render].
  rewrite (resep_inner_fixed spaced _ b1' (hline l1) s1' Hin HL).
  destruct (fst (last_sep (hline l1) s1' b1')
            && negb (nonempty (snd (last_sep (hline l1) s1' b1')))) eqn:C.
  - apply andb_prop in C. destruct C as [C1 C2].
    destruct (snd (last_sep (hline l1) s1' b1')) as [|c sl]; [|discriminate].
    cbn [render] in Ex. rewrite app_nil_r in Ex.
    replace (F0 ++ l1 ++ (s1' ++ render b1') ++ nl ++ nl)
      with ((F0 ++ l1 ++ s1' ++ render b1') ++ nl ++ nl)
      by (rewrite <- !app_assoc; reflexivity).
    rewrite Ex, <- app_assoc.
    apply last_pass_heading_line;
      [exact Hl|rewrite Hhl; exact C1|repeat constructor|discriminate].
  - rewrite app_nil_r. apply last_pass_fixed. exact Hno.
Qed.

(** ** Separators between lines that are not headings *)

Lemma entry_resep_fwd f b : forall hp0 s0 hp sp h s b2,
  entry_at hp0 s0 b hp sp h s b2 ->
  entry_at hp0 (f hp0 s0 (next_heading b)) (resep f b) hp
    (f hp sp (hline h)) h (f (hline h) s (next_heading b2)) (resep f b2).
Proof.
  induction b as [|[l s1] b IH]; intros hp0 s0 hp sp h s b2 H; [destruct H|].
  cbn [resep entry_at next_heading] in *.
  destruct H as [(-> & -> & -> & -> & ->)|H].
  - left. repeat split.
  - right. apply (IH (hline l) s1). exact H.
Qed.

Lemma entry_head b hp0 s0 s0' hp sp h s b2 :
  entry_at hp0 s0 b hp sp h s b2 ->
  exists sp', entry_at hp0 s0' b hp sp' h s b2.
Proof.
  destruct b as [|[l s1] b]; intros H; [destruct H|].
  cbn [entry_at] in *. destruct H as [(-> & -> & -> & -> & ->)|H].
  - exists s0'. left. repeat split.
  - exists sp. right. exact H.
Qed.

Lemma chopped_entry l0 b : forall hp0 s0 s0' b' hp sp h s b2,
  chopped l0 s0 b s0' b' ->
  entry_at hp0 s0 b hp sp h s b2 -> b2 <> [] ->
  exists b2', entry_at hp0 s0' b' hp sp h s b2'
              /\ next_heading b2' = next_heading b2
              /\ exists l2 s2 s2' b3 b3',
                   b2 = (l2, s2) :: b3 /\ b2' = (l2, s2') :: b3'.
Proof.
  induction b as [|[l s1] b IH];
    intros hp0 s0 s0' [|[l' s1'] b'] hp sp h s b2 Hc H Hne;
    cbn [chopped entry_at] in *; try tauto.
  destruct Hc as (-> & -> & Hc).
  destruct H as [(-> & -> & -> & -> & ->)|H].
  - destruct (chopped_head _ _ _ _ _ Hc Hne) as [-> Hne'].
    exists b'. split; [left; repeat split|].
    split; [exact (chopped_next_heading _ _ _ _ _ Hc)|].
    destruct b as [|[l2 s2] b3], b' as [|[l2' s2'] b3'];
      cbn [chopped] in Hc; try tauto.
    destruct Hc as (_ & -> & _). exists l2, s2, s2', b3, b3'.
    split; reflexivity.
  - destruct (IH (hline l) s1 s1' b' hp sp h s b2 Hc H Hne)
      as (b2' & H1 & H2).
    exists b2'. split; [right; exact H1|exact H2].
Qed.

Lemma entry_render b : forall hp0 s0 hp sp h s b2,
  entry_at hp0 s0 b hp sp h s b2 ->
  exists w, s0 ++ render b = w ++ h ++ s ++ render b2.
Proof.
  induction b as [|[l s1] b IH]; intros hp0 s0 hp sp h s b2 H; [destruct H|].
  cbn [entry_at render] in *.
  destruct H as [(-> & -> & -> & -> & ->)|H].
  - exists s0. reflexivity.
  - destruct (IH (hline l) s1 hp sp h s b2 H) as (w & E).
    exists (s0 ++ l ++ w). rewrite E, <- !app_assoc. reflexivity.
Qed.

Lemma sep_span_unique s r s' r' :
  is_sep s -> stops is_line_terminator r ->
  is_sep s' -> stops is_line_terminator r' ->
  s ++ r = s' ++ r' -> s = s' /\ r = r'.
Proof.
  intros Hs Hr Hs' Hr' E.
  pose proof (@span_unique is_line_terminator s r Hs Hr) as E1.
  pose proof (@span_unique is_line_terminator s' r' Hs' Hr') as E2.
  rewrite E in E1. rewrite E1 in E2. injection E2 as -> ->. split; reflexivity.
Qed.

Lemma stops_terminator_line l rest :
  is_line l -> stops is_line_terminator (l ++ rest).
Proof.
  intros [Hne Hd]. destruct l as [|c l]; [congruence|].
  pose proof (Forall_inv Hd) as H. cbv beta in H. unfold is_dot in H.
  simpl. destruct (is_line_terminator c); [discriminate|reflexivity].
Qed.

Lemma stops_terminator_render b :
  wf_body b -> stops is_line_terminator (render b).
Proof.
  intros H. destruct H as [|l s b Hl _ _ _]; [exact I|].
  apply stops_terminator_line. exact Hl.
Qed.

Lemma sep_kept_blocks f s0 b pre l1 s l2 post :
  keeps_sep f -> (forall x, f false x false = x) ->
  is_sep s0 -> wf_body b -> no_hash_line b ->
  s0 ++ render b = pre ++ l1 ++ s ++ l2 ++ post ->
  is_line l1 -> is_line l2 -> is_sep s -> s <> [] ->
  ends_line is_line_terminator pre = true ->
  starts_line is_line_terminator post = true ->
  hline l1 = false -> hline l2 = false ->
  exists pre' post',
    edge_pass (f false s0 (next_heading b) ++ render (resep f b))
    = pre' ++ l1 ++ s ++ l2 ++ post'.
Proof.
  intros Hf Hid Hs0 Hb Hnb E Hl1 Hl2 Hs Hne Hpre Hpost Hh1 Hh2.
  assert (Hw : whole_line ([] ++ pre) l1 (s ++ l2 ++ post)).
  { split; [exact Hl1|]. split; [exact Hpre|].
    destruct s as [|c s]; [congruence|]. simpl.
    exact (Forall_inv Hs). }
  destruct (whole_line_entry b [] false s0 pre l1 (s ++ l2 ++ post)
              I Hs0 Hb E Hw)
    as (hp & sp & se & b2 & w' & Hent & _ & Epost & _ & Hwf).
  inversion Hwf as [|? ? ? _ Hse _ Hb2]; subst.
  destruct (sep_span_unique s (l2 ++ post) se (render b2) Hs
              (stops_terminator_line l2 post Hl2) Hse
              (stops_terminator_render b2 Hb2) Epost) as [<- E2].
  destruct b2 as [|[l2' s2] b3].
  { exfalso. destruct Hl2 as [Hn _]. destruct l2; [congruence|discriminate]. }
  cbn [render] in E2. inversion Hb2 as [|? ? ? Hl2' _ _ _]; subst.
  destruct (dot_span_unique l2 post l2' (s2 ++ render b3)
              (proj2 Hl2) (starts_line_stops_dot post Hpost)
              (proj2 Hl2') (stops_dot_after l2' s2 b3 Hb2) E2) as [<- _].
  pose proof (entry_resep_fwd f b _ _ _ _ _ _ _ Hent) as H1.
  cbn [next_heading] in H1. rewrite Hh1, Hh2, Hid in H1.
  pose proof (proj1 (Hf false s0 (next_heading b) Hs0)) as HS.
  destruct (edge_blocks _ _ HS (wf_body_resep f b Hf Hb)
              (no_hash_line_resep f b Hnb))
    as (s' & b' & l0 & -> & _ & Hc).
  destruct (entry_head _ _ _
              (if next_heading (resep f b)
                  && forallb is_lf (f false s0 (next_heading b))
                  && nonempty (f false s0 (next_heading b))
               then [] else f false s0 (next_heading b)) _ _ _ _ _ H1)
    as (sp' & H2).
  destruct (chopped_entry l0 _ _ _ _ _ _ _ _ _ _ Hc H2)
    as (b2' & H3 & _ & lx & sx & sx' & bx & bx' & Ex & ->);
    [discriminate|].
  cbn [resep] in Ex. injection Ex as <- _ _.
  destruct (entry_render _ _ _ _ _ _ _ _ H3) as (w & Er).
  exists w, (sx' ++ render bx'). rewrite Er. reflexivity.
Qed.

Lemma spaced_plain x : spaced false x false = x.
Proof.
  unfold spaced, after_sep, before_sep, around_sep. cbn [app].
  apply app_nil_r.
Qed.

Lemma trimmed_plain x : trimmed false x false = x.
Proof. reflexivity. Qed.

(** * The claims *)

(** C1. Every example published by the rule holds: [apply] on its
    [before] text, with its options, returns its [after] text. *)
Theorem examples_hold : Forall example_holds exampleBuilders.
Proof. repeat constructor; vm_compute; reflexivity. Qed.

(** C2, as the code behaves. [apply] is not idempotent: with [bottom] off,
    a document made of an empty line, a line [#] and a heading [# A] comes
    back as [#], [# A], and a second run puts an empty line between the
    two. *)
Theorem apply_twice_differs :
  let o := Options false true true in
  apply (of_lines [""%string; "#"%string; "# A"%string]) o
    = Some (of_lines ["#"%string; "# A"%string])
  /\ apply (of_lines ["#"%string; "# A"%string]) o
    = Some (of_lines ["#"%string; ""%string; "# A"%string])
  /\ of_lines ["#"%string; "# A"%string]
     <> of_lines ["#"%string; ""%string; "# A"%string].
Proof. repeat split; try (vm_compute; reflexivity). discriminate. Qed.



(** C4. [apply] returns a text with as many heading lines as its
    argument. *)
Theorem heading_count_invariant (text : list N)
  (options : HeadingBlankLinesOptions) :
  exists out,
    apply text options = Some out /\ heading_count out = heading_count text.
Proof.
  destruct (apply_total text options) as (out & H1 & H2).
  exists out. split; [exact H1|].
  rewrite !heading_count_doc_lines, H2. reflexivity.
Qed.




(** C6. With [bottom] on and [emptyLineAfterYaml] off, the heading that
    follows the frontmatter stays on the line after it and gets one empty
    line after it. *)
Theorem yaml_example :
  apply (of_lines ["---"; "key: value"; "---"; "# Header";
                   "Paragraph here..."]%string)
    (Options true false true)
  = Some (of_lines ["---"; "key: value"; "---"; "# Header"; "";
                    "Paragraph here..."]%string).
Proof. vm_compute. reflexivity. Qed.

(** C7, as stated, fails for a blank line that has white space: with
    [emptyLineInBlankSections] off, the line of white space between two
    headings stays, and an empty line is put after it. *)
Lemma blank_section_kept :
  exists out,
    apply (of_lines ["# A"; " "; "# B"]%string) (Options false true false)
    = Some out
    /\ out = of_lines ["# A"; " "; ""; "# B"]%string
    /\ blank_section (doc_all_lines out) = true.
Proof.
  eexists. split; [vm_compute; reflexivity|]. split; vm_compute; reflexivity.
Qed.

(** C7, as amended: empty lines, not lines of white space. With
    [emptyLineInBlankSections] off, whatever the two other options, the text
    the callback returns, of which [apply] returns the restoration, has no
    two headings with nothing but two or more LF between them, and it has
    the non-empty lines of the masked text: no two lines are merged. *)
Theorem blank_sections_collapsed (text : list N) (bottom0 yaml0 : bool) :
  exists res,
    rewrite (Options bottom0 yaml0 false) (mask_all ignored (chars text))
    = Some res
    /\ apply text (Options bottom0 yaml0 false) = Some (unmask res)
    /\ ~ blank_between_headings res
    /\ text_lines res = text_lines (mask_all ignored (chars text)).
Proof.
  destruct (rewrite_total (Options bottom0 yaml0 false)
              (mask_all ignored (chars text))) as (res & H1 & H2).
  exists res. split; [exact H1|]. split; [|split; [|exact H2]].
  - rewrite apply_unfold, H1. reflexivity.
  - destruct (rewrite_spec _ _ res H1) as (mid & Hmid & ->).
    apply yaml_pass_no_blank_section, edge_pass_no_blank_section.
    destruct (blank_section_pass_total (Options bottom0 yaml0 false)
                (spacing_pass (Options bottom0 yaml0 false)
                   (mask_all ignored (chars text))))
      as (mid' & Hm & Hno & _).
    rewrite Hm in Hmid. injection Hmid as <-.
    apply no_match_no_blank_section, Hno. reflexivity.
Qed.

(** C8, as stated, fails for a blank line that has white space: the line of
    white space before the first heading, or after the last one, stays, and
    an empty line is put next to it. *)
Lemma blank_edges_kept :
  (exists out,
     apply (of_lines [" "; "# A"; "b"]%string) defaultOptions = Some out
     /\ out = of_lines [" "; ""; "# A"; ""; "b"]%string
     /\ leading_blank_heading (doc_all_lines out) = true)
  /\ (exists out,
        apply (of_lines ["a"; "# A"; " "]%string) defaultOptions = Some out
        /\ out = of_lines ["a"; ""; "# A"; ""; " "]%string
        /\ trailing_heading_blank (doc_all_lines out) = true).
Proof.
  split; eexists; (split; [vm_compute; reflexivity|]);
    split; vm_compute; reflexivity.
Qed.

(** C8, as amended: empty lines, not lines of white space. Whatever the
    options, the text the callback returns, of which [apply] returns the
    restoration, neither starts with one or more LF followed by a heading
    nor ends with a heading followed by one or more LF, and it has the
    non-empty lines of the masked text; and the last pass leaves as it is a
    text that does not end with LF. *)
Theorem edges_stripped :
  (forall (text : list N) (options : HeadingBlankLinesOptions),
     exists res,
       rewrite options (mask_all ignored (chars text)) = Some res
       /\ apply text options = Some (unmask res)
       /\ ~ starts_blank_heading res
       /\ ~ ends_heading_blank res
       /\ text_lines res = text_lines (mask_all ignored (chars text)))
  /\ (forall t c,
        replace re_last [Ref 1] (t ++ [c]) = t ++ [c] \/ c = Ch LF).
Proof.
  split.
  - intros text options.
    destruct (rewrite_total options (mask_all ignored (chars text)))
      as (res & H1 & H2).
    exists res. split; [exact H1|]. split.
    + rewrite apply_unfold, H1. reflexivity.
    + destruct (rewrite_spec options _ res H1) as (mid & _ & ->).
      destruct (edge_yaml_ends options mid) as [Ha Hb].
      split; [exact Ha|]. split; [exact Hb|exact H2].
  - intros t c. destruct (is_lf c) eqn:E.
    + right. apply is_lf_eq. exact E.
    + left. apply last_pass_no_newline. exact E.
Qed.

(** C9. [apply] returns on every text and for every options record, and
    the loop over blank sections, given more fuel than the text has
    symbols, exits on a text where its expression matches nowhere. *)
Theorem apply_terminates :
  (forall text options, exists out, apply text options = Some out)
  /\ (forall t, exists res,
        collapse_blank_sections (S (length t)) t = Some res
        /\ has_match re_blank_section res = false).
Proof.
  split.
  - intros text options. destruct (apply_total text options) as (out & H & _).
    exists out. exact H.
  - intros t.
    destruct (collapse_blank_sections_total (fuel := S (length t)) t)
      as (res & H1 & H2 & _); [lia|].
    exists res. split; assumption.
Qed.

(** C10, as the code behaves. With [bottom] off, the heading [# A] that
    follows the line [#] gets no empty line before it: the empty line goes
    before [#], which the heading pattern reads together with [# A]. *)
Theorem heading_after_bare_hash :
  apply (of_lines ["text"; "#"; "# A"]%string) (Options false true true)
  = Some (of_lines ["text"; ""; "#"; "# A"]%string).
Proof. vm_compute. reflexivity. Qed.

(** * Further properties of the rule *)

(** X1. Whatever the options, the callback of [apply] only adds and removes
    LF: the text it returns and the masked text it is given are the same
    once their LF are left out, placeholders included; and so are the
    document that [apply] returns and its argument. *)
Theorem only_newlines_change (text : list N)
  (options : HeadingBlankLinesOptions) :
  exists res,
    rewrite options (mask_all ignored (chars text)) = Some res
    /\ apply text options = Some (unmask res)
    /\ strip_lf res = strip_lf (mask_all ignored (chars text))
    /\ doc_strip_lf (unmask res) = doc_strip_lf text.
Proof.
  destruct (rewrite_total options (mask_all ignored (chars text)))
    as (res & H1 & _).
  exists res. split; [exact H1|]. split; [rewrite apply_unfold, H1; reflexivity|].
  assert (G : strip_lf res = strip_lf (mask_all ignored (chars text)));
    [|split; [exact G|];
      rewrite doc_strip_unmask, G, <- doc_strip_unmask, unmask_mask_all;
      rewrite unmask_chars; reflexivity].
  destruct (rewrite_spec options _ res H1) as (mid & Hmid & ->).
  rewrite strip_yaml_pass, strip_edge_pass.
  transitivity (strip_lf (spacing_pass options (mask_all ignored (chars text)))).
  - unfold blank_section_pass in Hmid.
    destruct (negb (emptyLineInBlankSections options)).
    + exact (strip_collapse _ _ _ Hmid).
    + injection Hmid as <-. reflexivity.
  - apply strip_spacing_pass.
Qed.

(** X2. Whatever the options, [apply] returns as it is a document in which,
    once its protected regions are masked, no run of [#] is followed by a
    white-space symbol. *)
Theorem no_heading_unchanged (text : list N)
  (options : HeadingBlankLinesOptions) :
  has_heading (mask_all ignored (chars text)) = false ->
  apply text options = Some text.
Proof.
  intros H. rewrite apply_unfold, (rewrite_no_heading options _ H).
  cbn [option_map]. rewrite unmask_mask_all, unmask_chars. reflexivity.
Qed.

Lemma no_heading_unchanged_witness :
  let text := of_lines ["plain"; ""; ""; "#tag and `# code`"; ""]%string in
  has_heading (mask_all ignored (chars text)) = false
  /\ apply text (Options true false false) = Some text.
Proof.
  split; [vm_compute; reflexivity|].
  apply no_heading_unchanged. vm_compute. reflexivity.
Defined.

(** X3. With [bottom] off and the two other options on, in a masked text
    with no line made of hashes only, every heading line of the text the
    callback returns is the first line, or follows a symbol other than LF,
    or has exactly two LF before it; and after it comes no LF, or one LF
    and then a symbol other than LF, or two LF and then a heading line: no
    empty line is left after a heading, but the one before the next
    heading. *)
Theorem heading_lines_trimmed (text : list N) :
  no_bare_hashes (mask_all ignored (chars text)) = true ->
  exists res,
    rewrite (Options false true true) (mask_all ignored (chars text)) = Some res
    /\ apply text (Options false true true) = Some (unmask res)
    /\ forall pre h post,
         res = pre ++ h ++ post -> whole_line pre h post -> hline h = true ->
         before_trimmed pre /\ after_trimmed post.
Proof.
  intros Hn.
  exists (edge_pass (spacing_pass (Options false true true)
                       (mask_all ignored (chars text)))).
  split; [reflexivity|]. split; [reflexivity|].
  apply edge_pass_trimmed. intros pre h post E Hw Hh.
  exact (spacing_no_bottom_lines true true _ pre h post Hn E Hw Hh).
Qed.

Lemma heading_lines_trimmed_witness :
  let text := of_lines ["# A"; ""; ""; "b"; "# C"; ""; ""; "## D"; "e"]%string in
  no_bare_hashes (mask_all ignored (chars text)) = true
  /\ exists res,
       rewrite (Options false true true) (mask_all ignored (chars text))
       = Some res
       /\ apply text (Options false true true) = Some (unmask res)
       /\ forall pre h post,
            res = pre ++ h ++ post -> whole_line pre h post -> hline h = true ->
            before_trimmed pre /\ after_trimmed post.
Proof.
  split; [vm_compute; reflexivity|].
  apply heading_lines_trimmed. vm_compute. reflexivity.
Defined.

(** X4. With [emptyLineAfterYaml] and [emptyLineInBlankSections] on,
    whatever [bottom] is, the callback of [apply] changes nothing in a text
    it has returned, when the masked text it was given has no line made of
    hashes only. *)
Theorem rewrite_idempotent (bottom0 : bool) (t r : list sym) :
  no_bare_hashes t = true ->
  rewrite (Options bottom0 true true) t = Some r ->
  rewrite (Options bottom0 true true) r = Some r.
Proof.
  destruct bottom0.
  - apply rewrite_twice_bottom.
  - apply rewrite_twice_no_bottom.
Qed.

Lemma rewrite_idempotent_witness :
  let t := chars (of_lines ["# A"; "b"; ""; ""; "## C"; "### D"; ""]%string) in
  let r := chars (of_lines ["# A"; ""; "b"; ""; "## C"; ""; "### D"]%string) in
  no_bare_hashes t = true
  /\ rewrite (Options true true true) t = Some r
  /\ rewrite (Options true true true) r = Some r.
Proof.
  split; [vm_compute; reflexivity|]. split; [vm_compute; reflexivity|].
  apply (rewrite_idempotent true
           (chars (of_lines ["# A"; "b"; ""; ""; "## C"; "### D"; ""]%string)));
    vm_compute; reflexivity.
Defined.

(** X5. Whatever the options, the document that [apply] returns has the
    non-empty lines of its argument, in the same order: no line with
    content is changed, dropped, moved, split or merged. *)
Theorem lines_kept (text : list N) (options : HeadingBlankLinesOptions) :
  exists out,
    apply text options = Some out /\ doc_lines out = doc_lines text.
Proof.
  destruct (apply_total text options) as (out & H1 & H2).
  exists out. split; [exact H1|exact H2].
Qed.

(** X6. With [emptyLineAfterYaml] and [emptyLineInBlankSections] on,
    whatever [bottom] is, the callback of [apply] leaves the line breaks
    between two lines that follow each other and are both no heading lines
    as they are, in a masked text with no line made of hashes only: the two
    lines and the line terminators between them are found again, unchanged,
    in the text it returns. *)
Theorem body_spacing_kept (bottom0 : bool)
  (t r pre l1 s l2 post : list sym) :
  no_bare_hashes t = true ->
  rewrite (Options bottom0 true true) t = Some r ->
  t = pre ++ l1 ++ s ++ l2 ++ post ->
  is_line l1 -> is_line l2 -> is_sep s -> s <> [] ->
  ends_line is_line_terminator pre = true ->
  starts_line is_line_terminator post = true ->
  hline l1 = false -> hline l2 = false ->
  exists pre' post', r = pre' ++ l1 ++ s ++ l2 ++ post'.
Proof.
  intros Hn H E Hl1 Hl2 Hs Hne Hpre Hpost Hh1 Hh2.
  rewrite rewrite_default_blank in H. injection H as <-.
  destruct (parse_exists t) as (s0 & b & -> & Hs0 & Hb).
  pose proof (no_hash_line_lines s0 b Hs0 Hb Hn) as Hnb.
  destruct bottom0.
  - rewrite (spacing_bottom true true s0 b Hs0 Hb Hnb).
    exact (sep_kept_blocks spaced s0 b pre l1 s l2 post keeps_sep_spaced
             spaced_plain Hs0 Hb Hnb E Hl1 Hl2 Hs Hne Hpre Hpost Hh1 Hh2).
  - rewrite (spacing_no_bottom true true s0 b Hs0 Hb Hnb).
    exact (sep_kept_blocks trimmed s0 b pre l1 s l2 post keeps_sep_trimmed
             trimmed_plain Hs0 Hb Hnb E Hl1 Hl2 Hs Hne Hpre Hpost Hh1 Hh2).
Qed.

Lemma body_spacing_kept_witness :
  let t := chars (of_lines ["# A"; "b"; ""; ""; ""; "c"; "# D"]%string) in
  let r := chars (of_lines ["# A"; ""; "b"; ""; ""; ""; "c"; ""; "# D"]%string) in
  let pre := str "# A" ++ nl in
  let s := nl ++ nl ++ nl ++ nl in
  let post := nl ++ str "# D" in
  no_bare_hashes t = true
  /\ rewrite (Options true true true) t = Some r
  /\ t = pre ++ str "b" ++ s ++ str "c" ++ post
  /\ exists pre' post', r = pre' ++ str "b" ++ s ++ str "c" ++ post'.
Proof.
  split; [vm_compute; reflexivity|]. split; [vm_compute; reflexivity|].
  split; [vm_compute; reflexivity|].
  apply (body_spacing_kept true
           (chars (of_lines ["# A"; "b"; ""; ""; ""; "c"; "# D"]%string))
           _ (str "# A" ++ nl) (str "b") (nl ++ nl ++ nl ++ nl) (str "c")
           (nl ++ str "# D")).
  - vm_compute; reflexivity.
  - vm_compute; reflexivity.
  - vm_compute; reflexivity.
  - split; [discriminate|repeat constructor].
  - split; [discriminate|repeat constructor].
  - repeat constructor.
  - discriminate.
  - vm_compute; reflexivity.
  - vm_compute; reflexivity.
  - vm_compute; reflexivity.
  - vm_compute; reflexivity.
Defined.
